(** * StrategyOptimizer (src/optimizer.js): a shallow embedding and its properties

    The optimizer is a JavaScript class whose methods mutate the fields of a
    single object, draw random numbers, suspend at [await] points and report
    progress through a callback.  The embedding below follows the class
    method by method:

    - JavaScript numbers are modelled by exact rationals ([Qc]); the results
      of a division, which may be [NaN] or infinite, by [jsnum];
    - parameter sets (plain objects used as maps) by [gmap string value];
    - the mutable object by the record [Optimizer], threaded through a state
      and exception monad [M];
    - [Math.random], the simulated back-test, [Date.now] and the host that may
      call [stop()] while the run is suspended, by the oracles of a [World]. *)

From Stdlib Require Import QArith Qcanon Qround.
From stdpp Require Import base numbers list gmap strings sorting.

Local Open Scope Z_scope.
Local Open Scope Qc_scope.

(** ** Numbers *)

Definition Qc_of_nat (n : nat) : Qc := Qc_of_Z (Z.of_nat n).

(** [Math.floor] and [Math.round] (round half up, that is [floor (x + 0.5)]). *)
Definition jsFloor (x : Qc) : Z := Qfloor (this x).
Definition jsRound (x : Qc) : Qc := Qc_of_Z (jsFloor (x + Q2Qc (1 # 2))).

Definition jsMax (x y : Qc) : Qc := if decide (x < y) then y else x.
Definition jsMin (x y : Qc) : Qc := if decide (y < x) then y else x.

(** The result of a JavaScript division: the divisor may be zero. *)
Inductive jsnum : Type :=
| Fin (x : Qc)
| NaN
| PosInf
| NegInf.

Definition jsDiv (x y : Qc) : jsnum :=
  if decide (y = 0) then
    if decide (x = 0) then NaN
    else if decide (0 < x) then PosInf else NegInf
  else Fin (x / y).

Definition jsScale (x : jsnum) (k : Qc) : jsnum :=
  match x with
  | Fin a => Fin (a * k)
  | NaN => NaN
  | PosInf => if decide (k = 0) then NaN else if decide (0 < k) then PosInf else NegInf
  | NegInf => if decide (k = 0) then NaN else if decide (0 < k) then NegInf else PosInf
  end.

(** A draw of [Math.random()]: a rational of [[0, 1)], kept as
    [rnd_num / (rnd_num + rnd_gap)] so that the range holds by construction. *)
Record rnd : Type := mkRnd { rnd_num : N; rnd_gap : positive }.

Definition rnd_den (r : rnd) : positive :=
  match rnd_num r with
  | N0 => rnd_gap r
  | Npos p => (p + rnd_gap r)%positive
  end.

Definition rndQ (r : rnd) : Qc := Q2Qc (Z.of_N (rnd_num r) # rnd_den r).

(** ** Parameter model *)

Inductive value : Type :=
| VNum (x : Qc)
| VBool (b : bool)
| VStr (s : string).

Global Instance value_eq_dec : EqDecision value.
Proof. solve_decision. Defined.

(** [param.type]: the optimizer tests for ['boolean'], ['integer'] and
    ['float']; every other string ('number', 'string', 'source', ...) falls
    through all of its tests. *)
Inductive ptype : Type := TBoolean | TInteger | TFloat | TOther.

Global Instance ptype_eq_dec : EqDecision ptype.
Proof. solve_decision. Defined.

Record ParameterDefinition : Type := mkParam {
  name : string;
  type : ptype;
  min : Qc;
  max : Qc;
  step : Qc;
  current : value
}.

Abbreviation ParameterSet := (gmap string value).

Definition isNumeric (p : ParameterDefinition) : bool :=
  match type p with
  | TInteger | TFloat => true
  | _ => false
  end.

(** ** Candidate generator *)

Definition densityMap (density : string) : option nat :=
  if decide (density = "basic"%string) then Some 3%nat
  else if decide (density = "coarse"%string) then Some 5%nat
  else if decide (density = "standard"%string) then Some 7%nat
  else if decide (density = "fine"%string) then Some 10%nat
  else None.

(** [densityMap[density] || 5] *)
Definition stepsPerParam (density : string) : nat :=
  default 5%nat (densityMap density).

(** The sample taken at index [i]: [min + stepSize * i], rounded for an
    integer parameter.  [stepCount] is one of the values of [densityMap], so
    the divisor [stepCount - 1] is never zero. *)
Definition stepSize (param : ParameterDefinition) (stepCount : nat) : Qc :=
  (max param - min param) / (Qc_of_nat stepCount - 1).

Definition stepValue (param : ParameterDefinition) (stepCount i : nat) : Qc :=
  let v := min param + stepSize param stepCount * Qc_of_nat i in
  if decide (type param = TInteger) then jsRound v else v.

(** The [for] loop of [generateParameterSteps]: [i] runs from [i] while
    [n] iterations remain; a value already in [steps] is skipped. *)
Fixpoint stepsLoop (param : ParameterDefinition) (stepCount : nat)
    (n i : nat) (steps : list value) : list value :=
  match n with
  | O => steps
  | S n' =>
      let v := VNum (stepValue param stepCount i) in
      let steps' := if decide (v ∈ steps) then steps else steps ++ [v] in
      stepsLoop param stepCount n' (S i) steps'
  end.

Definition generateParameterSteps (param : ParameterDefinition)
    (stepCount : nat) : list value :=
  match type param with
  | TBoolean => [VBool true; VBool false]
  | TInteger | TFloat => stepsLoop param stepCount stepCount 0 []
  | TOther => []
  end.

(** The ceiling on the number of accumulated combinations. *)
Definition combinationLimit : Z := 10000.

(** [generateCombinations]: [current] is one object shared by all levels of
    the recursion and [sets] the array they push copies onto, so both are
    threaded through the calls.  [combinationLoop] is the [for ... of] loop
    over the steps of one parameter, with its early [return]; [recurse] is
    the call [generateCombinations(params, index + 1, current)]. *)
Definition combinationLoop
    (recurse : ParameterSet → list ParameterSet → ParameterSet * list ParameterSet)
    (key : string)
    : list value → ParameterSet → list ParameterSet
      → ParameterSet * list ParameterSet :=
  fix loop steps current sets :=
    match steps with
    | [] => (current, sets)
    | v :: steps' =>
        let '(current', sets') := recurse (<[key := v]> current) sets in
        if decide (combinationLimit ≤ Z.of_nat (length sets'))%Z
        then (current', sets')
        else loop steps' current' sets'
    end.

Fixpoint generateCombinations (stepCount : nat)
    (params : list ParameterDefinition)
    (current : ParameterSet) (sets : list ParameterSet)
    : ParameterSet * list ParameterSet :=
  match params with
  | [] => (current, sets ++ [current])
  | param :: rest =>
      combinationLoop (generateCombinations stepCount rest) (name param)
        (generateParameterSteps param stepCount) current sets
  end.

(** The array handed to [shuffleArray] by [generateParameterSets]. *)
Definition enumerateSets (parameters : list ParameterDefinition)
    (density : string) : list ParameterSet :=
  snd (generateCombinations (stepsPerParam density) parameters ∅ []).

(** ** Results, individuals, progress reports *)

Record Metrics : Type := mkMetrics {
  totalReturn : Qc;
  sharpeRatio : Qc;
  maxDrawdown : Qc;
  winRate : Qc;
  profitFactor : Qc;
  trades : Z
}.

Record EvaluationResult : Type := mkResult {
  iteration : nat;
  parameters : ParameterSet;
  score : Qc;
  metrics : Metrics;
  timestamp : Z
}.

Record Individual : Type := mkIndividual {
  genes : ParameterSet;
  fitness : option Qc
}.

Record Progress : Type := mkProgress {
  pr_current : nat;
  pr_total : jsnum;
  pr_percentage : jsnum;
  pr_bestScore : Qc;
  pr_resultsCount : nat
}.

(** What a call of the progress callback does, as far as the optimizer can
    tell: it returns (having called [stop()] on the optimizer or not), or it
    throws. *)
Inductive CallbackResult : Type :=
| CbReturn (calledStop : bool)
| CbThrow (e : string).

(** A callback may keep state of its own: its behaviour may depend on the
    moment of the call as well as on the report. *)
Definition Callback : Type := nat → Progress → CallbackResult.

Record Settings : Type := mkSettings {
  s_maxIterations : option Z;
  s_optimizationDepth : option string;
  s_parallelProcessing : option bool
}.

Record Config : Type := mkConfig {
  maxIterations : Z;
  optimizationDepth : string;
  parallelProcessing : bool
}.

Record Run : Type := mkRun {
  run_parameters : list ParameterDefinition;
  run_config : Config;
  startTime : Z;
  run_iteration : nat;
  totalIterations : jsnum
}.

Record Summary : Type := mkSummary {
  sm_bestScore : Qc;
  averageScore : jsnum;
  improvement : jsnum;
  sm_parameters : ParameterSet
}.

Record Compiled : Type := mkCompiled {
  success : bool;
  duration : Z;
  totalTests : nat;
  cp_bestResult : option EvaluationResult;
  topResults : list EvaluationResult;
  summary : Summary
}.

(** ** Arithmetic on [jsnum] (the sign of a zero is not modelled) *)

Definition jsnOfZ (z : Z) : jsnum := Fin (Qc_of_Z z).
Definition jsnOfNat (n : nat) : jsnum := Fin (Qc_of_nat n).

Definition jsnSign (x : jsnum) : option comparison :=
  match x with
  | Fin a => Some (a ?= 0)
  | PosInf => Some Gt
  | NegInf => Some Lt
  | NaN => None
  end.

Definition jsnInf (c : comparison) : jsnum :=
  match c with Gt => PosInf | Lt => NegInf | Eq => NaN end.

Definition compMul (c d : comparison) : comparison :=
  match c, d with
  | Eq, _ | _, Eq => Eq
  | Gt, Gt | Lt, Lt => Gt
  | _, _ => Lt
  end.

Definition jsnMul (x y : jsnum) : jsnum :=
  match x, y with
  | Fin a, Fin b => Fin (a * b)
  | _, _ =>
      match jsnSign x, jsnSign y with
      | Some c, Some d => jsnInf (compMul c d)
      | _, _ => NaN
      end
  end.

Definition jsnDiv (x y : jsnum) : jsnum :=
  match x, y with
  | Fin a, Fin b => jsDiv a b
  | Fin _, (PosInf | NegInf) => Fin 0
  | (PosInf | NegInf), Fin b =>
      match jsnSign x with
      | Some c => jsnInf (compMul c (if decide (b < 0) then Lt else Gt))
      | None => NaN
      end
  | _, _ => NaN
  end.

Definition jsnMin (x y : jsnum) : jsnum :=
  match x, y with
  | NaN, _ | _, NaN => NaN
  | NegInf, _ | _, NegInf => NegInf
  | PosInf, z | z, PosInf => z
  | Fin a, Fin b => Fin (jsMin a b)
  end.

Definition jsnRound (x : jsnum) : jsnum :=
  match x with
  | Fin a => Fin (jsRound a)
  | _ => x
  end.

(** ** Sorting

    [Array.prototype.sort] sorts the array in place and is stable; with the
    comparator [(a, b) => key(b) - key(a)] it orders by decreasing key.
    Insertion from the right, past the strictly larger keys only, computes
    that stable order. *)

Section Sort.
Context {A : Type} (key : A → Qc).

Fixpoint insertDesc (x : A) (l : list A) : list A :=
  match l with
  | [] => [x]
  | y :: l' =>
      if decide (key x < key y) then y :: insertDesc x l' else x :: l
  end.

Definition sortDesc (l : list A) : list A := foldr insertDesc [] l.
End Sort.

(** ** The optimizer object and the monad of its methods *)

(** Events of a run, kept in a ghost trace in the order they happen. *)
Inductive Event : Type :=
| EvStop                        (* the host or the callback calls [stop()] *)
| EvEvalStart (i : nat) (p : ParameterSet) (* [testParameterSet] entered *)
| EvRecorded (r : EvaluationResult) (best : option EvaluationResult)
                                           (* [r] pushed, best pointer settled *)
| EvReport (p : Progress) (c : CallbackResult) (* callback invoked *)
| EvCompiled.                              (* [compileResults] entered *)

(** The fields of the class, followed by two ghost fields: [tick], which
    numbers the consultations of the [World], and [trace]. *)
Record Optimizer : Type := mkOptimizer {
  isOptimizing : bool;
  currentOptimization : option Run;
  results : list EvaluationResult;
  bestResult : option EvaluationResult;
  progressCallback : option Callback;
  tick : nat;
  trace : list Event
}.

(** [constructor()] *)
Definition newOptimizer : Optimizer :=
  mkOptimizer false None [] None None 0 [].

Definition set_isOptimizing (b : bool) (s : Optimizer) : Optimizer :=
  mkOptimizer b (currentOptimization s) (results s) (bestResult s)
    (progressCallback s) (tick s) (trace s).
Definition set_currentOptimization (r : option Run) (s : Optimizer) : Optimizer :=
  mkOptimizer (isOptimizing s) r (results s) (bestResult s)
    (progressCallback s) (tick s) (trace s).
Definition set_results (l : list EvaluationResult) (s : Optimizer) : Optimizer :=
  mkOptimizer (isOptimizing s) (currentOptimization s) l (bestResult s)
    (progressCallback s) (tick s) (trace s).
Definition set_bestResult (b : option EvaluationResult) (s : Optimizer) : Optimizer :=
  mkOptimizer (isOptimizing s) (currentOptimization s) (results s) b
    (progressCallback s) (tick s) (trace s).
Definition set_progressCallback (c : option Callback) (s : Optimizer) : Optimizer :=
  mkOptimizer (isOptimizing s) (currentOptimization s) (results s) (bestResult s)
    c (tick s) (trace s).
Definition set_tick (n : nat) (s : Optimizer) : Optimizer :=
  mkOptimizer (isOptimizing s) (currentOptimization s) (results s) (bestResult s)
    (progressCallback s) n (trace s).
Definition set_trace (t : list Event) (s : Optimizer) : Optimizer :=
  mkOptimizer (isOptimizing s) (currentOptimization s) (results s) (bestResult s)
    (progressCallback s) (tick s) t.

(** A method call ends normally, by an exception, or (for the one loop of the
    class that is not bounded by a counter) by running out of fuel. *)
Inductive Outcome (A : Type) : Type :=
| Done (a : A) (s : Optimizer)
| Thrown (e : string) (s : Optimizer)
| OutOfFuel.
Arguments Done {A} a s.
Arguments Thrown {A} e s.
Arguments OutOfFuel {A}.

Definition M (A : Type) : Type := Optimizer → Outcome A.

Definition ret {A} (a : A) : M A := λ s, Done a s.
Definition bind {A B} (m : M A) (f : A → M B) : M B :=
  λ s, match m s with
       | Done a s' => f a s'
       | Thrown e s' => Thrown e s'
       | OutOfFuel => OutOfFuel
       end.
Definition throw {A} (e : string) : M A := λ s, Thrown e s.
Definition tryCatch {A} (m : M A) (h : string → M A) : M A :=
  λ s, match m s with
       | Thrown e s' => h e s'
       | o => o
       end.
Definition get : M Optimizer := λ s, Done s s.
Definition modify (f : Optimizer → Optimizer) : M unit := λ s, Done tt (f s).
Definition outOfFuel {A} : M A := λ _, OutOfFuel.

Global Instance M_ret : MRet M := @ret.
Global Instance M_bind : MBind M := λ A B f m, bind m f.

Definition emit (e : Event) : M unit :=
  modify (λ s, set_trace (trace s ++ [e]) s).

(** What [o[k]] throws when [o] is [undefined] or [null]. *)
Definition typeError : string := "TypeError".

(** ** The world outside the class *)

Record World : Type := mkWorld {
  w_random : nat → rnd;                          (* [Math.random()] *)
  w_backtest : nat → ParameterSet → Qc * Metrics; (* the simulated back-test *)
  w_now : nat → Z;                               (* [Date.now()] *)
  w_stop : nat → bool   (* does the host call [stop()] during this suspension? *)
}.

(** [stop()].  The trace records the calls of [stop()] where they are made,
    by the host in [delay] and by the callback in [updateProgress], and not
    here: what a call brings about is for [stop] to do and for the theorems
    to show. *)
Definition stop : M unit :=
  modify (set_isOptimizing false).

(** [setProgressCallback(callback)] *)
Definition setProgressCallback (callback : Callback) : M unit :=
  modify (set_progressCallback (Some callback)).

Section Methods.
Variable w : World.

Definition nextTick : M nat :=
  λ s, Done (tick s) (set_tick (S (tick s)) s).

Definition random : M rnd := n ← nextTick; ret (w_random w n).
Definition now : M Z := n ← nextTick; ret (w_now w n).

(** [await this.delay(ms)]: the method is suspended and the host runs; the
    only thing the host is taken to do to the optimizer meanwhile is to
    call [stop()]. *)
Definition delay : M unit :=
  n ← nextTick;
  if w_stop w n then emit EvStop;; stop else ret tt.

(** [generateSimulatedScore] and [generateSimulatedMetrics] rest on
    [Math.sin] and on noise; their joint result is an oracle of the world. *)
Definition simulate (parameters : ParameterSet) : M (Qc * Metrics) :=
  n ← nextTick; ret (w_backtest w n parameters).

Definition testParameterSet (parameters : ParameterSet) (iteration : nat)
    : M EvaluationResult :=
  emit (EvEvalStart iteration parameters);;
  _ ← random;
  delay;;
  '(score, metrics) ← simulate parameters;
  timestamp ← now;
  ret (mkResult iteration parameters score metrics timestamp).

Definition updateBestResult (result : EvaluationResult) : M unit :=
  s ← get;
  match bestResult s with
  | None => modify (set_bestResult (Some result))
  | Some best =>
      if decide (score best < score result)
      then modify (set_bestResult (Some result))
      else ret tt
  end.

(** [this.bestResult?.score || 0] *)
Definition bestScoreOr0 (s : Optimizer) : Qc :=
  match bestResult s with
  | Some best => score best
  | None => 0
  end.

Definition updateProgress (current : nat) (total : jsnum) : M unit :=
  s ← get;
  match progressCallback s with
  | None => ret tt
  | Some callback =>
      let report :=
        mkProgress current total
          (jsnRound (jsnMul (jsnDiv (jsnOfNat current) total) (jsnOfZ 100)))
          (bestScoreOr0 s) (length (results s)) in
      n ← nextTick;
      emit (EvReport report (callback n report));;
      match callback n report with
      | CbReturn calledStop =>
          if calledStop then emit EvStop;; stop else ret tt
      | CbThrow e => throw e
      end
  end.

(** [this.results.push(result)] *)
Definition pushResult (result : EvaluationResult) : M unit :=
  modify (λ s, set_results (results s ++ [result]) s).

(** Ghost: the evaluation [result] is on record and the best pointer has
    been brought up to date. *)
Definition recorded (result : EvaluationResult) : M unit :=
  s ← get; emit (EvRecorded result (bestResult s)).

(** [getTopResults]: [sort] reorders [this.results] itself. *)
Definition getTopResults (count : nat) : M (list EvaluationResult) :=
  modify (λ s, set_results (sortDesc score (results s)) s);;
  s ← get;
  ret (take count (results s)).

(** [array.slice(0, count)]: a negative [count] is counted from the end of
    the array, so that the last [-count] elements are left out. *)
Definition sliceTo {A} (l : list A) (count : Z) : list A :=
  if decide (0 ≤ count)%Z then take (Z.to_nat count) l
  else take (length l - Z.to_nat (- count)) l.

(** [getTopResults] again, for a call whose argument may be negative; the
    argument of the calls modelled by [getTopResults] is a literal. *)
Definition getTopResultsUpTo (count : Z) : M (list EvaluationResult) :=
  modify (λ s, set_results (sortDesc score (results s)) s);;
  s ← get;
  ret (sliceTo (results s) count).

Definition calculateImprovement : M jsnum :=
  s ← get;
  if decide (length (results s) < 2)%nat then ret (Fin 0)
  else
    match results s !! 0%nat, bestResult s with
    | Some first, Some best =>
        let firstScore := score first in
        let bestScore := score best in
        ret (jsScale (jsDiv (bestScore - firstScore) firstScore) (Qc_of_Z 100))
    | _, _ => throw typeError
    end.

Definition sumScores (l : list EvaluationResult) : Qc :=
  foldl (λ sum r, sum + score r) 0 l.

(** The properties of the object literal are evaluated in the order they
    are written: [totalTests], then [topResults], then [summary]. *)
Definition compileResults : M Compiled :=
  emit EvCompiled;;
  endTime ← now;
  s ← get;
  match currentOptimization s with
  | None => throw typeError
  | Some run =>
      let duration := (endTime - startTime run)%Z in
      let totalTests := length (results s) in
      let best := bestResult s in
      top ← getTopResults 10;
      s' ← get;
      let bestScore := bestScoreOr0 s' in
      let average :=
        jsDiv (sumScores (results s')) (Qc_of_nat (length (results s'))) in
      improvement ← calculateImprovement;
      s'' ← get;
      let params := from_option parameters ∅ (bestResult s'') in
      ret (mkCompiled true duration totalTests best top
             (mkSummary bestScore average improvement params))
  end.

(** *** Utility methods *)

(** [array[i]] where the caller goes on to read a property of the element:
    out of range the element is [undefined] and the read throws. *)
Definition element {A} (l : list A) (i : nat) : M A :=
  match l !! i with
  | Some x => ret x
  | None => throw typeError
  end.

Definition swap {A} (l : list A) (i j : nat) : list A :=
  match l !! i, l !! j with
  | Some x, Some y => <[i := y]> (<[j := x]> l)
  | _, _ => l
  end.

(** The loop of [shuffleArray]: [i] runs down from [i] to 1. *)
Fixpoint shuffleLoop {A} (i : nat) (shuffled : list A) : M (list A) :=
  match i with
  | O => ret shuffled
  | S i' =>
      r ← random;
      let j := Z.to_nat (jsFloor (rndQ r * Qc_of_nat (i + 1))) in
      shuffleLoop i' (swap shuffled i j)
  end.

Definition shuffleArray {A} (array : list A) : M (list A) :=
  shuffleLoop (length array - 1) array.

Definition generateParameterSets (parameters : list ParameterDefinition)
    (density : string) : M (list ParameterSet) :=
  shuffleArray (enumerateSets parameters density).

Definition generateRandomValue (param : ParameterDefinition) : M value :=
  match type param with
  | TBoolean =>
      r ← random; ret (VBool (bool_decide (rndQ r < Q2Qc (1 # 2))))
  | TInteger =>
      r ← random;
      ret (VNum (Qc_of_Z (jsFloor (rndQ r * (max param - min param + 1)))
                 + min param))
  | TFloat =>
      r ← random; ret (VNum (rndQ r * (max param - min param) + min param))
  | TOther => ret (current param)
  end.

(** [removeDuplicateSets]: the sets compared are built with their keys in
    one order, so equal [JSON.stringify] keys mean equal sets. *)
Fixpoint removeDuplicateLoop (sets unique : list ParameterSet)
    : list ParameterSet :=
  match sets with
  | [] => unique
  | set :: sets' =>
      removeDuplicateLoop sets'
        (if decide (set ∈ unique) then unique else unique ++ [set])
  end.

Definition removeDuplicateSets (sets : list ParameterSet) : list ParameterSet :=
  removeDuplicateLoop sets [].

(** [param.step || 1] *)
Definition stepOr1 (param : ParameterDefinition) : Qc :=
  if decide (step param = 0) then 1 else step param.

(** The value [currentValue + step * i], clamped to the bounds and rounded
    for an integer parameter. *)
Definition perturb (param : ParameterDefinition) (currentValue : Qc)
    (i : Z) : Qc :=
  let newValue := currentValue + stepOr1 param * Qc_of_Z i in
  let newValue := jsMax (min param) (jsMin (max param) newValue) in
  if decide (type param = TInteger) then jsRound newValue else newValue.

(** The numeric parameters of the sets this class builds hold numbers; the
    coercions JavaScript would apply to a value of another kind found
    under a numeric parameter's name are not modelled: such a value has no
    variations and no neighbors here. *)
Definition numberAt (parameters : ParameterSet) (param : ParameterDefinition)
    : option Qc :=
  match parameters !! name param with
  | Some (VNum x) => Some x
  | _ => None
  end.

Definition generateParameterVariations (param : ParameterDefinition)
    (currentValue : option Qc) : list Qc :=
  match isNumeric param, currentValue with
  | true, Some currentValue =>
      filter (λ newValue, newValue ≠ currentValue)
        (map (perturb param currentValue) [-2; -1; 1; 2]%Z)
  | _, _ => []
  end.

Definition generateFineParameterSets (topResults : list EvaluationResult)
    (params : list ParameterDefinition) : list ParameterSet :=
  removeDuplicateSets
    (result ← topResults;
     param ← params;
     variation ← generateParameterVariations param
                    (numberAt (parameters result) param);
     [<[name param := VNum variation]> (parameters result)]).

Definition generateNeighbors (parameters : ParameterSet)
    (param : ParameterDefinition) : list ParameterSet :=
  match isNumeric param, numberAt parameters param with
  | true, Some currentValue =>
      (λ newValue, <[name param := VNum newValue]> parameters) <$>
      filter (λ newValue, newValue ≠ currentValue)
        (map (perturb param currentValue) [-2; -1; 1; 2]%Z)
  | _, _ => []
  end.

(** [calculateTotalIterations] *)
Definition calculateTotalIterations (parameters : list ParameterDefinition)
    (config : Config) : jsnum :=
  let combinations :=
    foldl (λ total param,
             match type param with
             | TBoolean => jsnMul total (jsnOfZ 2)
             | TInteger | TFloat =>
                 let steps :=
                   jsnMin (jsnOfZ 10) (jsDiv (max param - min param) (step param)) in
                 jsnMul total steps
             | TOther => total
             end) (jsnOfZ 1) parameters in
  jsnMin combinations (jsnOfZ (maxIterations config)).

(** *** Grid phases *)

(** One pass of the body shared by the evaluation loops: evaluate, push,
    update the best pointer. *)
Definition evaluate (paramSet : ParameterSet) (iteration : nat)
    : M EvaluationResult :=
  result ← testParameterSet paramSet iteration;
  pushResult result;;
  updateBestResult result;;
  recorded result;;
  ret result.

(** The [for (let i = 0; i < maxSets; i++)] loop of [basicOptimization]
    and of the first phase of the two other profiles, which differ in the
    total they report: [n] iterations remain, [i] is the loop variable. *)
Fixpoint gridLoop (parameterSets : list ParameterSet) (total : jsnum)
    (n i : nat) : M unit :=
  match n with
  | O => ret tt
  | S n' =>
      s ← get;
      if negb (isOptimizing s) then ret tt
      else
        paramSet ← element parameterSets i;
        _ ← evaluate paramSet i;
        updateProgress (i + 1) total;;
        delay;;
        gridLoop parameterSets total n' (S i)
  end.

Definition basicOptimization (parameters : list ParameterDefinition)
    (config : Config) : M Compiled :=
  parameterSets ← generateParameterSets parameters "basic";
  let maxSets := Z.min (Z.of_nat (length parameterSets)) (maxIterations config) in
  gridLoop parameterSets (jsnOfZ maxSets) (Z.to_nat maxSets) 0;;
  compileResults.

(** The loop of the second phase of [standardOptimization]. *)
Fixpoint fineLoop (fineParameterSets : list ParameterSet) (config : Config)
    (n i : nat) : M unit :=
  match n with
  | O => ret tt
  | S n' =>
      s ← get;
      if negb (isOptimizing s) then ret tt
      else
        paramSet ← element fineParameterSets i;
        _ ← evaluate paramSet (length (results s));
        s' ← get;
        updateProgress (length (results s')) (jsnOfZ (maxIterations config));;
        delay;;
        fineLoop fineParameterSets config n' (S i)
  end.

(** [Math.floor(config.maxIterations * share)] *)
Definition budgetShare (config : Config) (share : Qc) : Z :=
  jsFloor (Qc_of_Z (maxIterations config) * share).

Definition standardOptimization (parameters : list ParameterDefinition)
    (config : Config) : M Compiled :=
  parameterSets ← generateParameterSets parameters "coarse";
  let maxSets :=
    Z.min (Z.of_nat (length parameterSets)) (budgetShare config (Q2Qc (6 # 10))) in
  gridLoop parameterSets (jsnOfZ (maxIterations config)) (Z.to_nat maxSets) 0;;
  s ← get;
  (if isOptimizing s && bool_decide (0 < length (results s))%nat then
     topResults ← getTopResults 5;
     let fineParameterSets := generateFineParameterSets topResults parameters in
     s' ← get;
     let remainingIterations :=
       (maxIterations config - Z.of_nat (length (results s')))%Z in
     let maxSets :=
       Z.min (Z.of_nat (length fineParameterSets)) remainingIterations in
     fineLoop fineParameterSets config (Z.to_nat maxSets) 0
   else ret tt);;
  compileResults.

(** *** Genetic phase *)

(** [individual.fitness || 0] and [!individual.fitness]: a fitness of 0 is
    as falsy as [null]. *)
Definition fitnessOr0 (individual : Individual) : Qc :=
  default 0 (fitness individual).
Definition noFitness (individual : Individual) : bool :=
  match fitness individual with
  | None => true
  | Some f => bool_decide (f = 0)
  end.

(** [parameters.forEach(param => individual[param.name] = generateRandomValue(param))] *)
Fixpoint randomGenes (params : list ParameterDefinition)
    (individual : ParameterSet) : M ParameterSet :=
  match params with
  | [] => ret individual
  | param :: rest =>
      v ← generateRandomValue param;
      randomGenes rest (<[name param := v]> individual)
  end.

(** The [while (population.length < size)] loop of [initializePopulation];
    every pass pushes one individual, so it makes [n] passes when
    [size - population.length] is [n]. *)
Fixpoint fillPopulation (params : list ParameterDefinition) (n : nat)
    (population : list Individual) : M (list Individual) :=
  match n with
  | O => ret population
  | S n' =>
      individual ← randomGenes params ∅;
      fillPopulation params n' (population ++ [mkIndividual individual None])
  end.

Definition initializePopulation (params : list ParameterDefinition)
    (size : Z) : M (list Individual) :=
  topResults ← getTopResultsUpTo (Z.min 5 size);
  let population :=
    (λ result, mkIndividual (parameters result) (Some (score result)))
      <$> topResults in
  fillPopulation params (Z.to_nat (size - Z.of_nat (length population)))
    population.

(** [population[Math.floor(Math.random() * population.length)]] *)
Definition pick (population : list Individual) : M Individual :=
  r ← random;
  element population
    (Z.to_nat (jsFloor (rndQ r * Qc_of_nat (length population)))).

Definition selectParent (population : list Individual) : M Individual :=
  best ← pick population;
  candidate ← pick population;
  best ← ret (if decide (fitnessOr0 best < fitnessOr0 candidate)
              then candidate else best);
  candidate ← pick population;
  ret (if decide (fitnessOr0 best < fitnessOr0 candidate)
       then candidate else best).

(** [offspring[param.name] = parent.genes[param.name]]; a name the parent
    lacks is read as [undefined], which the model renders by the absence
    of the key. *)
Fixpoint crossoverLoop (parent1 parent2 : Individual)
    (params : list ParameterDefinition) (offspring : ParameterSet)
    : M ParameterSet :=
  match params with
  | [] => ret offspring
  | param :: rest =>
      r ← random;
      let parent := if decide (rndQ r < Q2Qc (1 # 2)) then parent1 else parent2 in
      crossoverLoop parent1 parent2 rest
        (partial_alter (λ _, genes parent !! name param) (name param) offspring)
  end.

Definition crossover (parent1 parent2 : Individual)
    (params : list ParameterDefinition) : M ParameterSet :=
  crossoverLoop parent1 parent2 params ∅.

(** The chance tested by [Math.random() < 0.1]. *)
Definition mutationRate : Qc := Q2Qc (1 # 10).

Fixpoint mutate (individual : ParameterSet)
    (params : list ParameterDefinition) : M ParameterSet :=
  match params with
  | [] => ret individual
  | param :: rest =>
      r ← random;
      if decide (rndQ r < mutationRate) then
        v ← generateRandomValue param;
        mutate (<[name param := v]> individual) rest
      else mutate individual rest
  end.

(** One pass of the [while (newPopulation.length < population.length)]
    loop of [evolvePopulation]. *)
Definition breed (population : list Individual)
    (params : list ParameterDefinition) : M Individual :=
  parent1 ← selectParent population;
  parent2 ← selectParent population;
  offspring ← crossover parent1 parent2 params;
  r ← random;
  offspring ← (if decide (rndQ r < mutationRate)
               then mutate offspring params else ret offspring);
  ret (mkIndividual offspring None).

(** Every pass pushes one individual: [n] passes are made when
    [population.length - newPopulation.length] is [n]. *)
Fixpoint offspringLoop (population : list Individual)
    (params : list ParameterDefinition) (n : nat)
    (newPopulation : list Individual) : M (list Individual) :=
  match n with
  | O => ret newPopulation
  | S n' =>
      child ← breed population params;
      offspringLoop population params n' (newPopulation ++ [child])
  end.

Definition evolvePopulation (population : list Individual)
    (params : list ParameterDefinition) : M (list Individual) :=
  let population := sortDesc fitnessOr0 population in
  let eliteCount :=
    Z.to_nat (jsFloor (Qc_of_nat (length population) * Q2Qc (2 # 10))) in
  let newPopulation := take eliteCount population in
  offspringLoop population params
    (length population - length newPopulation) newPopulation.

(** [this.updateProgress(this.results.length,
    this.currentOptimization.totalIterations)] *)
Definition reportRunProgress : M unit :=
  s ← get;
  match currentOptimization s with
  | None => throw typeError
  | Some run => updateProgress (length (results s)) (totalIterations run)
  end.

(** The inner loop of [geneticOptimization] over [population[i]]. *)
Fixpoint evaluatePopulation (n i : nat) (population : list Individual)
    : M (list Individual) :=
  match n with
  | O => ret population
  | S n' =>
      s ← get;
      if negb (isOptimizing s) then ret population
      else
        individual ← element population i;
        if noFitness individual then
          result ← evaluate (genes individual) (length (results s));
          let population :=
            <[i := mkIndividual (genes individual) (Some (score result))]>
              population in
          reportRunProgress;;
          delay;;
          evaluatePopulation n' (S i) population
        else evaluatePopulation n' (S i) population
  end.

(** The loop over the generations. *)
Fixpoint generationLoop (params : list ParameterDefinition) (n : nat)
    (population : list Individual) : M unit :=
  match n with
  | O => ret tt
  | S n' =>
      s ← get;
      if negb (isOptimizing s) then ret tt
      else
        population ← evaluatePopulation (length population) 0 population;
        population ← evolvePopulation population params;
        generationLoop params n' population
  end.

Definition geneticOptimization (params : list ParameterDefinition)
    (iterations : Z) : M unit :=
  let populationSize := Z.min 20 (Z.max 10 (iterations / 5)) in
  population ← initializePopulation params populationSize;
  let generations := (iterations / populationSize)%Z in
  generationLoop params (Z.to_nat generations) population.

(** *** Local-search phase *)

(** The local variables of [localSearchOptimization]. *)
Record LocalSearch : Type := mkLocalSearch {
  currentBest : EvaluationResult;
  improved : bool;
  ls_iteration : Z
}.

(** The head of the body of the loop over the neighbors: evaluate, push,
    count, and move to the neighbor if it beats [currentBest]. *)
Definition evaluateNeighbor (neighbor : ParameterSet) (ls : LocalSearch)
    : M LocalSearch :=
  s ← get;
  result ← testParameterSet neighbor (length (results s));
  pushResult result;;
  let ls := mkLocalSearch (currentBest ls) (improved ls)
              (ls_iteration ls + 1) in
  ls ← (if decide (score (currentBest ls) < score result) then
           updateBestResult result;;
           ret (mkLocalSearch result true (ls_iteration ls))
         else ret ls);
  recorded result;;
  ret ls.

(** The loop over the neighbors of one parameter. *)
Fixpoint neighborLoop (iterations : Z) (neighbors : list ParameterSet)
    (ls : LocalSearch) : M LocalSearch :=
  match neighbors with
  | [] => ret ls
  | neighbor :: rest =>
      s ← get;
      if negb (isOptimizing s) || bool_decide (iterations ≤ ls_iteration ls)%Z
      then ret ls
      else
        ls ← evaluateNeighbor neighbor ls;
        reportRunProgress;;
        delay;;
        neighborLoop iterations rest ls
  end.

(** The loop over the parameters. *)
Fixpoint parameterLoop (iterations : Z) (params : list ParameterDefinition)
    (ls : LocalSearch) : M LocalSearch :=
  match params with
  | [] => ret ls
  | param :: rest =>
      s ← get;
      if negb (isOptimizing s) || bool_decide (iterations ≤ ls_iteration ls)%Z
      then ret ls
      else
        let neighbors := generateNeighbors (parameters (currentBest ls)) param in
        ls ← neighborLoop iterations neighbors ls;
        parameterLoop iterations rest ls
  end.

(** The [while] loop; it is the one loop of the class with no counter of
    its own, hence the fuel. *)
Fixpoint searchLoop (fuel : nat) (iterations : Z)
    (params : list ParameterDefinition) (ls : LocalSearch) : M unit :=
  s ← get;
  if improved ls && bool_decide (ls_iteration ls < iterations)%Z && isOptimizing s
  then
    match fuel with
    | O => outOfFuel
    | S fuel' =>
        ls ← parameterLoop iterations params
               (mkLocalSearch (currentBest ls) false (ls_iteration ls));
        searchLoop fuel' iterations params ls
    end
  else ret tt.

(** Fuel for [iterations] evaluations: a round that evaluates nothing is
    the last one. *)
Definition searchFuel (iterations : Z) : nat := S (Z.to_nat iterations).

Definition localSearchOptimization (params : list ParameterDefinition)
    (iterations : Z) : M unit :=
  s ← get;
  match bestResult s with
  | None => throw typeError
  | Some best =>
      searchLoop (searchFuel iterations) iterations params
        (mkLocalSearch best true 0)
  end.

(** *** The three profiles and [optimize] *)

Definition deepOptimization (params : list ParameterDefinition)
    (config : Config) : M Compiled :=
  parameterSets ← generateParameterSets params "coarse";
  let maxSets :=
    Z.min (Z.of_nat (length parameterSets)) (budgetShare config (Q2Qc (3 # 10))) in
  gridLoop parameterSets (jsnOfZ (maxIterations config)) (Z.to_nat maxSets) 0;;
  s ← get;
  (if isOptimizing s && bool_decide (0 < length (results s))%nat then
     geneticOptimization params (budgetShare config (Q2Qc (4 # 10)))
   else ret tt);;
  s ← get;
  (if isOptimizing s && bool_decide (is_Some (bestResult s)) then
     localSearchOptimization params
       (maxIterations config - Z.of_nat (length (results s)))%Z
   else ret tt);;
  compileResults.

(** The object literal of [optimize]: the defaults, then [...settings],
    whose keys override them. *)
Definition makeConfig (settings : Settings) : Config :=
  let defaults :=
    mkConfig
      (match s_maxIterations settings with
       | Some n => if decide (n = 0%Z) then 100%Z else n
       | None => 100%Z
       end)
      (match s_optimizationDepth settings with
       | Some d => if decide (d = ""%string) then "standard"%string else d
       | None => "standard"%string
       end)
      (default false (s_parallelProcessing settings)) in
  mkConfig
    (default (maxIterations defaults) (s_maxIterations settings))
    (default (optimizationDepth defaults) (s_optimizationDepth settings))
    (default (parallelProcessing defaults) (s_parallelProcessing settings)).

Definition optimize (params : list ParameterDefinition) (settings : Settings)
    : M Compiled :=
  s ← get;
  if isOptimizing s then throw "Optimization already in progress"%string
  else
    tryCatch
      (modify (set_isOptimizing true);;
       modify (set_results []);;
       modify (set_bestResult None);;
       modify (set_trace []);;
       let config := makeConfig settings in
       startTime ← now;
       modify (set_currentOptimization
                 (Some (mkRun params config startTime 0
                          (calculateTotalIterations params config))));;
       compiled ←
         (if decide (optimizationDepth config = "basic"%string)
          then basicOptimization params config
          else if decide (optimizationDepth config = "deep"%string)
          then deepOptimization params config
          else standardOptimization params config);
       modify (set_isOptimizing false);;
       ret compiled)
      (λ error, modify (set_isOptimizing false);; throw error).
End Methods.

(** ** The log of evaluations read off the trace *)

(** The best pointer after [updateBestResult(r)], as a function. *)
Definition better (best : option EvaluationResult) (r : EvaluationResult)
    : option EvaluationResult :=
  match best with
  | None => Some r
  | Some b => if decide (score b < score r) then Some r else Some b
  end.

Definition bestOf (log : list EvaluationResult) : option EvaluationResult :=
  foldl better None log.

Definition recordOf (e : Event)
    : option (EvaluationResult * option EvaluationResult) :=
  match e with
  | EvRecorded r best => Some (r, best)
  | _ => None
  end.

(** The recorded evaluations in completion order, each with the best pointer
    as it stood once the evaluation was on record. *)
Definition history (tr : list Event)
    : list (EvaluationResult * option EvaluationResult) :=
  omap recordOf tr.

Definition completionLog (tr : list Event) : list EvaluationResult :=
  (history tr).*1.

(** [best] is the earliest element of [log] with the largest score. *)
Definition earliestMax (log : list EvaluationResult) (best : EvaluationResult)
    : Prop :=
  ∃ j, log !! j = Some best
       ∧ (∀ i x, log !! i = Some x → score x ≤ score best)
       ∧ (∀ i x, (i < j)%nat → log !! i = Some x → score x < score best).

Definition isStart (e : Event) : Prop :=
  match e with EvEvalStart _ _ => True | _ => False end.

Definition noStartAfterStop (tr : list Event) : Prop :=
  ∀ i j e, tr !! i = Some EvStop → tr !! j = Some e → isStart e → (j < i)%nat.

(** Every evaluation that was started is on record, and nothing but the
    host's [stop()] happened between its start and its recording. *)
Definition startsRecorded (tr : list Event) : Prop :=
  ∀ j k p, tr !! j = Some (EvEvalStart k p) →
    ∃ j' r best, (j < j')%nat ∧ tr !! j' = Some (EvRecorded r best)
      ∧ iteration r = k ∧ parameters r = p
      ∧ ∀ i, (j < i < j')%nat → tr !! i = Some EvStop.

Definition reportsReturned (tr : list Event) : Prop :=
  ∀ p c, EvReport p c ∈ tr → ∃ b, c = CbReturn b.

(** ** The run as a transition system

    Between the reset at the head of [optimize] and the call of
    [compileResults], the object changes by the steps below only. *)

Definition afterEvaluation (r : EvaluationResult) (stopped : bool) (n : nat)
    (s : Optimizer) : Optimizer :=
  mkOptimizer (if stopped then false else isOptimizing s)
    (currentOptimization s) (results s ++ [r]) (better (bestResult s) r)
    (progressCallback s) n
    (trace s ++ [EvEvalStart (iteration r) (parameters r)]
       ++ (if stopped then [EvStop] else [])
       ++ [EvRecorded r (better (bestResult s) r)]).

Definition afterStop (s : Optimizer) : Optimizer :=
  set_trace (trace s ++ [EvStop]) (set_isOptimizing false s).

Definition afterReport (p : Progress) (c : CallbackResult) (n : nat)
    (s : Optimizer) : Optimizer :=
  set_trace (trace s ++ [EvReport p c]) (set_tick n s).

Inductive runStep : Optimizer → Optimizer → Prop :=
| step_tick s n : runStep s (set_tick n s)
| step_stop s : runStep s (afterStop s)
| step_report s p b n : runStep s (afterReport p (CbReturn b) n s)
| step_sort s l : l ≡ₚ results s → runStep s (set_results l s)
| step_eval s r stopped n :
    isOptimizing s = true → iteration r = length (results s) →
    runStep s (afterEvaluation r stopped n s).

Definition steps : Optimizer → Optimizer → Prop := rtc runStep.

(** The state in which the phases of a run start. *)
Definition startOfRun (run : Run) (cb : option Callback) (n : nat) : Optimizer :=
  mkOptimizer true (Some run) [] None cb n [].

Record Inv (s : Optimizer) : Prop := mkInv {
  inv_log : results s ≡ₚ completionLog (trace s);
  inv_best : bestResult s = bestOf (completionLog (trace s));
  inv_snap : ∀ k r b, history (trace s) !! k = Some (r, b) →
               b = bestOf (take (S k) (completionLog (trace s)));
  inv_iter : ∀ k r, completionLog (trace s) !! k = Some r → iteration r = k;
  inv_stop : EvStop ∈ trace s → isOptimizing s = false;
  inv_nsas : noStartAfterStop (trace s);
  inv_rec : startsRecorded (trace s);
  inv_rep : reportsReturned (trace s);
  inv_run : is_Some (currentOptimization s);
  inv_cmp : EvCompiled ∉ trace s
}.

(** ** Vocabulary of the statements *)

(** [wp m s Q E]: from [s], the call [m] ends, either normally in a state
    and with a value that satisfy [Q], or by an exception that satisfies [E]. *)
Definition wp {A} (m : M A) (s : Optimizer)
    (Q : A → Optimizer → Prop) (E : string → Optimizer → Prop) : Prop :=
  match m s with
  | Done a s' => Q a s'
  | Thrown e s' => E e s'
  | OutOfFuel => False
  end.

(** [s'] is reached from [s] by steps of the run that record [n] evaluations
    at most. *)
Definition within (n : nat) (s s' : Optimizer) : Prop :=
  steps s s' ∧ (length (results s') ≤ length (results s) + n)%nat.

(** The last thing that happened is the recording of an evaluation. *)
Definition justRecorded (s : Optimizer) : Prop :=
  ∃ r best, last (trace s) = Some (EvRecorded r best).

(** The one exception of a run: thrown by the progress callback, which was
    called right after the recording of an evaluation and told the length
    of the log; the object is left as it was at the call. *)
Definition throwsAt (e : string) (s0 s' : Optimizer) : Prop :=
  ∃ callback p,
    progressCallback s0 = Some callback
    ∧ callback (tick s0) p = CbThrow e
    ∧ justRecorded s0
    ∧ pr_resultsCount p = length (results s0)
    ∧ s' = afterReport p (CbThrow e) (S (tick s0)) s0.

Definition spec {A} (m : M A) (s : Optimizer) (n : nat)
    (Q : A → Optimizer → Prop) : Prop :=
  wp m s (λ a s', within n s s' ∧ Q a s')
         (λ e s', ∃ s0, within n s s0 ∧ throwsAt e s0 s').

(** A method that consults the world and changes nothing else. *)
Definition ticks {A} (m : M A) (P : A → Prop) : Prop :=
  ∀ s, ∃ a n, m s = Done a (set_tick n s) ∧ P a.

(** The variables of the local search agree with the best pointer. *)
Definition anchored (ls : LocalSearch) (s : Optimizer) : Prop :=
  ∃ best, bestResult s = Some best ∧ score best = score (currentBest ls).

Definition moved (ls : LocalSearch) (s : Optimizer)
    (ls' : LocalSearch) (s' : Optimizer) : Prop :=
  (ls_iteration ls ≤ ls_iteration ls')%Z
  ∧ (Z.of_nat (length (results s')) - Z.of_nat (length (results s))
     ≤ ls_iteration ls' - ls_iteration ls)%Z
  ∧ (improved ls = false → improved ls' = true →
     ls_iteration ls < ls_iteration ls')%Z.

(** The evaluations the local search may still make. *)
Definition remaining (iterations : Z) (ls : LocalSearch) : nat :=
  Z.to_nat (iterations - ls_iteration ls).

(** The object once [compileResults] has returned. *)
Definition afterCompile (s : Optimizer) : Optimizer :=
  mkOptimizer (isOptimizing s) (currentOptimization s)
    (sortDesc score (results s)) (bestResult s) (progressCallback s)
    (S (tick s)) (trace s ++ [EvCompiled]).

(** What [calculateImprovement] returns when the log is [log] on entry. *)
Definition improvementFrom (log : list EvaluationResult)
    (best : option EvaluationResult) : jsnum :=
  match log, best with
  | first :: _ :: _, Some best =>
      jsScale (jsDiv (score best - score first) (score first)) (Qc_of_Z 100)
  | _, _ => Fin 0
  end.

(** From [s], the profile [m] makes steps of the run that record [n]
    evaluations at most, and then either compiles the results or relays the
    exception of the progress callback. *)
Definition finishes (w : World) (n : nat) (s : Optimizer) (m : M Compiled)
    : Prop :=
  wp m s
    (λ c s', ∃ s1, within n s s1 ∧ compileResults w s1 = Done c s'
                   ∧ s' = afterCompile s1)
    (λ e s', ∃ s0, within n s s0 ∧ throwsAt e s0 s').

(** [optimize] on an idle optimizer: the reset, the profile, and the lowering
    of the flag on either way out. *)
Definition runConfig (w : World) (params : list ParameterDefinition)
    (settings : Settings) (s : Optimizer) : Run :=
  mkRun params (makeConfig settings) (w_now w (tick s)) 0
    (calculateTotalIterations params (makeConfig settings)).

Definition profile (w : World) (params : list ParameterDefinition)
    (config : Config) : M Compiled :=
  if decide (optimizationDepth config = "basic"%string)
  then basicOptimization w params config
  else if decide (optimizationDepth config = "deep"%string)
  then deepOptimization w params config
  else standardOptimization w params config.

Definition lengthParam : ParameterDefinition :=
  mkParam "length" TInteger (Qc_of_Z 5) (Qc_of_Z 50) (Qc_of_Z 1)
    (VNum (Qc_of_Z 14)).

Definition noMetrics : Metrics := mkMetrics 0 0 0 0 0 0.

(** A back-test that scores the candidate by its ["length"]. *)
Definition demoScore (p : ParameterSet) : Qc :=
  match p !! "length"%string with
  | Some (VNum x) =>
      if decide (x = Qc_of_Z 28) then Qc_of_Z 50
      else if decide (x = Qc_of_Z 50) then Qc_of_Z 80
      else Qc_of_Z 65
  | _ => 0
  end.

(** Every draw of [Math.random()] is 0, the clock stands still and the host
    never calls [stop()]. *)
Definition demoWorld : World :=
  mkWorld (λ _, mkRnd 0 1) (λ _ p, (demoScore p, noMetrics)) (λ _, 0%Z)
    (λ _, false).

Definition basicSettings : Settings :=
  mkSettings (Some 20%Z) (Some "basic"%string) None.

Definition zeroSettings : Settings :=
  mkSettings (Some 0%Z) (Some "basic"%string) None.

Definition failingCallback : Callback := λ _ _, CbThrow "observer failed".

Definition observedOptimizer : Optimizer :=
  set_progressCallback (Some failingCallback) newOptimizer.

(** The state in which a call ended, if it ended. *)
Definition finalState {A} (o : Outcome A) : option Optimizer :=
  match o with
  | Done _ s | Thrown _ s => Some s
  | OutOfFuel => None
  end.

(** What the invariant says of the snapshots of the best pointer. *)
Definition bestTracked (tr : list Event) : Prop :=
  let log := completionLog tr in
  (∀ k r, log !! k = Some r → iteration r = k)
  ∧ (∀ k r b, history tr !! k = Some (r, b) →
       log !! k = Some r
       ∧ ∃ best, b = Some best ∧ earliestMax (take (S k) log) best)
  ∧ (∀ k r1 b1 r2 b2,
       history tr !! k = Some (r1, Some b1) →
       history tr !! S k = Some (r2, Some b2) →
       score b1 ≤ score b2
       ∧ (b2 = b1 ∨ (b2 = r2 ∧ score b1 < score r2))).

(** The Cartesian product of the per-parameter samples, in the order of the
    nested loops, with nothing to cut it short: what [generateCombinations]
    enumerates when the ceiling is out of reach. *)
Fixpoint allCombinations (stepCount : nat) (params : list ParameterDefinition)
    (current : ParameterSet) : list ParameterSet :=
  match params with
  | [] => [current]
  | param :: rest =>
      v ← generateParameterSteps param stepCount;
      allCombinations stepCount rest (<[name param := v]> current)
  end.

(** Two sets that differ on the keys [keys] at most. *)
Definition agree (keys : list string) (a b : ParameterSet) : Prop :=
  ∀ k, k ∉ keys → a !! k = b !! k.

(** The ceiling, as a length. *)
Definition ceiling : nat := Z.to_nat combinationLimit.

Definition isInteger (x : Qc) : Prop := ∃ z : Z, x = Qc_of_Z z.

(** The bounds of a parameter suit its type: a numeric parameter has
    [min ≤ max], and the bounds of an integer parameter are integers. *)
Definition boundsOk (param : ParameterDefinition) : Prop :=
  match type param with
  | TInteger => min param ≤ max param
                ∧ isInteger (min param) ∧ isInteger (max param)
  | TFloat => min param ≤ max param
  | _ => True
  end.




(** The value [generateRandomValue(param)] makes of the draw [r]. *)
Definition drawnValue (param : ParameterDefinition) (r : rnd) : value :=
  match type param with
  | TBoolean => VBool (bool_decide (rndQ r < Q2Qc (1 # 2)))
  | TInteger =>
      VNum (Qc_of_Z (jsFloor (rndQ r * (max param - min param + 1)))
            + min param)
  | TFloat => VNum (rndQ r * (max param - min param) + min param)
  | TOther => current param
  end.

(** [v] is a value of the kind and within the bounds of [param]. *)
Definition withinBounds (param : ParameterDefinition) (v : value) : Prop :=
  match type param, v with
  | TBoolean, VBool _ => True
  | (TInteger | TFloat), VNum x => min param ≤ x ≤ max param
  | TOther, _ => v = current param
  | _, _ => False
  end.

(** What [mutate] has done to the genes [before] when it returns [after],
    having consulted the world from tick [from] up to tick [to] excluded:
    every parameter had a draw of its own, and its gene was drawn anew if
    that draw was below the mutation rate and kept otherwise. *)
Definition perGene (w : World) (params : list ParameterDefinition)
    (before after : ParameterSet) (from to : nat) : Prop :=
  (∀ k, k ∉ name <$> params → after !! k = before !! k)
  ∧ ∀ param, param ∈ params →
      ∃ t, (from ≤ t < to)%nat
           ∧ if decide (rndQ (w_random w t) < mutationRate)
             then after !! name param
                  = Some (drawnValue param (w_random w (S t)))
             else after !! name param = before !! name param.

(** A world whose eighth draw (tick 7) is 0 and whose other draws are 1/2. *)
Definition triggerWorld : World :=
  mkWorld (λ t, if decide (t = 7%nat) then mkRnd 0 1 else mkRnd 1 1)
    (λ _ p, (demoScore p, noMetrics)) (λ _, 0%Z) (λ _, false).

Definition fourteen : Individual :=
  mkIndividual {["length"%string := VNum (Qc_of_Z 14)]} (Some (Qc_of_Z 50)).

(** A list in descending order of score. *)
Definition descending (l : list EvaluationResult) : Prop :=
  StronglySorted (λ a b, score b ≤ score a) l.

(** A result on record for the candidate [{length: 14}], scored 50. *)
Definition seedResult : EvaluationResult :=
  mkResult 0 {["length"%string := VNum (Qc_of_Z 14)]} (Qc_of_Z 50) noMetrics 0.

(** The parent whose gene [crossover] copies on the draw of tick [t]. *)
Definition donor (w : World) (parent1 parent2 : Individual) (t : nat)
    : Individual :=
  if decide (rndQ (w_random w t) < Q2Qc (1 # 2)) then parent1 else parent2.

(** The index [Math.floor(Math.random() * n)] made of the draw of tick [t]. *)
Definition drawnIndex (w : World) (n t : nat) : nat :=
  Z.to_nat (jsFloor (rndQ (w_random w t) * Qc_of_nat n)).

(** [Math.floor(population.length * 0.2)] *)
Definition eliteCount (population : list Individual) : nat :=
  Z.to_nat (jsFloor (Qc_of_nat (length population) * Q2Qc (2 # 10))).

(** An individual made by [crossover] and [mutate], or drawn at random: it
    has no fitness yet and genes for the declared parameters only. *)
Definition newcomer (params : list ParameterDefinition) (individual : Individual)
    : Prop :=
  fitness individual = None
  ∧ ∀ k, k ∉ name <$> params → genes individual !! k = None.

(** The individual [initializePopulation] makes of a result on record. *)
Definition seed (result : EvaluationResult) : Individual :=
  mkIndividual (parameters result) (Some (score result)).

(** Every declared parameter has a gene, of the kind and within the bounds
    of a declaration of its name. *)
Definition genesInBounds (params : list ParameterDefinition)
    (individual : Individual) : Prop :=
  ∀ k, k ∈ name <$> params →
    ∃ param v, param ∈ params ∧ name param = k
               ∧ genes individual !! k = Some v ∧ withinBounds param v.

(** The host never calls [stop()]. *)
Definition quiet (w : World) : Prop := ∀ t, w_stop w t = false.

(** A numeric parameter whose grid can be counted: [min ≤ max] and a
    positive step. *)
Definition gridCountable (param : ParameterDefinition) : Prop :=
  isNumeric param = true → min param ≤ max param ∧ 0 < step param.

(** A state midway in a run: one evaluation is on record. *)
Definition midRun : Optimizer :=
  afterEvaluation seedResult false 0
    (startOfRun (runConfig demoWorld [lengthParam] basicSettings newOptimizer)
       None 0).

(** A variation of the value [c] of [param]: a number other than [c], within
    the bounds, an integer for an integer parameter. *)
Definition variationOf (param : ParameterDefinition) (c v : Qc) : Prop :=
  (∃ i, i ∈ [-2; -1; 1; 2]%Z ∧ v = perturb param c i)
  ∧ min param ≤ v ≤ max param
  ∧ v ≠ c
  ∧ (type param = TInteger → isInteger v).

(** Settings that leave the profile to its default, [standard]. *)
Definition standardSettings : Settings := mkSettings (Some 20%Z) None None.

(** An idle optimizer with three results on record, scored 50, 80 and 65. *)
Definition threeResults : Optimizer :=
  set_results
    [ mkResult 0 {["length"%string := VNum (Qc_of_Z 5)]} (Qc_of_Z 50)
        noMetrics 0;
      mkResult 1 {["length"%string := VNum (Qc_of_Z 28)]} (Qc_of_Z 80)
        noMetrics 0;
      mkResult 2 {["length"%string := VNum (Qc_of_Z 50)]} (Qc_of_Z 65)
        noMetrics 0 ]
    newOptimizer.

(** A world like [demoWorld] but for the host, which calls [stop()] at
    every suspension of a run. *)
Definition stoppingWorld : World :=
  mkWorld (λ _, mkRnd 0 1) (λ _ p, (demoScore p, noMetrics)) (λ _, 0%Z)
    (λ _, true).

(** ** Facts about the log *)

Lemma history_app tr tr' : history (tr ++ tr') = history tr ++ history tr'.
Proof. apply omap_app. Qed.

Lemma completionLog_app tr tr' :
  completionLog (tr ++ tr') = completionLog tr ++ completionLog tr'.
Proof. unfold completionLog. by rewrite history_app, fmap_app. Qed.

Lemma completionLog_length tr : length (completionLog tr) = length (history tr).
Proof. unfold completionLog. by rewrite length_fmap. Qed.

Lemma bestOf_snoc log r : bestOf (log ++ [r]) = better (bestOf log) r.
Proof. unfold bestOf. by rewrite foldl_app. Qed.

Lemma history_evaluation tr r (stopped : bool) best :
  history (tr ++ [EvEvalStart (iteration r) (parameters r)]
             ++ (if stopped then [EvStop] else []) ++ [EvRecorded r best])
  = history tr ++ [(r, best)].
Proof. rewrite history_app. by destruct stopped. Qed.

Lemma noStartAfterStop_snoc tr e :
  noStartAfterStop tr → ¬ isStart e → noStartAfterStop (tr ++ [e]).
Proof.
  intros Htr He i j e' Hi Hj Hs.
  apply lookup_snoc_Some in Hi as [[Hi1 Hi2]|[Hi1 Hi2]];
    apply lookup_snoc_Some in Hj as [[Hj1 Hj2]|[Hj1 Hj2]].
  - eauto.
  - by subst.
  - lia.
  - by subst.
Qed.

Lemma startsRecorded_app tr tr' :
  startsRecorded tr → (∀ e, e ∈ tr' → ¬ isStart e) → startsRecorded (tr ++ tr').
Proof.
  intros Htr Hno j k p Hj.
  apply lookup_app_Some in Hj as [Hj|[Hlen Hj]].
  - destruct (Htr j k p Hj) as (j' & r & best & Hlt & Hj' & Hk & Hp & Hbetween).
    exists j', r, best. split_and!; try done.
    + by apply lookup_app_l_Some.
    + intros i Hi. apply lookup_app_l_Some. by apply Hbetween.
  - destruct (Hno (EvEvalStart k p)); [|done].
    by eapply list_elem_of_lookup_2.
Qed.

Lemma elem_of_snoc {A} (l : list A) (x y : A) : x ∈ l ++ [y] ↔ x ∈ l ∨ x = y.
Proof. rewrite elem_of_app, list_elem_of_singleton. tauto. Qed.

Ltac in_cases H :=
  repeat (apply elem_of_cons in H as [H|H]; [try discriminate; eauto|]);
  try (by apply elem_of_nil in H).

Lemma Inv_quiet s s' :
  Inv s → trace s' = trace s → results s' ≡ₚ results s →
  bestResult s' = bestResult s → isOptimizing s' = isOptimizing s →
  currentOptimization s' = currentOptimization s → Inv s'.
Proof.
  intros [] Ht Hr Hb Ho Hc.
  split; rewrite ?Ht, ?Hb, ?Ho, ?Hc; try done. by rewrite Hr.
Qed.

Lemma Inv_event s s' e :
  Inv s → trace s' = trace s ++ [e] → recordOf e = None → ¬ isStart e →
  e ≠ EvCompiled →
  (∀ p c, e = EvReport p c → ∃ b, c = CbReturn b) →
  results s' = results s → bestResult s' = bestResult s →
  (isOptimizing s' = isOptimizing s ∧ e ≠ EvStop ∨ isOptimizing s' = false) →
  currentOptimization s' = currentOptimization s → Inv s'.
Proof.
  intros [] Ht He Hns Hnc Hrep Hr Hb Ho Hc.
  assert (Hh : history (trace s') = history (trace s)).
  { rewrite Ht, history_app. simpl. rewrite He. apply app_nil_r. }
  assert (Hl : completionLog (trace s') = completionLog (trace s)).
  { unfold completionLog. by rewrite Hh. }
  split; rewrite ?Hh, ?Hl, ?Hr, ?Hb, ?Hc; try done.
  - rewrite Ht, elem_of_snoc. intros [Hin|Heq].
    + destruct Ho as [[-> _]| ->]; auto.
    + destruct Ho as [[_ ?]| ->]; done.
  - rewrite Ht. by apply noStartAfterStop_snoc.
  - rewrite Ht. apply startsRecorded_app; [done|].
    intros e' ->%list_elem_of_singleton. done.
  - rewrite Ht. intros p c [Hin|Heq]%elem_of_snoc; eauto.
  - rewrite Ht, elem_of_snoc. intros [?|Heq]; done.
Qed.

Lemma Inv_evaluation s r stopped n :
  Inv s → isOptimizing s = true → iteration r = length (results s) →
  Inv (afterEvaluation r stopped n s).
Proof.
  intros [Hlog Hbest Hsnap Hiter Hstop Hnsas Hrec Hrep Hrun Hcmp] Hopt Hit.
  assert (Hnostop : EvStop ∉ trace s).
  { intros Hin. apply Hstop in Hin. congruence. }
  assert (Hlen : length (completionLog (trace s)) = length (results s)).
  { by rewrite Hlog. }
  set (best' := better (bestResult s) r).
  assert (Hh : history (trace (afterEvaluation r stopped n s))
               = history (trace s) ++ [(r, best')]).
  { apply history_evaluation. }
  assert (Hl : completionLog (trace (afterEvaluation r stopped n s))
               = completionLog (trace s) ++ [r]).
  { unfold completionLog. by rewrite Hh, fmap_app. }
  split; rewrite ?Hh, ?Hl.
  - simpl. by rewrite Hlog.
  - simpl. by rewrite bestOf_snoc, <-Hbest.
  - intros k r' b [[Hk Hb]|[Hk Hb]]%lookup_snoc_Some.
    + rewrite take_app_le.
      2:{ rewrite completionLog_length. lia. }
      eauto.
    + injection Hb as <- <-.
      rewrite take_ge.
      2:{ rewrite length_app, completionLog_length. simpl. lia. }
      unfold best'. by rewrite bestOf_snoc, <-Hbest.
  - intros k r' [[Hk Hb]|[Hk Hb]]%lookup_snoc_Some; [eauto|].
    subst. lia.
  - simpl. destruct stopped; [done|].
    intros Hin. apply elem_of_app in Hin as [Hin|Hin]; [done|].
    simpl in Hin. in_cases Hin.
  - intros i j e Hi Hj Hs. simpl in Hi, Hj.
    assert (Hjlt : (j ≤ length (trace s))%nat).
    { apply lookup_app_Some in Hj as [Hj|[Hj1 Hj2]].
      - apply lookup_lt_Some in Hj. lia.
      - destruct (j - length (trace s))%nat as [|[|[|m]]] eqn:E; [lia|..];
          destruct stopped; simpl in Hj2; simplify_eq; try done. }
    apply lookup_app_Some in Hi as [Hi|[Hi1 Hi2]].
    + destruct Hnostop. by eapply list_elem_of_lookup_2.
    + destruct (i - length (trace s))%nat as [|m] eqn:E; [done|]. lia.
  - intros j k p Hj. simpl in Hj.
    apply lookup_app_Some in Hj as [Hj|[Hj1 Hj2]].
    + destruct (Hrec j k p Hj) as (j' & r' & b & Hlt & Hj' & Hk & Hp & Hbetween).
      exists j', r', b. split_and!; try done.
      * simpl. by apply lookup_app_l_Some.
      * intros i Hi. simpl. apply lookup_app_l_Some. by apply Hbetween.
    + destruct (j - length (trace s))%nat as [|m] eqn:E.
      2:{ destruct stopped, m as [|[|m]]; simpl in Hj2; simplify_eq. }
      simpl in Hj2. injection Hj2 as <- <-.
      assert (j = length (trace s)) as -> by lia.
      destruct stopped.
      * exists (S (S (length (trace s)))), r, best'. split_and!; try done; [lia|..].
        -- simpl. rewrite lookup_app_r by lia.
           by replace (S (S (length (trace s))) - length (trace s))%nat with 2%nat by lia.
        -- intros i Hi. assert (i = S (length (trace s))) as -> by lia.
           simpl. rewrite lookup_app_r by lia.
           by replace (S (length (trace s)) - length (trace s))%nat with 1%nat by lia.
      * exists (S (length (trace s))), r, best'. split_and!; try done; [lia|..].
        -- simpl. rewrite lookup_app_r by lia.
           by replace (S (length (trace s)) - length (trace s))%nat with 1%nat by lia.
        -- intros i Hi. lia.
  - intros p c Hin. simpl in Hin. apply elem_of_app in Hin as [Hin|Hin]; [eauto|].
    destruct stopped; simpl in Hin; in_cases Hin.
  - done.
  - simpl. intros Hin. apply elem_of_app in Hin as [Hin|Hin]; [done|].
    destruct stopped; simpl in Hin; in_cases Hin.
Qed.

Lemma Inv_step s s' : Inv s → runStep s s' → Inv s'.
Proof.
  intros HI Hstep. destruct Hstep.
  - by eapply Inv_quiet.
  - eapply (Inv_event _ _ EvStop); eauto; try done.
  - eapply (Inv_event _ _ (EvReport p (CbReturn b))); eauto; try done.
    intros ?? [= <- <-]. eauto.
  - eapply Inv_quiet; eauto.
  - by apply Inv_evaluation.
Qed.

Lemma Inv_steps s s' : Inv s → steps s s' → Inv s'.
Proof. induction 2; eauto using Inv_step. Qed.

Lemma Inv_start run cb n : Inv (startOfRun run cb n).
Proof.
  split; simpl; try done.
  all: try (intros Hin; by apply elem_of_nil in Hin).
  all: try (intros ? ? Hin; by apply elem_of_nil in Hin).
Qed.

(** ** Specifications of the methods *)

Lemma bind_unfold {A B} (m : M A) (f : A → M B) s :
  (m ≫= f) s = match m s with
               | Done a s' => f a s'
               | Thrown e s' => Thrown e s'
               | OutOfFuel => OutOfFuel
               end.
Proof. reflexivity. Qed.

Lemma wp_bind {A B} (m : M A) (f : A → M B) s Q E :
  wp m s (λ a s', wp (f a) s' Q E) E → wp (m ≫= f) s Q E.
Proof. unfold wp. rewrite bind_unfold. by destruct (m s). Qed.

Lemma wp_mono {A} (m : M A) s (Q Q' : A → Optimizer → Prop)
    (E E' : string → Optimizer → Prop) :
  wp m s Q E → (∀ a s', Q a s' → Q' a s') → (∀ e s', E e s' → E' e s') →
  wp m s Q' E'.
Proof. unfold wp. destruct (m s); auto. Qed.

Lemma set_tick_twice n k s : set_tick n (set_tick k s) = set_tick n s.
Proof. done. Qed.

Lemma set_tick_same s : set_tick (tick s) s = s.
Proof. by destruct s. Qed.

Lemma within_refl n s : within n s s.
Proof. split; [apply rtc_refl | lia]. Qed.

Lemma within_trans n k s1 s2 s3 :
  within n s1 s2 → within k s2 s3 → within (n + k) s1 s3.
Proof. intros [? ?] [? ?]. split; [by etrans | lia]. Qed.

Lemma within_mono n k s s' : within n s s' → (n ≤ k)%nat → within k s s'.
Proof. intros [? ?] ?. split; [done | lia]. Qed.

Lemma within_step s s' :
  runStep s s' → length (results s') = length (results s) → within 0 s s'.
Proof. intros ? ?. split; [by apply rtc_once | lia]. Qed.

Lemma within_tick n k s : within n s (set_tick k s).
Proof. split; [apply rtc_once, step_tick | simpl; lia]. Qed.

Lemma steps_results_length s s' :
  steps s s' → (length (results s) ≤ length (results s'))%nat.
Proof.
  induction 1 as [|s1 s2 s3 Hstep _ IH]; [done|].
  etrans; [|exact IH]. destruct Hstep; simpl; try done.
  - by rewrite H.
  - rewrite length_app. simpl. lia.
Qed.

Lemma steps_callback s s' : steps s s' → progressCallback s' = progressCallback s.
Proof.
  induction 1 as [|s1 s2 s3 Hstep _ IH]; [done|].
  rewrite IH. by destruct Hstep.
Qed.

Lemma steps_run s s' :
  steps s s' → currentOptimization s' = currentOptimization s.
Proof.
  induction 1 as [|s1 s2 s3 Hstep _ IH]; [done|].
  rewrite IH. by destruct Hstep.
Qed.

Lemma within_0_length s s' :
  within 0 s s' → length (results s') = length (results s).
Proof. intros [H1 H2]. apply steps_results_length in H1. lia. Qed.

Lemma spec_ret {A} (a : A) s (Q : A → Optimizer → Prop) :
  Q a s → spec (ret a) s 0 Q.
Proof. intros. split; [apply within_refl | done]. Qed.

Lemma spec_bind {A B} (m : M A) (f : A → M B) s n k
    (Q : A → Optimizer → Prop) (R : B → Optimizer → Prop) :
  spec m s n Q →
  (∀ a s', within n s s' → Q a s' → spec (f a) s' k R) →
  spec (m ≫= f) s (n + k) R.
Proof.
  intros Hm Hf. apply wp_bind. eapply wp_mono; [exact Hm|..].
  - intros a s' [Hw HQ]. eapply wp_mono; [by apply Hf|..].
    + intros b s'' [Hw' HR]. split; [by eapply within_trans | done].
    + intros e s'' (s0 & Hw' & Ht). exists s0. split; [by eapply within_trans | done].
  - intros e s' (s0 & Hw & Ht). exists s0. split; [|done].
    eapply within_mono; [done | lia].
Qed.

Lemma spec_mono {A} (m : M A) s n k (Q Q' : A → Optimizer → Prop) :
  spec m s n Q → (n ≤ k)%nat → (∀ a s', within n s s' → Q a s' → Q' a s') →
  spec m s k Q'.
Proof.
  intros Hm Hle HQ. eapply wp_mono; [exact Hm|..].
  - intros a s' [Hw Hq]. split; [by eapply within_mono | auto].
  - intros e s' (s0 & Hw & Ht). exists s0. split; [by eapply within_mono | done].
Qed.

Lemma spec_get s : spec get s 0 (λ a s', a = s ∧ s' = s).
Proof. split; [apply within_refl | done]. Qed.

Lemma ticks_ret {A} (a : A) (P : A → Prop) : P a → ticks (ret a) P.
Proof. intros ? s. exists a, (tick s). by rewrite set_tick_same. Qed.

Lemma ticks_bind {A B} (m : M A) (f : A → M B) (P : A → Prop) (R : B → Prop) :
  ticks m P → (∀ a, P a → ticks (f a) R) → ticks (m ≫= f) R.
Proof.
  intros Hm Hf s. destruct (Hm s) as (a & n & Hs & Ha).
  destruct (Hf a Ha (set_tick n s)) as (b & k & Hs' & Hb).
  exists b, k. rewrite bind_unfold, Hs, Hs'. by rewrite set_tick_twice.
Qed.

Lemma ticks_mono {A} (m : M A) (P P' : A → Prop) :
  ticks m P → (∀ a, P a → P' a) → ticks m P'.
Proof. intros Hm HP s. destruct (Hm s) as (a & n & ? & ?). eauto 6. Qed.

Lemma ticks_spec {A} (m : M A) (P : A → Prop) s :
  ticks m P → spec m s 0 (λ a s', P a ∧ ∃ n, s' = set_tick n s).
Proof.
  intros Hm. unfold spec, wp. destruct (Hm s) as (a & n & -> & Ha).
  split; [apply within_tick | eauto].
Qed.

Lemma ticks_nextTick : ticks nextTick (λ _, True).
Proof. intros s. by exists (tick s), (S (tick s)). Qed.

Lemma ticks_random w : ticks (random w) (λ _, True).
Proof. intros s. by exists (w_random w (tick s)), (S (tick s)). Qed.

Lemma ticks_now w : ticks (now w) (λ _, True).
Proof. intros s. by exists (w_now w (tick s)), (S (tick s)). Qed.

Ltac run_monad :=
  repeat (progress (unfold mbind, M_bind, bind, mret, M_ret, ret, get, modify,
                    emit, throw, stop, nextTick; simpl)).

Lemma spec_delay w s : spec (delay w) s 0 (λ _ _, True).
Proof.
  unfold spec, wp, delay. run_monad.
  destruct (w_stop w (tick s)); run_monad; (split; [|done]).
  - split; [|simpl; lia].
    eapply rtc_l; [apply (step_tick _ (S (tick s)))|].
    apply rtc_once. apply step_stop.
  - apply within_tick.
Qed.

Lemma spec_updateProgress current total s :
  justRecorded s → spec (updateProgress current total) s 0 (λ _ _, True).
Proof.
  intros Hjust. unfold spec, wp, updateProgress. run_monad.
  destruct (progressCallback s) as [callback|] eqn:Hcb; run_monad.
  2:{ split; [apply within_refl | done]. }
  set (report := mkProgress _ _ _ _ _).
  destruct (callback (tick s) report) as [[|]|e] eqn:Hc; run_monad.
  - split; [|done]. split; [|simpl; lia].
    eapply rtc_l; [apply (step_report _ report true (S (tick s)))|].
    apply rtc_once. apply step_stop.
  - split; [|done]. apply within_step; [|done].
    apply (step_report _ report false (S (tick s))).
  - exists s. split; [apply within_refl|]. exists callback, report.
    split_and!; [done | done | done | done | reflexivity].
Qed.

Lemma spec_reportRunProgress s :
  is_Some (currentOptimization s) → justRecorded s →
  spec reportRunProgress s 0 (λ _ _, True).
Proof.
  intros [run Hrun] Hjust. unfold reportRunProgress.
  change 0%nat with (0 + 0)%nat. eapply spec_bind; [apply spec_get|].
  simpl. intros ? s' _ [-> ->]. rewrite Hrun. by apply spec_updateProgress.
Qed.

Lemma justRecorded_afterEvaluation r stopped n s :
  justRecorded (afterEvaluation r stopped n s).
Proof.
  exists r, (better (bestResult s) r). simpl. rewrite last_app.
  by destruct stopped.
Qed.

Lemma evaluate_unfold w p i s :
  ∃ r, iteration r = i ∧ parameters r = p ∧
    evaluate w p i s
    = Done r (afterEvaluation r (w_stop w (S (tick s))) (S (S (S (S (tick s))))) s).
Proof.
  destruct (w_backtest w (S (S (tick s))) p) as [sc me] eqn:Hb.
  exists (mkResult i p sc me (w_now w (S (S (S (tick s)))))).
  split; [done|]. split; [done|].
  unfold evaluate, testParameterSet, random, delay, simulate, now, pushResult,
    updateBestResult, recorded, afterEvaluation, better.
  run_monad.
  destruct (w_stop w (S (tick s))); run_monad; rewrite Hb; run_monad;
    (destruct (bestResult s) as [b|] eqn:Hbest; run_monad;
     [destruct (decide _); run_monad|]);
    unfold set_trace, set_bestResult; simpl;
    rewrite ?Hbest, <-?app_assoc; reflexivity.
Qed.

Lemma spec_evaluate w p i s :
  isOptimizing s = true → i = length (results s) →
  spec (evaluate w p i) s 1
    (λ r s', length (results s') = S (length (results s))
             ∧ iteration r = i ∧ parameters r = p ∧ justRecorded s').
Proof.
  intros Hopt Hi. destruct (evaluate_unfold w p i s) as (r & Hr & Hp & Heq).
  unfold spec, wp. rewrite Heq. split_and!; try done.
  - split; [|simpl; rewrite length_app; simpl; lia].
    apply rtc_once. apply step_eval; [done | congruence].
  - simpl. rewrite length_app. simpl. lia.
  - apply justRecorded_afterEvaluation.
Qed.

Lemma sortDesc_perm {A} (key : A → Qc) (l : list A) : sortDesc key l ≡ₚ l.
Proof.
  induction l as [|x l IH]; simpl; [done|].
  rewrite <-IH at 2. generalize (sortDesc key l). clear.
  intros l. induction l as [|y l IH]; simpl; [done|].
  destruct (decide _); [|done].
  rewrite IH. apply Permutation_swap.
Qed.

Lemma spec_getTopResults count s :
  spec (getTopResults count) s 0
    (λ top s', s' = set_results (sortDesc score (results s)) s
               ∧ top = take count (sortDesc score (results s))).
Proof.
  unfold spec, wp, getTopResults. run_monad.
  split; [|done]. apply within_step.
  - apply step_sort. apply sortDesc_perm.
  - simpl. by rewrite sortDesc_perm.
Qed.

(** ** Arithmetic facts *)

Lemma Qc_of_Z_le (a b : Z) : (a ≤ b)%Z ↔ Qc_of_Z a ≤ Qc_of_Z b.
Proof. unfold Qcle. simpl. by rewrite Zle_Qle. Qed.

Lemma Qc_of_Z_lt (a b : Z) : (a < b)%Z ↔ Qc_of_Z a < Qc_of_Z b.
Proof. unfold Qclt. simpl. by rewrite Zlt_Qlt. Qed.

Lemma Qc_of_Z_0 : Qc_of_Z 0 = 0.
Proof. by apply Qc_is_canon. Qed.

Lemma Qc_of_Z_1 : Qc_of_Z 1 = 1.
Proof. by apply Qc_is_canon. Qed.

Lemma jsFloor_of_Z (z : Z) : jsFloor (Qc_of_Z z) = z.
Proof. unfold jsFloor. simpl. apply Qfloor_Z. Qed.

Lemma jsFloor_mono (x y : Qc) : x ≤ y → (jsFloor x ≤ jsFloor y)%Z.
Proof. apply Qfloor_resp_le. Qed.

Lemma jsFloor_le (x : Qc) : Qc_of_Z (jsFloor x) ≤ x.
Proof. unfold Qcle. simpl. apply Qfloor_le. Qed.

Lemma jsFloor_lt (x : Qc) (n : Z) : x < Qc_of_Z n → (jsFloor x < n)%Z.
Proof.
  intros H. apply (proj2 (Qc_of_Z_lt _ _)).
  eapply Qcle_lt_trans; [apply jsFloor_le | done].
Qed.

Lemma jsFloor_nonneg (x : Qc) : 0 ≤ x → (0 ≤ jsFloor x)%Z.
Proof. intros H. rewrite <-(jsFloor_of_Z 0), Qc_of_Z_0. by apply jsFloor_mono. Qed.

Lemma rndQ_range (r : rnd) : 0 ≤ rndQ r < 1.
Proof.
  unfold rndQ, Qcle, Qclt. simpl. rewrite !Qred_correct.
  unfold Qle, Qlt, rnd_den. simpl. destruct (rnd_num r); lia.
Qed.

Lemma random_index (r : rnd) (n : nat) :
  (0 < n)%nat → (Z.to_nat (jsFloor (rndQ r * Qc_of_nat n)) < n)%nat.
Proof.
  intros Hn. destruct (rndQ_range r) as [H0 H1].
  assert (Hpos : 0 < Qc_of_nat n).
  { unfold Qc_of_nat. rewrite <-Qc_of_Z_0. apply (proj1 (Qc_of_Z_lt _ _)). lia. }
  assert (Hlt : (jsFloor (rndQ r * Qc_of_nat n) < Z.of_nat n)%Z).
  { apply jsFloor_lt. fold (Qc_of_nat n).
    rewrite <-(Qcmult_1_l (Qc_of_nat n)) at 2. by apply Qcmult_lt_compat_r. }
  assert (Hge : (0 ≤ jsFloor (rndQ r * Qc_of_nat n))%Z).
  { apply jsFloor_nonneg. rewrite <-(Qcmult_0_l (Qc_of_nat n)).
    apply Qcmult_le_compat_r; [done | by apply Qclt_le_weak]. }
  lia.
Qed.

(** [Math.floor(n * share)] takes no more than its share of [n]. *)
Lemma budgetShare_le config (a : Z) (b : positive) :
  (0 ≤ a)%Z → (0 ≤ maxIterations config)%Z →
  (Z.pos b * budgetShare config (Q2Qc (a # b)) ≤ a * maxIterations config)%Z.
Proof.
  intros Ha Hn. unfold budgetShare.
  pose proof (jsFloor_le (Qc_of_Z (maxIterations config) * Q2Qc (a # b))) as H.
  revert H. generalize (jsFloor (Qc_of_Z (maxIterations config) * Q2Qc (a # b))).
  intros z. unfold Qcle. simpl. rewrite !Qred_correct.
  unfold Qle. simpl. nia.
Qed.

Lemma budgetShare_neg config (q : Qc) :
  0 ≤ q → (maxIterations config ≤ 0)%Z → (budgetShare config q ≤ 0)%Z.
Proof.
  intros Hq Hn. unfold budgetShare.
  rewrite <-(jsFloor_of_Z 0). apply jsFloor_mono. rewrite Qc_of_Z_0.
  rewrite <-(Qcmult_0_l q). apply Qcmult_le_compat_r; [|done].
  rewrite <-Qc_of_Z_0. by apply (proj1 (Qc_of_Z_le _ _)).
Qed.

(** ** The methods that only draw random numbers *)

Lemma swap_perm {A} (l : list A) i j : swap l i j ≡ₚ l.
Proof.
  unfold swap. destruct (l !! i) as [x|] eqn:Hi; [|done].
  destruct (l !! j) as [y|] eqn:Hj; [|done].
  destruct (decide (i = j)) as [->|Hne].
  - simplify_eq. rewrite list_insert_insert_eq. by rewrite list_insert_id.
  - apply Permutation_inj. split; [by rewrite !length_insert|].
    exists (λ k, if decide (k = i) then j else if decide (k = j) then i else k).
    split.
    + intros a b Hab. repeat case_decide; congruence.
    + intros k. repeat case_decide; subst.
      * rewrite list_lookup_insert_eq; [done|].
        rewrite length_insert. by eapply lookup_lt_Some.
      * rewrite list_lookup_insert_ne by done.
        rewrite list_lookup_insert_eq; [done|]. by eapply lookup_lt_Some.
      * by rewrite !list_lookup_insert_ne by done.
Qed.

Lemma ticks_shuffleLoop {A} w i (l : list A) :
  ticks (shuffleLoop w i l) (λ l', l' ≡ₚ l).
Proof.
  revert l. induction i as [|i IH]; intros l; simpl.
  - by apply ticks_ret.
  - eapply ticks_bind; [apply ticks_random|]. intros r _.
    eapply ticks_mono; [apply IH|]. intros l' ->. apply swap_perm.
Qed.

Lemma ticks_generateParameterSets w params density :
  ticks (generateParameterSets w params density)
    (λ sets, sets ≡ₚ enumerateSets params density).
Proof.
  unfold generateParameterSets, shuffleArray.
  generalize (enumerateSets params density). intros sets.
  apply ticks_shuffleLoop.
Qed.

Lemma ticks_generateRandomValue w param :
  ticks (generateRandomValue w param) (λ _, True).
Proof.
  unfold generateRandomValue. destruct (type param);
    try (eapply ticks_bind; [apply ticks_random|]; intros; by apply ticks_ret).
  by apply ticks_ret.
Qed.

Lemma ticks_randomGenes w params individual :
  ticks (randomGenes w params individual) (λ _, True).
Proof.
  revert individual. induction params as [|param rest IH]; intros; simpl.
  - by apply ticks_ret.
  - eapply ticks_bind; [apply ticks_generateRandomValue|]. intros; apply IH.
Qed.

Lemma ticks_fillPopulation w params n population :
  ticks (fillPopulation w params n population)
    (λ p, length p = (length population + n)%nat).
Proof.
  revert population. induction n as [|n IH]; intros; simpl.
  - apply ticks_ret. lia.
  - eapply ticks_bind; [apply ticks_randomGenes|]. intros g _.
    eapply ticks_mono; [apply IH|]. intros p ->. rewrite length_app. simpl. lia.
Qed.

Lemma ticks_pick w population :
  (0 < length population)%nat → ticks (pick w population) (λ _, True).
Proof.
  intros Hlen. unfold pick. eapply ticks_bind; [apply ticks_random|].
  intros r _. unfold element.
  destruct (lookup_lt_is_Some_2 population
              (Z.to_nat (jsFloor (rndQ r * Qc_of_nat (length population)))))
    as [x ->]; [by apply random_index|].
  by apply ticks_ret.
Qed.

Lemma ticks_selectParent w population :
  (0 < length population)%nat → ticks (selectParent w population) (λ _, True).
Proof.
  intros Hlen. unfold selectParent.
  eapply ticks_bind; [by apply ticks_pick|]. intros best _.
  eapply ticks_bind; [by apply ticks_pick|]. intros candidate _.
  eapply ticks_bind with (P := λ _, True); [by apply ticks_ret|]. intros best' _.
  eapply ticks_bind; [by apply ticks_pick|]. intros candidate' _.
  by apply ticks_ret.
Qed.

Lemma ticks_crossoverLoop w parent1 parent2 params offspring :
  ticks (crossoverLoop w parent1 parent2 params offspring) (λ _, True).
Proof.
  revert offspring. induction params as [|param rest IH]; intros; simpl.
  - by apply ticks_ret.
  - eapply ticks_bind; [apply ticks_random|]. intros; apply IH.
Qed.

Lemma ticks_mutate w individual params :
  ticks (mutate w individual params) (λ _, True).
Proof.
  revert individual. induction params as [|param rest IH]; intros; simpl.
  - by apply ticks_ret.
  - eapply ticks_bind; [apply ticks_random|]. intros r _.
    destruct (decide _); [|apply IH].
    eapply ticks_bind; [apply ticks_generateRandomValue|]. intros; apply IH.
Qed.

Lemma ticks_breed w population params :
  (0 < length population)%nat → ticks (breed w population params) (λ _, True).
Proof.
  intros Hlen. unfold breed, crossover.
  eapply ticks_bind; [by apply ticks_selectParent|]. intros parent1 _.
  eapply ticks_bind; [by apply ticks_selectParent|]. intros parent2 _.
  eapply ticks_bind; [apply ticks_crossoverLoop|]. intros offspring _.
  eapply ticks_bind; [apply ticks_random|]. intros r _.
  eapply ticks_bind with (P := λ _, True).
  - destruct (decide _); [apply ticks_mutate | by apply ticks_ret].
  - intros; by apply ticks_ret.
Qed.

Lemma ticks_offspringLoop w population params n newPopulation :
  (0 < length population)%nat →
  ticks (offspringLoop w population params n newPopulation)
    (λ p, length p = (length newPopulation + n)%nat).
Proof.
  intros Hlen. revert newPopulation. induction n as [|n IH]; intros; simpl.
  - apply ticks_ret. lia.
  - eapply ticks_bind; [by apply ticks_breed|]. intros child _.
    eapply ticks_mono; [apply IH|]. intros p ->. rewrite length_app. simpl. lia.
Qed.

Lemma sortDesc_length {A} (key : A → Qc) (l : list A) :
  length (sortDesc key l) = length l.
Proof. by rewrite sortDesc_perm. Qed.

Lemma ticks_evolvePopulation w population params :
  (0 < length population)%nat →
  ticks (evolvePopulation w population params)
    (λ p, length p = length population).
Proof.
  intros Hlen. unfold evolvePopulation.
  eapply ticks_mono; [apply ticks_offspringLoop; by rewrite sortDesc_length|].
  intros p ->. rewrite !length_take, sortDesc_length. lia.
Qed.

(** ** The evaluation loops *)

Lemma spec_ret_eq {A} (a : A) s : spec (ret a) s 0 (λ a' s', a' = a ∧ s' = s).
Proof. by apply spec_ret. Qed.

Lemma spec_element {A} (l : list A) i s :
  (i < length l)%nat → spec (element l i) s 0 (λ x s', l !! i = Some x ∧ s' = s).
Proof.
  intros Hi. destruct (lookup_lt_is_Some_2 l i Hi) as [x Hx].
  unfold element. rewrite Hx. by apply spec_ret.
Qed.

Lemma spec_ticks {A} (m : M A) (P : A → Prop) s :
  ticks m P →
  spec m s 0 (λ a s', P a ∧ results s' = results s
                      ∧ isOptimizing s' = isOptimizing s
                      ∧ bestResult s' = bestResult s).
Proof.
  intros Hm. eapply spec_mono; [by apply ticks_spec | done |].
  intros a s' _ [Ha [n ->]]. done.
Qed.

Tactic Notation "spec_seq" constr(n) constr(k) tactic(tac) :=
  eapply (spec_bind _ _ _ n k); [tac|]; simpl.

Lemma spec_gridLoop w sets total n i s :
  length (results s) = i → (n + i ≤ length sets)%nat →
  spec (gridLoop w sets total n i) s n (λ _ _, True).
Proof.
  revert i s. induction n as [|n IH]; intros i s Hi Hlen; simpl.
  { by apply spec_ret. }
  eapply (spec_bind _ _ _ 0 (S n)); [apply spec_get|].
  intros ? ? _ [-> ->]. destruct (isOptimizing s) eqn:Hopt; simpl.
  2:{ eapply spec_mono; [apply spec_ret_eq | lia | done]. }
  spec_seq 0%nat (S n) (apply spec_element; lia). intros p ? _ [_ ->].
  spec_seq 1%nat n (by apply spec_evaluate).
  intros r s1 _ (Hlen1 & _ & _ & Hjust).
  spec_seq 0%nat n (by apply spec_updateProgress). intros _ s2 Hw2 _.
  spec_seq 0%nat n (apply spec_delay). intros _ s3 Hw3 _.
  apply IH; [|lia].
  apply within_0_length in Hw2, Hw3. lia.
Qed.

Lemma spec_fineLoop w sets config n i s :
  (n + i ≤ length sets)%nat →
  spec (fineLoop w sets config n i) s n (λ _ _, True).
Proof.
  revert i s. induction n as [|n IH]; intros i s Hlen; simpl.
  { by apply spec_ret. }
  eapply (spec_bind _ _ _ 0 (S n)); [apply spec_get|].
  intros ? ? _ [-> ->]. destruct (isOptimizing s) eqn:Hopt; simpl.
  2:{ eapply spec_mono; [apply spec_ret_eq | lia | done]. }
  spec_seq 0%nat (S n) (apply spec_element; lia). intros p ? _ [_ ->].
  spec_seq 1%nat n (by apply spec_evaluate). intros r s1 _ (_ & _ & _ & Hjust).
  spec_seq 0%nat n (apply spec_get). intros ? ? _ [-> ->].
  spec_seq 0%nat n (by apply spec_updateProgress). intros _ s2 _ _.
  spec_seq 0%nat n (apply spec_delay). intros _ s3 _ _.
  apply IH. lia.
Qed.

Lemma spec_evaluatePopulation w n i population s :
  (n + i ≤ length population)%nat → is_Some (currentOptimization s) →
  spec (evaluatePopulation w n i population) s n
    (λ p _, length p = length population).
Proof.
  revert i population s. induction n as [|n IH]; intros i population s Hlen Hrun; simpl.
  { by apply spec_ret. }
  eapply (spec_bind _ _ _ 0 (S n)); [apply spec_get|].
  intros ? ? _ [-> ->]. destruct (isOptimizing s) eqn:Hopt; simpl.
  2:{ eapply spec_mono; [apply spec_ret_eq | lia | by intros ? ? _ [-> _]]. }
  eapply (spec_bind _ _ _ 0 (S n)); [apply spec_element; lia|].
  intros individual ? _ [_ ->]. destruct (noFitness individual).
  - spec_seq 1%nat n (by apply spec_evaluate).
    intros r s1 Hw1 (_ & _ & _ & Hjust).
    spec_seq 0%nat n (apply spec_reportRunProgress;
                      [by rewrite (steps_run _ _ (proj1 Hw1)) | done]).
    intros _ s2 Hw2 _.
    spec_seq 0%nat n (apply spec_delay). intros _ s3 Hw3 _.
    eapply spec_mono; [apply IH | done |].
    + rewrite length_insert. lia.
    + by rewrite (steps_run _ _ (proj1 Hw3)), (steps_run _ _ (proj1 Hw2)),
        (steps_run _ _ (proj1 Hw1)).
    + simpl. intros p s' _ ->. by rewrite length_insert.
  - eapply spec_mono; [apply IH; [lia|done] | lia | done].
Qed.

Lemma spec_generationLoop w params n population s :
  (0 < length population)%nat → is_Some (currentOptimization s) →
  spec (generationLoop w params n population) s (n * length population)
    (λ _ _, True).
Proof.
  revert population s. induction n as [|n IH]; intros population s Hlen Hrun; simpl.
  { by apply spec_ret. }
  spec_seq 0%nat (length population + n * length population)%nat (apply spec_get).
  intros ? ? _ [-> ->]. destruct (isOptimizing s) eqn:Hopt; simpl.
  2:{ eapply spec_mono; [apply spec_ret_eq | lia | done]. }
  spec_seq (length population) (n * length population)%nat
    (apply spec_evaluatePopulation; [lia|done]).
  intros p1 s1 Hw1 Hp1.
  spec_seq 0%nat (n * length population)%nat
    (apply spec_ticks; apply ticks_evolvePopulation; lia).
  intros p2 s2 Hw2 (Hp2 & _).
  replace (length population) with (length p2) by lia.
  apply IH; [lia|].
  by rewrite (steps_run _ _ (proj1 Hw2)), (steps_run _ _ (proj1 Hw1)).
Qed.

(** ** Genetic and local-search phases *)

Lemma sliceTo_nat {A} (l : list A) (count : nat) :
  sliceTo l (Z.of_nat count) = take count l.
Proof. unfold sliceTo. rewrite decide_True by lia. by rewrite Nat2Z.id. Qed.

Lemma sliceTo_length {A} (l : list A) (count : Z) :
  (0 ≤ count)%Z → (length (sliceTo l count) ≤ Z.to_nat count)%nat.
Proof.
  intros Hc. unfold sliceTo. rewrite decide_True by done.
  rewrite length_take. lia.
Qed.

Lemma spec_getTopResultsUpTo count s :
  spec (getTopResultsUpTo count) s 0
    (λ top s', s' = set_results (sortDesc score (results s)) s
               ∧ top = sliceTo (sortDesc score (results s)) count).
Proof.
  unfold spec, wp, getTopResultsUpTo. run_monad.
  split; [|done]. apply within_step.
  - apply step_sort. apply sortDesc_perm.
  - simpl. by rewrite sortDesc_perm.
Qed.

Lemma spec_initializePopulation w params size s :
  (0 ≤ size)%Z →
  spec (initializePopulation w params size) s 0
    (λ p _, length p = Z.to_nat size).
Proof.
  intros Hsize. unfold initializePopulation.
  spec_seq 0%nat 0%nat (apply spec_getTopResultsUpTo). intros top s1 _ [_ ->].
  eapply spec_mono; [apply spec_ticks, ticks_fillPopulation | done |].
  simpl. intros p s2 _ [-> _]. rewrite !length_fmap.
  pose proof (sliceTo_length (sortDesc score (results s)) (Z.min 5 size)).
  lia.
Qed.

Lemma spec_geneticOptimization w params iterations s :
  is_Some (currentOptimization s) →
  spec (geneticOptimization w params iterations) s (Z.to_nat iterations)
    (λ _ _, True).
Proof.
  intros Hrun. unfold geneticOptimization.
  set (populationSize := Z.min 20 (Z.max 10 (iterations / 5))).
  assert (Hsize : (10 ≤ populationSize ≤ 20)%Z) by (unfold populationSize; lia).
  eapply spec_mono with (n := (0 + Z.to_nat (iterations / populationSize)
                                   * Z.to_nat populationSize)%nat).
  - eapply spec_bind; [apply spec_initializePopulation; lia|].
    simpl. intros population s1 Hw1 Hlen. rewrite <-Hlen.
    apply spec_generationLoop; [lia|].
    by rewrite (steps_run _ _ (proj1 Hw1)).
  - pose proof (Z.mul_div_le iterations populationSize). nia.
  - done.
Qed.

Lemma evaluateNeighbor_unfold w neighbor ls s :
  anchored ls s →
  ∃ r, iteration r = length (results s) ∧
    evaluateNeighbor w neighbor ls s
    = Done (if decide (score (currentBest ls) < score r)
            then mkLocalSearch r true (ls_iteration ls + 1)
            else mkLocalSearch (currentBest ls) (improved ls) (ls_iteration ls + 1))
        (afterEvaluation r (w_stop w (S (tick s))) (S (S (S (S (tick s))))) s).
Proof.
  intros (best & Hbest & Hscore).
  destruct (w_backtest w (S (S (tick s))) neighbor) as [sc me] eqn:Hb.
  exists (mkResult (length (results s)) neighbor sc me (w_now w (S (S (S (tick s)))))).
  split; [done|].
  unfold evaluateNeighbor, testParameterSet, random, delay, simulate, now,
    pushResult, updateBestResult, recorded, afterEvaluation, better.
  run_monad. rewrite Hbest, Hscore.
  destruct (w_stop w (S (tick s))); run_monad; rewrite Hb; run_monad;
    (destruct (decide _); run_monad; rewrite ?Hbest, ?Hscore;
     [rewrite decide_True by done|]; run_monad);
    unfold set_trace, set_bestResult; simpl;
    rewrite ?Hbest, <-?app_assoc; reflexivity.
Qed.

Lemma spec_evaluateNeighbor w neighbor ls s :
  anchored ls s → isOptimizing s = true →
  spec (evaluateNeighbor w neighbor ls) s 1
    (λ ls' s', anchored ls' s'
               ∧ length (results s') = S (length (results s))
               ∧ ls_iteration ls' = (ls_iteration ls + 1)%Z
               ∧ justRecorded s').
Proof.
  intros Hanch Hopt.
  destruct (evaluateNeighbor_unfold w neighbor ls s Hanch) as (r & Hr & Heq).
  unfold spec, wp. rewrite Heq. split_and!;
    [| | | |apply justRecorded_afterEvaluation].
  - split; [|simpl; rewrite length_app; simpl; lia].
    apply rtc_once. by apply step_eval.
  - destruct Hanch as (best & Hbest & Hscore). unfold anchored. simpl.
    rewrite Hbest. unfold better. rewrite Hscore.
    destruct (decide _); simpl; eauto.
  - simpl. rewrite length_app. simpl. lia.
  - by destruct (decide _).
Qed.

(** Sequencing when the evaluations of the first part are counted by its
    postcondition rather than by a bound known beforehand. *)
Lemma spec_bind_dep {A B} (m : M A) (f : A → M B) s n t
    (Q : A → Optimizer → Prop) (R : B → Optimizer → Prop) :
  spec m s n Q → (n ≤ t)%nat →
  (∀ a s', within n s s' → Q a s' →
     ∃ k, spec (f a) s' k R
          ∧ (length (results s') + k ≤ length (results s) + t)%nat) →
  spec (m ≫= f) s t R.
Proof.
  intros Hm Hle Hf. apply wp_bind. eapply wp_mono; [exact Hm|..].
  - intros a s' [Hw HQ]. destruct (Hf a s' Hw HQ) as (k & Hk & Hlen).
    eapply wp_mono; [exact Hk|..].
    + intros b s'' [[Hs' Hl'] HR]. split; [|done].
      split; [by etrans; [apply Hw|]|lia].
    + intros e s'' (s0 & [Hs' Hl'] & Ht). exists s0. split; [|done].
      split; [by etrans; [apply Hw|]|lia].
  - intros e s' (s0 & Hw & Ht). exists s0. split; [|done].
    by eapply within_mono.
Qed.

Lemma moved_refl ls s : moved ls s ls s.
Proof. unfold moved. split_and!; [lia | lia | congruence]. Qed.

Lemma moved_trans ls s ls1 s1 ls2 s2 :
  moved ls s ls1 s1 → moved ls1 s1 ls2 s2 → moved ls s ls2 s2.
Proof.
  unfold moved. intros (H1 & H2 & H3) (H4 & H5 & H6).
  split_and!; [lia | lia |]. intros Hf Ht.
  destruct (improved ls1) eqn:E; [specialize (H3 Hf eq_refl) | specialize (H6 eq_refl Ht)]; lia.
Qed.

Lemma within_0_best s s' : within 0 s s' → bestResult s' = bestResult s.
Proof.
  intros [Hsteps Hlen].
  assert (Hlen' : (length (results s') ≤ length (results s))%nat) by lia.
  clear Hlen. induction Hsteps as [|s1 s2 s3 Hstep Hrest IH]; [done|].
  pose proof (steps_results_length _ _ Hrest) as Hmono.
  destruct Hstep; simpl in *; try (by apply IH).
  - apply IH. by rewrite H.
  - rewrite length_app in Hmono. simpl in Hmono. lia.
Qed.

Lemma anchored_within_0 ls s s' : within 0 s s' → anchored ls s → anchored ls s'.
Proof. intros Hw. unfold anchored. by rewrite (within_0_best _ _ Hw). Qed.

Lemma moved_within_0 ls s s' : within 0 s s' → moved ls s ls s'.
Proof.
  intros Hw. apply within_0_length in Hw.
  unfold moved. split_and!; [lia | lia | congruence].
Qed.

Lemma spec_neighborLoop w iterations neighbors ls s :
  anchored ls s → is_Some (currentOptimization s) →
  spec (neighborLoop w iterations neighbors ls) s (remaining iterations ls)
    (λ ls' s', anchored ls' s' ∧ moved ls s ls' s').
Proof.
  revert ls s. induction neighbors as [|neighbor rest IH];
    intros ls s Hanch Hrun; simpl.
  { eapply spec_mono; [apply spec_ret_eq | lia |].
    intros ? ? _ [-> ->]. split; [done | apply moved_refl]. }
  spec_seq 0%nat (remaining iterations ls) (apply spec_get).
  intros ? ? _ [-> ->].
  destruct (isOptimizing s) eqn:Hopt; simpl.
  2:{ eapply spec_mono; [apply spec_ret_eq | lia |].
      intros ? ? _ [-> ->]. split; [done | apply moved_refl]. }
  case_bool_decide as Hit.
  { eapply spec_mono; [apply spec_ret_eq | lia |].
    intros ? ? _ [-> ->]. split; [done | apply moved_refl]. }
  eapply spec_bind_dep; [by apply spec_evaluateNeighbor | unfold remaining; lia |].
  intros ls1 s1 Hw1 (Hanch1 & Hlen1 & Hit1 & Hjust).
  exists (remaining iterations ls1). split; [|unfold remaining; lia].
  assert (Hrun1 : is_Some (currentOptimization s1)).
  { by rewrite (steps_run _ _ (proj1 Hw1)). }
  spec_seq 0%nat (remaining iterations ls1) (by apply spec_reportRunProgress).
  intros _ s2 Hw2 _.
  spec_seq 0%nat (remaining iterations ls1) (apply spec_delay).
  intros _ s3 Hw3 _.
  assert (Hw13 : within 0 s1 s3) by apply (within_trans 0 0 _ _ _ Hw2 Hw3).
  eapply spec_mono; [apply IH | done |].
  - by eapply anchored_within_0.
  - by rewrite (steps_run _ _ (proj1 Hw13)).
  - simpl. intros ls' s' _ [Hanch' Hmoved]. split; [done|].
    eapply moved_trans; [|exact Hmoved].
    eapply moved_trans; [|by apply moved_within_0].
    unfold moved. split_and!; lia.
Qed.

Lemma spec_parameterLoop w iterations params ls s :
  anchored ls s → is_Some (currentOptimization s) →
  spec (parameterLoop w iterations params ls) s (remaining iterations ls)
    (λ ls' s', anchored ls' s' ∧ moved ls s ls' s').
Proof.
  revert ls s. induction params as [|param rest IH];
    intros ls s Hanch Hrun; simpl.
  { eapply spec_mono; [apply spec_ret_eq | lia |].
    intros ? ? _ [-> ->]. split; [done | apply moved_refl]. }
  spec_seq 0%nat (remaining iterations ls) (apply spec_get).
  intros ? ? _ [-> ->].
  destruct (isOptimizing s) eqn:Hopt; simpl.
  2:{ eapply spec_mono; [apply spec_ret_eq | lia |].
      intros ? ? _ [-> ->]. split; [done | apply moved_refl]. }
  case_bool_decide as Hit.
  { eapply spec_mono; [apply spec_ret_eq | lia |].
    intros ? ? _ [-> ->]. split; [done | apply moved_refl]. }
  eapply spec_bind_dep; [by apply spec_neighborLoop | done |].
  intros ls1 s1 Hw1 (Hanch1 & Hmoved1).
  exists (remaining iterations ls1). split.
  - eapply spec_mono; [apply IH | done |]; [done|..].
    + by rewrite (steps_run _ _ (proj1 Hw1)).
    + simpl. intros ls' s' _ [Hanch' Hmoved]. split; [done|].
      by eapply moved_trans.
  - destruct Hmoved1 as (H1 & H2 & _). destruct Hw1 as [_ Hl1].
    unfold remaining in *. lia.
Qed.

Lemma spec_searchLoop w fuel iterations params ls s :
  anchored ls s → is_Some (currentOptimization s) →
  (improved ls = true → (ls_iteration ls < iterations)%Z →
   (remaining iterations ls < fuel)%nat) →
  spec (searchLoop w fuel iterations params ls) s (remaining iterations ls)
    (λ _ _, True).
Proof.
  revert ls s. induction fuel as [|fuel IH]; intros ls s Hanch Hrun Hfuel.
  - simpl. spec_seq 0%nat (remaining iterations ls) (apply spec_get).
    intros ? ? _ [-> ->].
    destruct (improved ls) eqn:Himp; simpl.
    2:{ eapply spec_mono; [apply spec_ret_eq | lia | done]. }
    case_bool_decide as Hit; simpl.
    2:{ eapply spec_mono; [apply spec_ret_eq | lia | done]. }
    specialize (Hfuel eq_refl Hit). lia.
  - simpl. spec_seq 0%nat (remaining iterations ls) (apply spec_get).
    intros ? ? _ [-> ->].
    destruct (improved ls) eqn:Himp; simpl.
    2:{ eapply spec_mono; [apply spec_ret_eq | lia | done]. }
    case_bool_decide as Hit; simpl.
    2:{ eapply spec_mono; [apply spec_ret_eq | lia | done]. }
    destruct (isOptimizing s) eqn:Hopt; simpl.
    2:{ eapply spec_mono; [apply spec_ret_eq | lia | done]. }
    specialize (Hfuel eq_refl Hit).
    eapply spec_bind_dep.
    { apply (spec_parameterLoop w iterations params
               (mkLocalSearch (currentBest ls) false (ls_iteration ls)) s);
        [exact Hanch | exact Hrun]. }
    { done. }
    intros ls1 s1 Hw1 (Hanch1 & H1 & H2 & H3). simpl in H1, H2, H3.
    exists (remaining iterations ls1). split.
    + apply IH; [done | by rewrite (steps_run _ _ (proj1 Hw1)) |].
      intros Himp1 Hit1. specialize (H3 eq_refl Himp1).
      unfold remaining in *. lia.
    + destruct Hw1 as [_ Hl1]. unfold remaining in *. simpl in *. lia.
Qed.

Lemma spec_localSearchOptimization w params iterations s :
  is_Some (bestResult s) → is_Some (currentOptimization s) →
  spec (localSearchOptimization w params iterations) s (Z.to_nat iterations)
    (λ _ _, True).
Proof.
  intros [best Hbest] Hrun. unfold localSearchOptimization.
  eapply (spec_bind _ _ _ 0 (Z.to_nat iterations)); [apply spec_get|].
  intros ? ? _ [-> ->]. cbv beta. rewrite Hbest.
  eapply spec_mono; [apply spec_searchLoop | |done]; try done.
  - by exists best.
  - unfold remaining, searchFuel. simpl. lia.
  - unfold remaining. simpl. lia.
Qed.

(** ** Result compilation *)

Lemma compileResults_unfold w s :
  is_Some (currentOptimization s) →
  (results s ≠ [] → is_Some (bestResult s)) →
  ∃ c, compileResults w s = Done c (afterCompile s)
       ∧ success c = true
       ∧ totalTests c = length (results s)
       ∧ cp_bestResult c = bestResult s
       ∧ topResults c = take 10 (sortDesc score (results s))
       ∧ sm_bestScore (summary c) = bestScoreOr0 s
       ∧ averageScore (summary c)
         = jsDiv (sumScores (sortDesc score (results s)))
             (Qc_of_nat (length (sortDesc score (results s))))
       ∧ improvement (summary c)
         = improvementFrom (sortDesc score (results s)) (bestResult s)
       ∧ sm_parameters (summary c) = from_option parameters ∅ (bestResult s).
Proof.
  intros [run Hrun] Hbest.
  unfold compileResults, now, getTopResults, calculateImprovement, afterCompile.
  run_monad. rewrite Hrun. run_monad.
  unfold set_results, set_tick, set_trace, bestScoreOr0. simpl. rewrite ?Hrun.
  destruct (sortDesc score (results s)) as [|first [|second rest]] eqn:Hsort;
    simpl.
  - eexists. split; [reflexivity|]. simpl. by rewrite ?Hsort.
  - eexists. split; [reflexivity|]. simpl. rewrite ?Hsort. by split_and!.
  - destruct Hbest as [best Hb].
    { intros Hr. by rewrite Hr in Hsort. }
    rewrite Hb. eexists. split; [reflexivity|]. simpl. by rewrite ?Hsort, ?Hb.
Qed.

(** ** The three profiles *)

Lemma bestOf_is_Some log : log ≠ [] → is_Some (bestOf log).
Proof.
  destruct log as [|r log _] using rev_ind; [done|]. intros _.
  rewrite bestOf_snoc. unfold better.
  destruct (bestOf log); [destruct (decide _)|]; eauto.
Qed.

Lemma Inv_best_is_Some s : Inv s → results s ≠ [] → is_Some (bestResult s).
Proof.
  intros HI Hne. rewrite (inv_best _ HI). apply bestOf_is_Some.
  intros Hnil. apply Hne. apply Permutation_nil_r.
  by rewrite <-Hnil, <-(inv_log _ HI).
Qed.

Lemma finishes_compile w s : Inv s → finishes w 0 s (compileResults w).
Proof.
  intros HI. unfold finishes, wp.
  destruct (compileResults_unfold w s) as (c & Hc & _);
    [apply (inv_run _ HI) | by apply Inv_best_is_Some |].
  rewrite Hc. exists s. split; [apply within_refl | done].
Qed.

Lemma finishes_bind_dep {A} w (m : M A) (f : A → M Compiled) s n t
    (Q : A → Optimizer → Prop) :
  spec m s n Q → (n ≤ t)%nat →
  (∀ a s', within n s s' → Q a s' →
     ∃ k, finishes w k s' (f a)
          ∧ (length (results s') + k ≤ length (results s) + t)%nat) →
  finishes w t s (m ≫= f).
Proof.
  intros Hm Hle Hf. apply wp_bind. eapply wp_mono; [exact Hm|..].
  - intros a s' [Hw HQ]. destruct (Hf a s' Hw HQ) as (k & Hk & Hlen).
    eapply wp_mono; [exact Hk|..].
    + intros c s'' (s1 & [Hs' Hl'] & Hc). exists s1. split; [|done].
      split; [by etrans; [apply Hw|]|lia].
    + intros e s'' (s0 & [Hs' Hl'] & Ht). exists s0. split; [|done].
      split; [by etrans; [apply Hw|]|lia].
  - intros e s' (s0 & Hw & Ht). exists s0. split; [|done].
    by eapply within_mono.
Qed.

Lemma finishes_bind {A} w (m : M A) (f : A → M Compiled) s n k
    (Q : A → Optimizer → Prop) :
  spec m s n Q →
  (∀ a s', within n s s' → Q a s' → finishes w k s' (f a)) →
  finishes w (n + k) s (m ≫= f).
Proof.
  intros Hm Hf. eapply finishes_bind_dep; [exact Hm | lia |].
  intros a s' Hw HQ. exists k. split; [by apply Hf|].
  destruct Hw as [_ Hl]. lia.
Qed.

Lemma finishes_mono w n k s m : finishes w n s m → (n ≤ k)%nat → finishes w k s m.
Proof.
  intros Hm Hle. eapply wp_mono; [exact Hm|..].
  - intros c s' (s1 & Hw & Hc). exists s1. split; [by eapply within_mono | done].
  - intros e s' (s0 & Hw & Ht). exists s0. split; [by eapply within_mono | done].
Qed.

Lemma spec_generateParameterSets w params density s :
  spec (generateParameterSets w params density) s 0
    (λ sets s', results s' = results s).
Proof.
  eapply spec_mono;
    [apply spec_ticks, ticks_generateParameterSets | done |].
  by intros sets s' _ (_ & ? & _).
Qed.

Lemma finishes_basicOptimization w params config s :
  Inv s → results s = [] →
  finishes w (Z.to_nat (maxIterations config)) s
    (basicOptimization w params config).
Proof.
  intros HI Hnil. unfold basicOptimization.
  eapply finishes_bind_dep; [apply spec_generateParameterSets | lia |].
  intros sets s1 Hw1 Hr1.
  set (maxSets := Z.min (Z.of_nat (length sets)) (maxIterations config)).
  exists (Z.to_nat maxSets + 0)%nat. split; [|rewrite Hr1; unfold maxSets; lia].
  eapply finishes_bind.
  - apply spec_gridLoop; [by rewrite Hr1, Hnil | unfold maxSets; lia].
  - intros _ s2 Hw2 _. apply finishes_compile.
    eapply Inv_steps; [|apply Hw2]. eapply Inv_steps; [exact HI|apply Hw1].
Qed.

(** The second phase of [standardOptimization]. *)
Lemma spec_refinement w params config s :
  spec (if isOptimizing s && bool_decide (0 < length (results s))%nat then
          topResults ← getTopResults 5;
          let fineParameterSets := generateFineParameterSets topResults params in
          s' ← get;
          let remainingIterations :=
            (maxIterations config - Z.of_nat (length (results s')))%Z in
          let maxSets :=
            Z.min (Z.of_nat (length fineParameterSets)) remainingIterations in
          fineLoop w fineParameterSets config (Z.to_nat maxSets) 0
        else ret tt) s
    (Z.to_nat (maxIterations config - Z.of_nat (length (results s))))
    (λ _ _, True).
Proof.
  destruct (isOptimizing s && _).
  2:{ eapply spec_mono; [apply spec_ret_eq | lia | done]. }
  eapply spec_bind_dep; [apply spec_getTopResults | lia |].
  intros top s1 Hw1 [-> ->]. simpl. rewrite sortDesc_length.
  set (fine := generateFineParameterSets _ _).
  set (n := Z.to_nat (Z.min (Z.of_nat (length fine))
                        (maxIterations config - Z.of_nat (length (results s))))).
  exists n. split; [|lia].
  eapply (spec_bind _ _ _ 0 n); [apply spec_get|].
  intros ? ? _ [-> ->]. simpl. rewrite sortDesc_length. fold n.
  apply spec_fineLoop. lia.
Qed.

Lemma finishes_standardOptimization w params config s :
  Inv s → results s = [] →
  finishes w (Z.to_nat (maxIterations config)) s
    (standardOptimization w params config).
Proof.
  intros HI Hnil. unfold standardOptimization.
  eapply finishes_bind_dep; [apply spec_generateParameterSets | lia |].
  intros sets s1 Hw1 Hr1.
  set (share := budgetShare config (Q2Qc (6 # 10))).
  set (maxSets := Z.min (Z.of_nat (length sets)) share).
  assert (Hshare : (share ≤ Z.max 0 (maxIterations config))%Z).
  { destruct (decide (0 ≤ maxIterations config)%Z) as [Hpos|Hneg].
    - pose proof (budgetShare_le config 6 10 ltac:(lia) Hpos). fold share in H. lia.
    - pose proof (budgetShare_neg config (Q2Qc (6 # 10)) ltac:(done) ltac:(lia)).
      fold share in H. lia. }
  exists (Z.to_nat (maxIterations config)). split; [|rewrite Hr1; lia].
  eapply finishes_bind_dep.
  { apply (spec_gridLoop w sets _ (Z.to_nat maxSets) 0 s1);
      [by rewrite Hr1, Hnil | unfold maxSets; lia]. }
  { unfold maxSets. lia. }
  intros _ s2 Hw2 _.
  exists (Z.to_nat (maxIterations config - Z.of_nat (length (results s2)))).
  split.
  2:{ destruct Hw2 as [_ Hl2]. rewrite Hr1, Hnil in *. simpl in *. lia. }
  eapply (finishes_bind _ _ _ _ 0); [apply spec_get|].
  intros ? ? _ [-> ->].
  eapply finishes_mono; [|apply Nat.eq_le_incl, Nat.add_0_r].
  eapply finishes_bind; [apply spec_refinement|].
  intros _ s3 Hw3 _. apply finishes_compile.
  eapply Inv_steps; [|apply Hw3]. eapply Inv_steps; [|apply Hw2].
  eapply Inv_steps; [exact HI|apply Hw1].
Qed.

Lemma budgetShares_le config :
  (Z.to_nat (budgetShare config (Q2Qc (3 # 10)))
   + Z.to_nat (budgetShare config (Q2Qc (4 # 10)))
   ≤ Z.to_nat (maxIterations config))%nat.
Proof.
  destruct (decide (0 ≤ maxIterations config)%Z) as [Hpos|Hneg].
  - pose proof (budgetShare_le config 3 10 ltac:(lia) Hpos).
    pose proof (budgetShare_le config 4 10 ltac:(lia) Hpos). lia.
  - pose proof (budgetShare_neg config (Q2Qc (3 # 10)) ltac:(done) ltac:(lia)).
    pose proof (budgetShare_neg config (Q2Qc (4 # 10)) ltac:(done) ltac:(lia)).
    lia.
Qed.

Lemma finishes_deepOptimization w params config s :
  Inv s → results s = [] →
  finishes w (Z.to_nat (maxIterations config)) s
    (deepOptimization w params config).
Proof.
  intros HI Hnil. unfold deepOptimization.
  pose proof (budgetShares_le config) as Hshares.
  set (N := Z.to_nat (maxIterations config)) in *.
  set (share3 := budgetShare config (Q2Qc (3 # 10))) in *.
  set (share4 := budgetShare config (Q2Qc (4 # 10))) in *.
  eapply finishes_bind_dep; [apply spec_generateParameterSets | lia |].
  intros sets s1 Hw1 Hr1. simpl in Hr1.
  assert (HI1 : Inv s1) by (eapply Inv_steps; [exact HI|apply Hw1]).
  set (maxSets := Z.min (Z.of_nat (length sets)) share3).
  exists N. split; [|rewrite Hr1; lia].
  eapply finishes_bind_dep.
  { apply (spec_gridLoop w sets _ (Z.to_nat maxSets) 0 s1);
      [by rewrite Hr1, Hnil | unfold maxSets; lia]. }
  { unfold maxSets. lia. }
  intros _ s2 Hw2 _.
  assert (HI2 : Inv s2) by (eapply Inv_steps; [exact HI1|apply Hw2]).
  assert (Hl2 : (length (results s2) ≤ Z.to_nat share3)%nat).
  { destruct Hw2 as [_ Hl2]. rewrite Hr1, Hnil in Hl2. simpl in Hl2.
    unfold maxSets in Hl2. lia. }
  exists (N - length (results s2))%nat. split; [|rewrite Hr1, Hnil; simpl; lia].
  eapply (finishes_bind_dep _ _ _ _ 0); [apply spec_get | lia |].
  intros ? ? _ [-> ->].
  exists (N - length (results s2))%nat. split; [|lia].
  eapply finishes_bind_dep with (n := Z.to_nat share4)
                                (Q := λ (_ : ()) (_ : Optimizer), True).
  { destruct (isOptimizing s2 && _).
    - apply spec_geneticOptimization. apply (inv_run _ HI2).
    - eapply spec_mono; [apply spec_ret_eq | lia | done]. }
  { lia. }
  intros _ s3 Hw3 _.
  assert (HI3 : Inv s3) by (eapply Inv_steps; [exact HI2|apply Hw3]).
  exists (N - length (results s3))%nat. split.
  2:{ destruct Hw3 as [_ Hl3]. lia. }
  eapply (finishes_bind_dep _ _ _ _ 0); [apply spec_get | lia |].
  intros ? ? _ [-> ->].
  exists (N - length (results s3))%nat. split; [|lia].
  eapply finishes_bind_dep
    with (n := Z.to_nat (maxIterations config - Z.of_nat (length (results s3))))
         (Q := λ (_ : ()) (_ : Optimizer), True).
  { destruct (isOptimizing s3); simpl.
    2:{ eapply spec_mono; [apply spec_ret_eq | lia | done]. }
    case_bool_decide as Hb.
    - apply spec_localSearchOptimization; [done | apply (inv_run _ HI3)].
    - eapply spec_mono; [apply spec_ret_eq | lia | done]. }
  { destruct Hw3 as [_ Hl3]. unfold N. lia. }
  intros _ s4 Hw4 _. exists 0%nat. split.
  - apply finishes_compile. eapply Inv_steps; [exact HI3|apply Hw4].
  - destruct Hw3 as [_ Hl3]. destruct Hw4 as [_ Hl4]. unfold N in *. lia.
Qed.

Lemma optimize_unfold w params settings s :
  isOptimizing s = false →
  optimize w params settings s
  = match profile w params (makeConfig settings)
            (startOfRun (runConfig w params settings s) (progressCallback s)
               (S (tick s))) with
    | Done c s' => Done c (set_isOptimizing false s')
    | Thrown e s' => Thrown e (set_isOptimizing false s')
    | OutOfFuel => OutOfFuel
    end.
Proof.
  intros Hidle. unfold optimize, runConfig, profile.
  generalize (makeConfig settings). intros config.
  unfold tryCatch, now, startOfRun. run_monad. rewrite Hidle. run_monad.
  unfold set_currentOptimization. simpl.
  by destruct (if decide (optimizationDepth config = "basic"%string)
               then _ else _).
Qed.

Lemma finishes_profile w params config s :
  Inv s → results s = [] →
  finishes w (Z.to_nat (maxIterations config)) s (profile w params config).
Proof.
  intros HI Hnil. unfold profile. repeat case_decide.
  - by apply finishes_basicOptimization.
  - by apply finishes_deepOptimization.
  - by apply finishes_standardOptimization.
Qed.

(** The anatomy of every call of [optimize] on an idle optimizer. *)
Lemma optimize_run w params settings s :
  isOptimizing s = false →
  let start := startOfRun (runConfig w params settings s) (progressCallback s)
                 (S (tick s)) in
  let budget := Z.to_nat (maxIterations (makeConfig settings)) in
  match optimize w params settings s with
  | Done c s' =>
      ∃ s1, within budget start s1 ∧ Inv s1
            ∧ compileResults w s1 = Done c (afterCompile s1)
            ∧ s' = set_isOptimizing false (afterCompile s1)
  | Thrown e s' =>
      ∃ s1 s2, within budget start s1 ∧ Inv s1 ∧ throwsAt e s1 s2
               ∧ s' = set_isOptimizing false s2
  | OutOfFuel => False
  end.
Proof.
  intros Hidle start budget. rewrite optimize_unfold by done. fold start.
  pose proof (finishes_profile w params (makeConfig settings) start
                (Inv_start _ _ _) eq_refl) as Hfin.
  unfold finishes, wp in Hfin. fold budget in Hfin.
  destruct (profile _ _ _ _) as [c s'|e s'|].
  - destruct Hfin as (s1 & Hw & Hc & ->). exists s1. split_and!; try done.
    eapply Inv_steps; [apply Inv_start | apply Hw].
  - destruct Hfin as (s1 & Hw & Ht). exists s1, s'. split_and!; try done.
    eapply Inv_steps; [apply Inv_start | apply Hw].
  - done.
Qed.

(** ** Budget and termination *)

(** C4.  Every call of [optimize] on an idle optimizer ends (the model never
    runs out of fuel), whatever the profile, and at its end the log holds at
    most [config.maxIterations] results, for a budget that is not negative. *)
Theorem budget_respected w params settings s :
  isOptimizing s = false →
  (0 ≤ maxIterations (makeConfig settings))%Z →
  ∃ s', finalState (optimize w params settings s) = Some s'
        ∧ (Z.of_nat (length (results s'))
           ≤ maxIterations (makeConfig settings))%Z.
Proof.
  intros Hidle Hbudget.
  pose proof (optimize_run w params settings s Hidle) as Hrun. simpl in Hrun.
  destruct (optimize w params settings s) as [c s'|e s'|]; [| |done].
  - destruct Hrun as (s1 & [_ Hlen] & _ & _ & ->).
    eexists. split; [done|]. simpl in *. rewrite sortDesc_length. lia.
  - destruct Hrun as (s1 & s2 & [_ Hlen] & _ & (cb & p & _ & _ & _ & _ & ->) & ->).
    eexists. split; [done|]. simpl in *. lia.
Qed.

Lemma budget_respected_witness :
  ∃ s', finalState (optimize demoWorld [lengthParam] basicSettings newOptimizer)
        = Some s'
        ∧ (Z.of_nat (length (results s')) ≤ 20)%Z.
Proof.
  apply (budget_respected demoWorld [lengthParam] basicSettings newOptimizer).
  - reflexivity.
  - vm_compute. discriminate.
Defined.

(** ** The best pointer *)

Lemma bestOf_nil_inv log : bestOf log = None → log = [].
Proof.
  intros H. destruct log as [|r log]; [done|].
  destruct (bestOf_is_Some (r :: log)) as [b Hb]; [done|]. congruence.
Qed.

Lemma bestOf_earliestMax log best :
  bestOf log = Some best → earliestMax log best.
Proof.
  revert best. induction log as [|r log IH] using rev_ind; intros best; [done|].
  rewrite bestOf_snoc. destruct (bestOf log) as [b|] eqn:Hb; simpl.
  - destruct (IH b eq_refl) as (j & Hj & Hmax & Hearly).
    destruct (decide (score b < score r)) as [Hlt|Hge]; intros [= <-].
    + exists (length log). split_and!.
      * by rewrite lookup_app_r, Nat.sub_diag.
      * intros i x [Hx|[_ Hx]]%lookup_app_Some.
        -- apply Qclt_le_weak. eapply Qcle_lt_trans; [by eapply Hmax | done].
        -- destruct (i - length log)%nat; simplify_eq/=. apply Qcle_refl.
      * intros i x Hi [Hx|[? _]]%lookup_app_Some; [|lia].
        eapply Qcle_lt_trans; [by eapply Hmax | done].
    + exists j. split_and!.
      * by apply lookup_app_l_Some.
      * intros i x [Hx|[_ Hx]]%lookup_app_Some; [by eapply Hmax|].
        destruct (i - length log)%nat; simplify_eq/=. by apply Qcnot_lt_le.
      * intros i x Hi [Hx|[Hge' _]]%lookup_app_Some; [by eapply Hearly|].
        apply lookup_lt_Some in Hj. lia.
  - apply bestOf_nil_inv in Hb as ->. intros [= <-].
    exists 0%nat. split_and!; [done| |lia].
    intros [|i] x; simpl; [|done]. intros [= <-]. apply Qcle_refl.
Qed.

Lemma history_log tr k r b :
  history tr !! k = Some (r, b) → completionLog tr !! k = Some r.
Proof. intros H. unfold completionLog. by rewrite list_lookup_fmap, H. Qed.

Lemma Inv_bestTracked s : Inv s → bestTracked (trace s).
Proof.
  intros HI. unfold bestTracked. split_and!.
  - apply (inv_iter _ HI).
  - intros k r b Hk. split; [by eapply history_log|].
    pose proof (inv_snap _ HI k r b Hk) as Hb.
    destruct (bestOf_is_Some (take (S k) (completionLog (trace s)))) as [best Hbest].
    { apply history_log in Hk. by destruct (completionLog (trace s)). }
    exists best. split; [congruence|]. by apply bestOf_earliestMax.
  - intros k r1 b1 r2 b2 H1 H2.
    pose proof (inv_snap _ HI _ _ _ H1) as Hb1.
    pose proof (inv_snap _ HI _ _ _ H2) as Hb2.
    apply history_log in H2.
    rewrite (take_S_r _ _ _ H2), bestOf_snoc, <-Hb1 in Hb2. simpl in Hb2.
    destruct (decide (score b1 < score r2)) as [Hlt|Hge]; injection Hb2 as ->.
    + split; [by apply Qclt_le_weak | by right].
    + split; [apply Qcle_refl | by left].
Qed.

Lemma bestTracked_history tr tr' :
  history tr' = history tr → bestTracked tr → bestTracked tr'.
Proof. unfold bestTracked, completionLog. by intros ->. Qed.

(** C3.  In every run the best pointer, read each time an evaluation has been
    recorded, is the earliest result of the largest score among those
    recorded so far (in completion order, which is the order of the
    [iteration] numbers); from one recorded evaluation to the next its score
    never decreases, and it moves only to a new result that scores strictly
    more.  At the end of the call the pointer is the best of the whole log. *)
Theorem best_is_earliest_maximum w params settings s :
  isOptimizing s = false →
  ∃ s', finalState (optimize w params settings s) = Some s'
        ∧ results s' ≡ₚ completionLog (trace s')
        ∧ bestResult s' = bestOf (completionLog (trace s'))
        ∧ bestTracked (trace s').
Proof.
  intros Hidle.
  pose proof (optimize_run w params settings s Hidle) as Hrun. simpl in Hrun.
  destruct (optimize w params settings s) as [c s'|e s'|]; [| |done].
  - destruct Hrun as (s1 & _ & HI & _ & ->).
    eexists. split; [done|].
    assert (Hh : history (trace s1 ++ [EvCompiled]) = history (trace s1)).
    { rewrite history_app. apply app_nil_r. }
    unfold completionLog. simpl. rewrite Hh. split_and!.
    + rewrite sortDesc_perm. apply (inv_log _ HI).
    + apply (inv_best _ HI).
    + eapply bestTracked_history; [exact Hh | by apply Inv_bestTracked].
  - destruct Hrun as (s1 & s2 & _ & HI & (cb & p & _ & _ & _ & _ & ->) & ->).
    eexists. split; [done|].
    assert (Hh : history (trace s1 ++ [EvReport p (CbThrow e)])
                 = history (trace s1)).
    { rewrite history_app. apply app_nil_r. }
    unfold completionLog. simpl. rewrite Hh. split_and!.
    + apply (inv_log _ HI).
    + apply (inv_best _ HI).
    + eapply bestTracked_history; [exact Hh | by apply Inv_bestTracked].
Qed.

Lemma best_is_earliest_maximum_witness :
  ∃ s', finalState (optimize demoWorld [lengthParam] basicSettings newOptimizer)
        = Some s'
        ∧ results s' ≡ₚ completionLog (trace s')
        ∧ bestResult s' = bestOf (completionLog (trace s'))
        ∧ bestTracked (trace s').
Proof.
  apply (best_is_earliest_maximum demoWorld [lengthParam] basicSettings
           newOptimizer).
  reflexivity.
Defined.

(** ** Cancellation *)

Lemma recorded_in_log tr r b : EvRecorded r b ∈ tr → r ∈ completionLog tr.
Proof.
  intros Hin. unfold completionLog, history.
  apply list_elem_of_fmap. exists (r, b). split; [done|].
  apply list_elem_of_omap. by exists (EvRecorded r b).
Qed.

Lemma recorded_snoc tr e r b :
  recordOf e = None → EvRecorded r b ∈ tr ++ [e] → EvRecorded r b ∈ tr.
Proof. intros He [Hin|Heq]%elem_of_snoc; [done|]. by subst. Qed.

(** C7.  Whatever the host does and whenever it, or the callback, calls
    [stop()] (the trace has an [EvStop] at each of these calls): no
    evaluation starts after a call of [stop()]; every evaluation that
    started, in flight at a call of [stop()] or not, ended on record with
    only calls of [stop()] in between, and is in the log at the end; and
    unless the progress callback threw, the call goes on to [compileResults]
    and returns its summary. *)
Theorem stop_is_cooperative w params settings s :
  isOptimizing s = false →
  ∃ s', finalState (optimize w params settings s) = Some s'
        ∧ noStartAfterStop (trace s')
        ∧ startsRecorded (trace s')
        ∧ (∀ r b, EvRecorded r b ∈ trace s' → r ∈ results s')
        ∧ (reportsReturned (trace s') →
           ∃ c, optimize w params settings s = Done c s'
                ∧ success c = true
                ∧ last (trace s') = Some EvCompiled).
Proof.
  intros Hidle.
  pose proof (optimize_run w params settings s Hidle) as Hrun. simpl in Hrun.
  destruct (optimize w params settings s) as [c s'|e s'|]; [| |done].
  - destruct Hrun as (s1 & _ & HI & Hc & ->).
    eexists. split; [done|]. simpl. split_and!.
    + apply noStartAfterStop_snoc; [apply (inv_nsas _ HI) | intros []].
    + apply startsRecorded_app; [apply (inv_rec _ HI)|].
      intros e ->%list_elem_of_singleton [].
    + intros r b Hin%recorded_snoc; [|done].
      rewrite sortDesc_perm, (inv_log _ HI). by eapply recorded_in_log.
    + intros _. exists c. split_and!; [done| |by rewrite last_snoc].
      destruct (compileResults_unfold w s1) as (c' & Hc' & Hs & _);
        [apply (inv_run _ HI) | by apply Inv_best_is_Some |].
      congruence.
  - destruct Hrun as (s1 & s2 & _ & HI & (cb & p & _ & _ & _ & _ & ->) & ->).
    eexists. split; [done|]. simpl. split_and!.
    + apply noStartAfterStop_snoc; [apply (inv_nsas _ HI) | intros []].
    + apply startsRecorded_app; [apply (inv_rec _ HI)|].
      intros e' ->%list_elem_of_singleton [].
    + intros r b Hin%recorded_snoc; [|done].
      rewrite (inv_log _ HI). by eapply recorded_in_log.
    + intros Hrep. destruct (Hrep p (CbThrow e)) as [b Hb]; [|done].
      apply elem_of_snoc. by right.
Qed.

(** The witness is a run during which the host calls [stop()] at every
    suspension: the first evaluation is in flight at the first call, it is
    recorded all the same, and it is the only one. *)
Lemma stop_is_cooperative_witness :
  ∃ s', finalState
          (optimize stoppingWorld [lengthParam] basicSettings newOptimizer)
        = Some s'
        ∧ noStartAfterStop (trace s')
        ∧ startsRecorded (trace s')
        ∧ (∀ r b, EvRecorded r b ∈ trace s' → r ∈ results s')
        ∧ (reportsReturned (trace s') →
           ∃ c, optimize stoppingWorld [lengthParam] basicSettings newOptimizer
                = Done c s'
                ∧ success c = true
                ∧ last (trace s') = Some EvCompiled)
        ∧ (∃ p r b, trace s'
                    = [EvEvalStart 0 p; EvStop; EvRecorded r b; EvStop;
                       EvCompiled]
                    ∧ results s' = [r]).
Proof.
  destruct (stop_is_cooperative stoppingWorld [lengthParam] basicSettings
              newOptimizer eq_refl) as (s' & Hend & Hnsas & Hrec & Hlog & Hcmp).
  exists s'. split_and!; try done.
  revert Hend. vm_compute. intros [= <-]. by eexists _, _, _.
Defined.

(** ** The progress callback *)

(** With no callback registered, [updateProgress] does nothing. *)
Lemma updateProgress_no_callback current total s :
  progressCallback s = None → updateProgress current total s = Done tt s.
Proof. intros H. unfold updateProgress. run_monad. by rewrite H. Qed.

(** C8, as the code has it.  An exception of the progress callback is not
    contained: [optimize] lowers its flag and rethrows it, and no summary is
    returned.  The callback was called right after the recording of an
    evaluation, and that is where the run ends: the trace ends with that
    recording and the failed report; the log is neither emptied nor rolled
    back, it holds the evaluation just made and all the earlier ones (as
    many as the callback was told), and the best pointer is the best of
    them.  A call ends by an exception in that case only; in particular it
    returns a summary when no callback is registered. *)
Theorem callback_error_propagates w params settings s :
  isOptimizing s = false →
  match optimize w params settings s with
  | Done c s' =>
      reportsReturned (trace s') ∧ success c = true ∧ isOptimizing s' = false
  | Thrown e s' =>
      ∃ callback n p tr r best,
        progressCallback s = Some callback
        ∧ callback n p = CbThrow e
        ∧ trace s' = tr ++ [EvRecorded r best; EvReport p (CbThrow e)]
        ∧ reportsReturned tr
        ∧ r ∈ results s'
        ∧ results s' ≡ₚ completionLog (trace s')
        ∧ pr_resultsCount p = length (results s')
        ∧ bestResult s' = bestOf (completionLog (trace s'))
        ∧ isOptimizing s' = false
  | OutOfFuel => False
  end.
Proof.
  intros Hidle.
  pose proof (optimize_run w params settings s Hidle) as Hrun. simpl in Hrun.
  destruct (optimize w params settings s) as [c s'|e s'|]; [| |done].
  - destruct Hrun as (s1 & _ & HI & Hc & ->). simpl. split_and!; [| |done].
    + intros p cr [Hin|Heq]%elem_of_snoc; [|done]. by eapply (inv_rep _ HI).
    + destruct (compileResults_unfold w s1) as (c' & Hc' & Hs & _);
        [apply (inv_run _ HI) | by apply Inv_best_is_Some |].
      congruence.
  - destruct Hrun as (s1 & s2 & [Hsteps _] & HI
                      & (cb & p & Hcb & Hthrow & Hjust & Hcount & ->) & ->).
    destruct Hjust as (r & best & Hlast).
    apply last_Some in Hlast as [tr Htr].
    assert (Hlog : completionLog (trace s1 ++ [EvReport p (CbThrow e)])
                   = completionLog (trace s1)).
    { rewrite completionLog_app. apply app_nil_r. }
    exists cb, (tick s1), p, tr, r, best. simpl. rewrite Hlog.
    split_and!; try done.
    + by rewrite <-Hcb, (steps_callback _ _ Hsteps).
    + by rewrite Htr, <-(assoc_L (++)).
    + intros p' c' Hin. apply (inv_rep _ HI p' c'). rewrite Htr.
      apply elem_of_app. by left.
    + rewrite (inv_log _ HI), Htr, completionLog_app.
      apply elem_of_app. right. by left.
    + apply (inv_log _ HI).
    + apply (inv_best _ HI).
Qed.

Lemma callback_error_propagates_witness :
  match optimize demoWorld [lengthParam] basicSettings observedOptimizer with
  | Done c s' =>
      reportsReturned (trace s') ∧ success c = true ∧ isOptimizing s' = false
  | Thrown e s' =>
      ∃ callback n p tr r best,
        progressCallback observedOptimizer = Some callback
        ∧ callback n p = CbThrow e
        ∧ trace s' = tr ++ [EvRecorded r best; EvReport p (CbThrow e)]
        ∧ reportsReturned tr
        ∧ r ∈ results s'
        ∧ results s' ≡ₚ completionLog (trace s')
        ∧ pr_resultsCount p = length (results s')
        ∧ bestResult s' = bestOf (completionLog (trace s'))
        ∧ isOptimizing s' = false
  | OutOfFuel => False
  end.
Proof.
  apply (callback_error_propagates demoWorld [lengthParam] basicSettings
           observedOptimizer).
  reflexivity.
Defined.

(** The claim of C8 fails: with a callback that throws, the run with one
    integer parameter is aborted after its first evaluation and [optimize]
    throws the callback's error instead of returning a summary. *)
Lemma callback_error_aborts_run :
  match optimize demoWorld [lengthParam] basicSettings observedOptimizer with
  | Thrown e s' =>
      e = "observer failed"%string ∧ length (results s') = 1%nat
      ∧ isOptimizing s' = false
  | _ => False
  end.
Proof. vm_compute. by split_and!. Qed.

(** With no callback registered a call cannot fail. *)
Lemma no_callback_no_error w params settings s :
  isOptimizing s = false → progressCallback s = None →
  ∃ c s', optimize w params settings s = Done c s'.
Proof.
  intros Hidle Hnone.
  pose proof (optimize_run w params settings s Hidle) as Hrun. simpl in Hrun.
  destruct (optimize w params settings s) as [c s'|e s'|]; [by eauto| |done].
  destruct Hrun as (s1 & s2 & [Hsteps _] & _ & (cb & p & Hcb & _) & _).
  rewrite (steps_callback _ _ Hsteps) in Hcb. simpl in Hcb. congruence.
Qed.

(** ** The compiled summary *)

Lemma jsDiv_0_0 : jsDiv (sumScores []) (Qc_of_nat (length (@nil EvaluationResult))) = NaN.
Proof. by vm_compute. Qed.

(** C10.  A run that ends with no evaluation on record still compiles a
    summary with [success = true]; its [averageScore] is [0 / 0], that is
    [NaN], its [bestScore] is 0, its [improvement] is 0 and its parameter set
    is empty. *)
Theorem empty_run_summary w params settings s :
  isOptimizing s = false →
  match optimize w params settings s with
  | Done c s' =>
      results s' = [] →
      success c = true
      ∧ totalTests c = 0%nat
      ∧ cp_bestResult c = None
      ∧ averageScore (summary c) = NaN
      ∧ sm_bestScore (summary c) = 0
      ∧ improvement (summary c) = Fin 0
      ∧ sm_parameters (summary c) = ∅
  | _ => True
  end.
Proof.
  intros Hidle.
  pose proof (optimize_run w params settings s Hidle) as Hrun. simpl in Hrun.
  destruct (optimize w params settings s) as [c s'|e s'|]; [|done..].
  destruct Hrun as (s1 & _ & HI & Hc & ->). simpl. intros Hsorted.
  assert (Hnil : results s1 = []).
  { apply Permutation_nil_r. by rewrite <-Hsorted, sortDesc_perm. }
  assert (Hbest : bestResult s1 = None).
  { rewrite (inv_best _ HI).
    assert (completionLog (trace s1) = []) as ->; [|done].
    apply Permutation_nil_r. by rewrite <-Hnil, (inv_log _ HI). }
  destruct (compileResults_unfold w s1)
    as (c' & Hc' & Hs & Ht & Hb & _ & Hbs & Havg & Himp & Hpar);
    [apply (inv_run _ HI) | by apply Inv_best_is_Some |].
  assert (c' = c) as -> by congruence.
  rewrite Hs, Ht, Hb, Hbs, Havg, Himp, Hpar.
  unfold bestScoreOr0. rewrite Hbest, Hnil. by vm_compute.
Qed.

Lemma empty_run_summary_witness :
  match optimize demoWorld [lengthParam] zeroSettings newOptimizer with
  | Done c s' =>
      results s' = []
      ∧ success c = true
      ∧ averageScore (summary c) = NaN
      ∧ sm_bestScore (summary c) = 0
      ∧ sm_parameters (summary c) = ∅
  | _ => False
  end.
Proof.
  pose proof (empty_run_summary demoWorld [lengthParam] zeroSettings
                newOptimizer eq_refl) as H.
  destruct (optimize demoWorld [lengthParam] zeroSettings newOptimizer)
    as [c s'| |] eqn:Hrun.
  - assert (Hnil : results s' = []).
    { revert Hrun. vm_compute. by intros [= _ <-]. }
    destruct (H Hnil) as (? & ? & ? & ? & ? & ? & ?). by split_and!.
  - revert Hrun. vm_compute. discriminate.
  - revert Hrun. vm_compute. discriminate.
Defined.

(** ** The log is sorted in place *)

(** [getTopResults] replaces the log by its sorted copy. *)
Lemma getTopResults_sorts_in_place count s :
  getTopResults count s
  = Done (take count (sortDesc score (results s)))
         (set_results (sortDesc score (results s)) s).
Proof. reflexivity. Qed.

(** C2, at the failing input.  The run of the basic profile over the one
    parameter ["length"] records three evaluations, numbered 0, 1, 2 in
    completion order, with the scores 50, 80 and 65.  The top-10 query of the
    final summary leaves the log in the order 1, 2, 0: the elements are
    kept, their completion order is not. *)
Theorem top_query_reorders_log :
  match optimize demoWorld [lengthParam] basicSettings newOptimizer with
  | Done c s' =>
      iteration <$> completionLog (trace s') = [0; 1; 2]%nat
      ∧ score <$> completionLog (trace s')
        = [Qc_of_Z 50; Qc_of_Z 80; Qc_of_Z 65]
      ∧ iteration <$> results s' = [1; 2; 0]%nat
  | _ => False
  end.
Proof. vm_compute. by split_and!. Qed.

(** C1, at the failing input.  In the same run the first evaluation scored
    50 and the best one 80, an improvement of 60 percent; the summary reports
    0, because [calculateImprovement] reads [results[0]] after the top-10
    query has put the best result there. *)
Theorem improvement_reads_sorted_log :
  match optimize demoWorld [lengthParam] basicSettings newOptimizer with
  | Done c s' =>
      (score <$> completionLog (trace s')) !! 0%nat = Some (Qc_of_Z 50)
      ∧ sm_bestScore (summary c) = Qc_of_Z 80
      ∧ jsScale (jsDiv (Qc_of_Z 80 - Qc_of_Z 50) (Qc_of_Z 50)) (Qc_of_Z 100)
        = Fin (Qc_of_Z 60)
      ∧ improvement (summary c) = Fin 0
  | _ => False
  end.
Proof.
  vm_compute. split_and!; try done; f_equal; by apply Qc_is_canon.
Qed.

(** ** The candidate generator *)

Lemma agree_insert keys key v a b :
  agree (key :: keys) a b → agree keys (<[key := v]> a) (<[key := v]> b).
Proof.
  intros Hab k Hk. destruct (decide (key = k)) as [->|Hne].
  - by rewrite !lookup_insert_eq.
  - rewrite !lookup_insert_ne by done. apply Hab.
    by intros [->|?]%elem_of_cons.
Qed.

Lemma allCombinations_agree n params a b :
  agree (name <$> params) a b →
  allCombinations n params a = allCombinations n params b.
Proof.
  revert a b. induction params as [|param rest IH]; intros a b Hab; simpl.
  - f_equal. apply map_eq. intros k. apply Hab. apply not_elem_of_nil.
  - apply list_bind_ext; [|done]. intros v. apply IH. by apply agree_insert.
Qed.

Lemma take_ceiling_full {A} (l k : list A) :
  (ceiling ≤ length (take ceiling l))%nat → take ceiling (l ++ k) = take ceiling l.
Proof. rewrite length_take. intros H. apply take_app_le. lia. Qed.

Lemma take_ceiling_short {A} (l : list A) :
  ¬ (ceiling ≤ length (take ceiling l))%nat → take ceiling l = l.
Proof. rewrite length_take. intros H. apply take_ge. lia. Qed.

Lemma combinationLoop_spec recurse key keys
    (all : ParameterSet → list ParameterSet) :
  (∀ cur sets cur' sets', (length sets < ceiling)%nat →
     recurse cur sets = (cur', sets') →
     sets' = take ceiling (sets ++ all cur) ∧ agree keys cur' cur) →
  (∀ a b, agree keys a b → all a = all b) →
  ∀ steps cur0 cur sets cur' sets',
    agree (key :: keys) cur cur0 → (length sets < ceiling)%nat →
    combinationLoop recurse key steps cur sets = (cur', sets') →
    sets' = take ceiling (sets ++ (v ← steps; all (<[key := v]> cur0)))
    ∧ agree (key :: keys) cur' cur0.
Proof.
  intros Hrec Hall steps. induction steps as [|v steps IH];
    intros cur0 cur sets cur' sets' Hagree Hlen; simpl.
  - intros [= <- <-]. split; [|done]. rewrite app_nil_r, take_ge; [done|lia].
  - destruct (recurse (<[key := v]> cur) sets) as [cur1 sets1] eqn:Hr.
    destruct (Hrec _ _ _ _ Hlen Hr) as [Hsets1 Hcur1].
    rewrite (Hall _ (<[key := v]> cur0)) in Hsets1 by by apply agree_insert.
    assert (Hagree1 : agree (key :: keys) cur1 cur0).
    { intros k Hk. rewrite Hcur1.
      - rewrite lookup_insert_ne; [by apply Hagree|].
        intros ->. apply Hk. by left.
      - intros Hin. apply Hk. by right. }
    rewrite (assoc_L (++)).
    destruct (decide _) as [Hfull|Hshort].
    + intros [= <- <-]. split; [|done].
      rewrite take_ceiling_full; [done|].
      rewrite <-Hsets1. unfold ceiling. lia.
    + intros Hloop.
      assert (Hshort' : ¬ (ceiling ≤ length sets1)%nat)
        by (unfold ceiling; lia).
      rewrite Hsets1 in Hshort'. apply take_ceiling_short in Hshort'.
      rewrite Hshort' in Hsets1. subst sets1.
      eapply IH; [exact Hagree1 | | exact Hloop].
      unfold ceiling. lia.
Qed.

Lemma generateCombinations_spec n params :
  ∀ current sets current' sets', (length sets < ceiling)%nat →
    generateCombinations n params current sets = (current', sets') →
    sets' = take ceiling (sets ++ allCombinations n params current)
    ∧ agree (name <$> params) current' current.
Proof.
  induction params as [|param rest IH];
    intros current sets current' sets' Hlen; simpl.
  - intros [= <- <-]. split; [|done].
    rewrite take_ge; [done|]. rewrite length_app. simpl. lia.
  - intros Hloop.
    eapply (combinationLoop_spec _ (name param) (name <$> rest)
              (allCombinations n rest)); [exact IH | | | done | exact Hloop].
    + apply allCombinations_agree.
    + done.
Qed.

Lemma enumerateSets_spec params density :
  enumerateSets params density
  = take ceiling (allCombinations (stepsPerParam density) params ∅).
Proof.
  unfold enumerateSets.
  destruct (generateCombinations _ _ _ _) as [current' sets'] eqn:Hg.
  apply generateCombinations_spec in Hg as [-> _]; [done|].
  unfold ceiling, combinationLimit. simpl length. lia.
Qed.

(** C6.  [generateParameterSets] returns at most 10,000 candidates: the
    enumeration stops as soon as the ceiling is reached and keeps what it
    has, namely the 10,000 first combinations of the Cartesian product; the
    shuffle that follows permutes them. *)
Theorem candidates_capped w params density s :
  ∃ sets n,
    generateParameterSets w params density s = Done sets (set_tick n s)
    ∧ (Z.of_nat (length sets) ≤ 10000)%Z
    ∧ sets ≡ₚ take ceiling
                (allCombinations (stepsPerParam density) params ∅).
Proof.
  destruct (ticks_generateParameterSets w params density s)
    as (sets & n & Hrun & Hperm).
  exists sets, n. split; [done|].
  rewrite enumerateSets_spec in Hperm.
  split; [|done]. rewrite Hperm, length_take.
  unfold ceiling, combinationLimit. lia.
Qed.

(** *** The samples of one parameter *)




(** *** Bounds of the samples *)

Lemma Qc_of_nat_0 : Qc_of_nat 0 = 0.
Proof. by apply Qc_is_canon. Qed.

Lemma Qc_of_nat_le (a b : nat) : (a ≤ b)%nat → Qc_of_nat a ≤ Qc_of_nat b.
Proof. intros. unfold Qc_of_nat. apply (proj1 (Qc_of_Z_le _ _)). lia. Qed.


Lemma Qcinv_nonneg (x : Qc) : 0 ≤ x → 0 ≤ / x.
Proof.
  unfold Qcle, Qcinv. simpl. rewrite !Qred_correct. apply Qinv_le_0_compat.
Qed.

Lemma Qcmult_nonneg (x y : Qc) : 0 ≤ x → 0 ≤ y → 0 ≤ x * y.
Proof.
  intros Hx Hy. rewrite <-(Qcmult_0_l y). by apply Qcmult_le_compat_r.
Qed.


Lemma half_bounds : 0 ≤ Q2Qc (1 # 2) ∧ Q2Qc (1 # 2) < 1.
Proof. by split. Qed.

Lemma Qc_of_Z_succ (z : Z) : Qc_of_Z (z + 1) = Qc_of_Z z + 1.
Proof.
  apply Qc_is_canon. unfold Qcplus. simpl. rewrite Qred_correct.
  unfold Qeq. simpl. lia.
Qed.

Lemma jsRound_bounds (a b : Z) (v : Qc) :
  Qc_of_Z a ≤ v ≤ Qc_of_Z b → Qc_of_Z a ≤ jsRound v ≤ Qc_of_Z b.
Proof.
  intros [Ha Hb]. destruct half_bounds as [Hh0 Hh1]. unfold jsRound. split.
  - apply (proj1 (Qc_of_Z_le _ _)). rewrite <-(jsFloor_of_Z a) at 1.
    apply jsFloor_mono. trans v; [done|].
    rewrite <-(Qcplus_0_r v) at 1. by apply Qcplus_le_mono_l.
  - apply (proj1 (Qc_of_Z_le _ _)).
    cut (jsFloor (v + Q2Qc (1 # 2)) < b + 1)%Z; [lia|].
    apply jsFloor_lt. rewrite Qc_of_Z_succ.
    eapply Qcle_lt_trans; [apply Qcplus_le_mono_r, Hb|].
    by apply Qcplus_lt_mono_l.
Qed.

(** *** The product *)








(** ** Mutation *)

Lemma generateRandomValue_unfold w param s :
  ∃ n, (tick s ≤ n ≤ S (tick s))%nat
       ∧ generateRandomValue w param s
         = Done (drawnValue param (w_random w (tick s))) (set_tick n s).
Proof.
  unfold generateRandomValue, drawnValue, random.
  destruct (type param); run_monad;
    try (exists (S (tick s)); split; [lia | reflexivity]).
  exists (tick s). split; [lia|]. by rewrite set_tick_same.
Qed.

Lemma mutate_spec w params : ∀ individual s,
  NoDup (name <$> params) →
  ∃ result n,
    mutate w individual params s = Done result (set_tick n s)
    ∧ (tick s ≤ n)%nat
    ∧ perGene w params individual result (tick s) n.
Proof.
  induction params as [|param rest IH]; intros individual s Hnd.
  { exists individual, (tick s). simpl. rewrite set_tick_same.
    split_and!; [done | lia | ]. split; [done|].
    intros param Hin. by apply elem_of_nil in Hin. }
  simpl in Hnd. apply NoDup_cons in Hnd as [Hfresh Hnd].
  simpl. unfold random. run_monad.
  destruct (decide (rndQ (w_random w (tick s)) < mutationRate)) as [Hlt|Hge].
  - destruct (generateRandomValue_unfold w param (set_tick (S (tick s)) s))
      as (n1 & Hn1 & Hv). simpl in Hn1, Hv. rewrite Hv.
    destruct (IH (<[name param := drawnValue param (w_random w (S (tick s)))]>
                    individual) (set_tick n1 s) Hnd)
      as (result & n & Hrun & Hn & Hout & Hgenes).
    simpl in Hrun, Hn, Hgenes.
    exists result, n. rewrite set_tick_twice, Hrun. split_and!; [done | lia |].
    split.
    + intros k Hk. rewrite Hout.
      * apply lookup_insert_ne. intros <-. apply Hk. by left.
      * intros Hin. apply Hk. by right.
    + intros p [->|Hp]%elem_of_cons.
      * exists (tick s). split; [lia|]. rewrite decide_True by done.
        rewrite (Hout _ Hfresh). apply lookup_insert_eq.
      * destruct (Hgenes p Hp) as (t & Ht & Hcase). exists t. split; [lia|].
        destruct (decide _); [done|]. rewrite Hcase.
        apply lookup_insert_ne. intros Heq. apply Hfresh. rewrite Heq.
        by apply list_elem_of_fmap_2.
  - destruct (IH individual (set_tick (S (tick s)) s) Hnd)
      as (result & n & Hrun & Hn & Hout & Hgenes).
    simpl in Hrun, Hn, Hgenes.
    exists result, n. rewrite Hrun. split_and!; [done | lia |].
    split.
    + intros k Hk. apply Hout. intros Hin. apply Hk. by right.
    + intros p [->|Hp]%elem_of_cons.
      * exists (tick s). split; [lia|]. rewrite decide_False by done.
        by apply Hout.
      * destruct (Hgenes p Hp) as (t & Ht & Hcase). exists t. split; [lia|done].
Qed.

Lemma drawnValue_withinBounds param r :
  boundsOk param → withinBounds param (drawnValue param r).
Proof.
  unfold boundsOk, withinBounds, drawnValue.
  destruct (rndQ_range r) as [H0 H1]. destruct (type param); try done.
  - intros (Hle & [a Ha] & [b Hb]). rewrite Ha, Hb in *.
    apply (proj2 (Qc_of_Z_le _ _)) in Hle.
    assert (Hwidth : Qc_of_Z b - Qc_of_Z a + 1 = Qc_of_Z (b - a + 1)).
    { rewrite Qc_of_Z_succ. f_equal. apply Qc_is_canon.
      unfold Qcminus, Qcplus, Qcopp. simpl. rewrite !Qred_correct.
      unfold Qeq. simpl. lia. }
    rewrite Hwidth.
    assert (Hpos : 0 < Qc_of_Z (b - a + 1)).
    { rewrite <-Qc_of_Z_0. apply (proj1 (Qc_of_Z_lt _ _)). lia. }
    assert (Hfloor : (0 ≤ jsFloor (rndQ r * Qc_of_Z (b - a + 1)) < b - a + 1)%Z).
    { split.
      - apply jsFloor_nonneg. apply Qcmult_nonneg; [done | by apply Qclt_le_weak].
      - apply jsFloor_lt. rewrite <-(Qcmult_1_l (Qc_of_Z (b - a + 1))) at 2.
        by apply Qcmult_lt_compat_r. }
    set (z := jsFloor _) in *.
    assert (Hsum : Qc_of_Z z + Qc_of_Z a = Qc_of_Z (z + a)).
    { apply Qc_is_canon. unfold Qcplus. simpl. rewrite Qred_correct.
      unfold Qeq. simpl. lia. }
    rewrite Hsum. split; apply (proj1 (Qc_of_Z_le _ _)); lia.
  - intros Hle. set (d := max param - min param).
    assert (Hd : 0 ≤ d) by (unfold d; by apply Qcle_minus_iff in Hle).
    split.
    + rewrite <-(Qcplus_0_l (min param)) at 1.
      apply Qcplus_le_mono_r. by apply Qcmult_nonneg.
    + replace (max param) with (d + min param) by (unfold d; ring).
      apply Qcplus_le_mono_r. rewrite <-(Qcmult_1_l d) at 2.
      apply Qcmult_le_compat_r; [by apply Qclt_le_weak | done].
Qed.

(** C9, as the code has it.  [breed] selects two parents, makes an offspring
    of them by crossover and then draws once, at the tick [t] at which the
    crossover ended: at a draw of 0.1 or more the offspring is kept as it
    is and nothing more is drawn; below 0.1 it is handed to [mutate], which
    does not draw all of its genes anew but gives each parameter a draw of
    its own, draws the gene anew (from [generateRandomValue], hence within
    bounds that suit the type) when that draw is below 0.1, and keeps the
    gene otherwise. *)
Theorem mutation_is_per_gene w population params s :
  (0 < length population)%nat → NoDup (name <$> params) →
  ∃ parent1 n1 parent2 n2 offspring t child n,
    selectParent w population s = Done parent1 (set_tick n1 s)
    ∧ selectParent w population (set_tick n1 s) = Done parent2 (set_tick n2 s)
    ∧ crossover w parent1 parent2 params (set_tick n2 s)
      = Done offspring (set_tick t s)
    ∧ breed w population params s = Done child (set_tick n s)
    ∧ fitness child = None
    ∧ (¬ rndQ (w_random w t) < mutationRate →
       genes child = offspring ∧ n = S t)
    ∧ (rndQ (w_random w t) < mutationRate →
       perGene w params offspring (genes child) (S t) n)
    ∧ (∀ param r, boundsOk param → withinBounds param (drawnValue param r)).
Proof.
  intros Hlen Hnd.
  destruct (ticks_selectParent w population Hlen s) as (parent1 & n1 & H1 & _).
  destruct (ticks_selectParent w population Hlen (set_tick n1 s))
    as (parent2 & n2 & H2 & _).
  destruct (ticks_crossoverLoop w parent1 parent2 params ∅ (set_tick n2 s))
    as (offspring & t & H3 & _).
  rewrite set_tick_twice in H2, H3.
  exists parent1, n1, parent2, n2, offspring, t.
  cut (∃ child n,
         breed w population params s = Done child (set_tick n s)
         ∧ fitness child = None
         ∧ (¬ rndQ (w_random w t) < mutationRate →
            genes child = offspring ∧ n = S t)
         ∧ (rndQ (w_random w t) < mutationRate →
            perGene w params offspring (genes child) (S t) n)
         ∧ (∀ param r, boundsOk param → withinBounds param (drawnValue param r))).
  { intros (child & n & ?). by exists child, n. }
  unfold breed.
  rewrite bind_unfold, H1. cbv beta.
  rewrite bind_unfold, H2. cbv beta.
  unfold crossover. rewrite bind_unfold, H3. cbv beta.
  unfold random. run_monad.
  destruct (decide (rndQ (w_random w t) < mutationRate)) as [Hlt|Hge].
  - destruct (mutate_spec w params offspring (set_tick (S t) s) Hnd)
      as (result & n & Hrun & Hn & Hgenes).
    simpl in Hn, Hgenes. rewrite set_tick_twice in Hrun.
    exists (mkIndividual result None), n. rewrite set_tick_twice, Hrun.
    split_and!; try done. intros param r. apply drawnValue_withinBounds.
  - exists (mkIndividual offspring None), (S t). rewrite set_tick_twice.
    split_and!; try done. intros param r. apply drawnValue_withinBounds.
Qed.

(** The witness is a call in which the deciding draw (tick 7) is below 0.1
    and [mutate] runs. *)
Lemma mutation_is_per_gene_witness :
  ∃ parent1 n1 parent2 n2 offspring t child n,
    selectParent triggerWorld [fourteen] newOptimizer
    = Done parent1 (set_tick n1 newOptimizer)
    ∧ selectParent triggerWorld [fourteen] (set_tick n1 newOptimizer)
      = Done parent2 (set_tick n2 newOptimizer)
    ∧ crossover triggerWorld parent1 parent2 [lengthParam]
        (set_tick n2 newOptimizer)
      = Done offspring (set_tick t newOptimizer)
    ∧ breed triggerWorld [fourteen] [lengthParam] newOptimizer
      = Done child (set_tick n newOptimizer)
    ∧ fitness child = None
    ∧ (¬ rndQ (w_random triggerWorld t) < mutationRate →
       genes child = offspring ∧ n = S t)
    ∧ (rndQ (w_random triggerWorld t) < mutationRate →
       perGene triggerWorld [lengthParam] offspring (genes child) (S t) n)
    ∧ (∀ param r, boundsOk param → withinBounds param (drawnValue param r)).
Proof.
  apply (mutation_is_per_gene triggerWorld [fourteen] [lengthParam]
           newOptimizer).
  - simpl. lia.
  - apply NoDup_singleton.
Defined.

(** The claim of C9 fails: in [triggerWorld] the draw that decides on
    mutation (tick 7) is below 0.1, [mutate] runs and consumes the draw of
    tick 8 for the parameter ["length"], which is 1/2, and the child keeps
    the value 14 of its parents: the gene was not drawn anew. *)
Lemma mutation_keeps_gene :
  rndQ (w_random triggerWorld 7) < mutationRate
  ∧ match breed triggerWorld [fourteen] [lengthParam] newOptimizer with
    | Done child s' =>
        tick s' = 9%nat
        ∧ genes child !! "length"%string = Some (VNum (Qc_of_Z 14))
    | _ => False
    end.
Proof. split; [by vm_compute|]. vm_compute. by split. Qed.

(** ** Further properties of the utility methods *)

Section SortFacts.
Context {A : Type} (key : A → Qc).

Lemma insertDesc_elem (x y : A) (l : list A) :
  y ∈ insertDesc key x l ↔ y = x ∨ y ∈ l.
Proof.
  induction l as [|z l IH]; simpl.
  - rewrite list_elem_of_singleton, elem_of_nil. tauto.
  - destruct (decide _); rewrite !elem_of_cons, ?IH; tauto.
Qed.

Lemma insertDesc_sorted (x : A) (l : list A) :
  StronglySorted (λ a b, key b ≤ key a) l →
  StronglySorted (λ a b, key b ≤ key a) (insertDesc key x l).
Proof.
  induction l as [|z l IH]; intros Hl; simpl.
  - repeat constructor.
  - apply StronglySorted_inv in Hl as [Hl Hz].
    destruct (decide (key x < key z)) as [Hlt|Hge].
    + constructor; [by apply IH|].
      apply Forall_forall. intros y [->|Hy]%insertDesc_elem.
      * by apply Qclt_le_weak.
      * by apply (proj1 (Forall_forall _ _) Hz).
    + apply Qcnot_lt_le in Hge. constructor; [by constructor|].
      constructor; [done|].
      eapply Forall_impl; [exact Hz|]. intros y Hy. simpl in *.
      by trans (key z).
Qed.

Lemma sortDesc_sorted (l : list A) :
  StronglySorted (λ a b, key b ≤ key a) (sortDesc key l).
Proof.
  induction l as [|x l IH]; simpl; [constructor|]. by apply insertDesc_sorted.
Qed.

Lemma insertDesc_stable (q : Qc) (x : A) (l : list A) :
  filter (λ y, key y = q) (insertDesc key x l)
  = filter (λ y, key y = q) (x :: l).
Proof.
  induction l as [|z l IH]; simpl; [done|].
  destruct (decide (key x < key z)) as [Hlt|Hge]; [|done].
  rewrite (filter_cons _ z), IH, !(filter_cons _ x), (filter_cons _ z).
  destruct (decide (key x = q)) as [Hx|Hx]; [|done].
  destruct (decide (key z = q)) as [Hz|Hz]; [|done].
  rewrite Hx, Hz in Hlt. by apply Qclt_not_eq in Hlt.
Qed.

Lemma sortDesc_stable (q : Qc) (l : list A) :
  filter (λ y, key y = q) (sortDesc key l) = filter (λ y, key y = q) l.
Proof.
  induction l as [|x l IH]; simpl; [done|].
  by rewrite insertDesc_stable, !filter_cons, IH.
Qed.

Lemma sortDesc_sorted_id (l : list A) :
  StronglySorted (λ a b, key b ≤ key a) l → sortDesc key l = l.
Proof.
  induction 1 as [|x l Hl IH Hx]; simpl; [done|]. rewrite IH.
  destruct l as [|z l]; simpl; [done|].
  apply Forall_cons in Hx as [Hz _].
  rewrite decide_False; [done|]. by apply Qcle_not_lt.
Qed.

Lemma sortDesc_idemp (l : list A) :
  sortDesc key (sortDesc key l) = sortDesc key l.
Proof. apply sortDesc_sorted_id, sortDesc_sorted. Qed.
End SortFacts.

(** X1.  [shuffleArray] makes [length - 1] draws and returns a permutation of its
    argument, whatever the draws. *)
Theorem shuffleArray_permutes {A} w (array : list A) s :
  ∃ shuffled,
    shuffleArray w array s
    = Done shuffled (set_tick (tick s + (length array - 1)) s)
    ∧ shuffled ≡ₚ array.
Proof.
  unfold shuffleArray. generalize (length array - 1)%nat. intros i.
  revert array s. induction i as [|i IH]; intros array s; simpl.
  - exists array. rewrite Nat.add_0_r, set_tick_same. done.
  - unfold random. run_monad.
    match goal with
    | |- context [shuffleLoop w i ?l ?st] =>
        destruct (IH l st) as (shuffled & Hrun & Hperm)
    end.
    exists shuffled. rewrite Hrun. simpl. rewrite set_tick_twice.
    split; [f_equal; f_equal; lia|]. by rewrite Hperm, swap_perm.
Qed.

(** X2.  [getTopResults(count)] returns the [count] (or all, if fewer) results
    of the highest scores in descending order, results of one score in the
    order the log had them; no result left out scores more than one
    returned; the log keeps its elements. *)
Theorem getTopResults_ranked count s :
  ∃ top s',
    getTopResults count s = Done top s'
    ∧ length top = Nat.min count (length (results s))
    ∧ descending top
    ∧ results s' ≡ₚ results s
    ∧ top = take count (results s')
    ∧ (∀ q, filter (λ r, score r = q) (results s')
            = filter (λ r, score r = q) (results s))
    ∧ (∀ r t, r ∈ drop count (results s') → t ∈ top → score r ≤ score t).
Proof.
  exists (take count (sortDesc score (results s))),
         (set_results (sortDesc score (results s)) s).
  pose proof (sortDesc_sorted score (results s)) as Hsorted.
  split_and!; try done.
  - by rewrite length_take, sortDesc_length.
  - unfold descending. rewrite <-(take_drop count) in Hsorted.
    by apply StronglySorted_app_1_l in Hsorted.
  - apply sortDesc_perm.
  - intros q. apply sortDesc_stable.
  - simpl. intros r t Hr Ht. rewrite <-(take_drop count) in Hsorted.
    by apply (StronglySorted_app_1_elem_of _ _ _ t r Hsorted).
Qed.

(** X3.  A second call of [getTopResults] finds the log in order and leaves it
    as it is: sorting is idempotent, so that only the first query after an
    evaluation moves results. *)
Theorem getTopResults_idempotent count count' s :
  ∃ top s',
    getTopResults count s = Done top s'
    ∧ getTopResults count' s' = Done (take count' (results s')) s'.
Proof.
  exists (take count (sortDesc score (results s))),
         (set_results (sortDesc score (results s)) s).
  split; [done|]. unfold getTopResults. run_monad.
  by rewrite sortDesc_idemp.
Qed.

Lemma removeDuplicateLoop_spec sets : ∀ unique,
  NoDup unique →
  ∃ kept, removeDuplicateLoop sets unique = unique ++ kept
          ∧ NoDup (unique ++ kept)
          ∧ kept `sublist_of` sets
          ∧ (∀ x, x ∈ unique ++ kept ↔ x ∈ unique ∨ x ∈ sets).
Proof.
  induction sets as [|set sets IH]; intros unique Hnd; simpl.
  { exists []. rewrite app_nil_r. split_and!; try done.
    intros x. rewrite elem_of_nil. tauto. }
  destruct (decide (set ∈ unique)) as [Hin|Hnin].
  - destruct (IH unique Hnd) as (kept & Heq & Hnd' & Hsub & Hel).
    exists kept. split_and!; try done.
    + by apply sublist_cons.
    + intros x. rewrite Hel, elem_of_cons. split; [tauto|].
      intros [?|[->|?]]; tauto.
  - destruct (IH (unique ++ [set])) as (kept & Heq & Hnd' & Hsub & Hel).
    { apply NoDup_app. split_and!; [done| |apply NoDup_singleton].
      intros y Hy ->%list_elem_of_singleton. done. }
    exists (set :: kept). rewrite <-(assoc_L (++)) in Heq, Hnd', Hel.
    split_and!; try done.
    + by apply sublist_skip.
    + intros x. rewrite (Hel x), elem_of_app, list_elem_of_singleton,
        elem_of_cons. tauto.
Qed.

Lemma removeDuplicateLoop_NoDup sets : ∀ unique,
  NoDup (unique ++ sets) → removeDuplicateLoop sets unique = unique ++ sets.
Proof.
  induction sets as [|set sets IH]; intros unique Hnd; simpl.
  { by rewrite app_nil_r. }
  rewrite decide_False.
  - rewrite IH; [by rewrite <-(assoc_L (++))|]. by rewrite <-(assoc_L (++)).
  - apply NoDup_app in Hnd as (_ & Hdisj & _). intros Hin.
    apply (Hdisj _ Hin). by left.
Qed.

Lemma removeDuplicateLoop_snoc sets x : ∀ unique,
  removeDuplicateLoop (sets ++ [x]) unique
  = if decide (x ∈ removeDuplicateLoop sets unique)
    then removeDuplicateLoop sets unique
    else removeDuplicateLoop sets unique ++ [x].
Proof.
  induction sets as [|set sets IH]; intros unique; simpl; [done|]. apply IH.
Qed.

Lemma first_occurrence `{EqDecision A} (l : list A) (x : A) :
  x ∈ l → ∃ a, l !! a = Some x ∧ x ∉ take a l.
Proof.
  induction l as [|y l IH]; [by intros ?%elem_of_nil|].
  intros Hin. destruct (decide (x = y)) as [->|Hne].
  - exists 0%nat. split; [done|]. simpl. by intros ?%elem_of_nil.
  - apply elem_of_cons in Hin as [?|Hin]; [done|].
    destruct (IH Hin) as (a & Ha & Hfirst). exists (S a). split; [done|].
    simpl. by intros [?|?]%elem_of_cons.
Qed.

Lemma removeDuplicateSets_elem sets x :
  x ∈ removeDuplicateSets sets ↔ x ∈ sets.
Proof.
  unfold removeDuplicateSets.
  destruct (removeDuplicateLoop_spec sets [] NoDup_nil_2)
    as (kept & -> & _ & _ & Hel).
  rewrite Hel, elem_of_nil. tauto.
Qed.

Lemma removeDuplicateSets_snoc sets x :
  removeDuplicateSets (sets ++ [x])
  = if decide (x ∈ sets) then removeDuplicateSets sets
    else removeDuplicateSets sets ++ [x].
Proof.
  unfold removeDuplicateSets. rewrite removeDuplicateLoop_snoc.
  apply decide_ext, removeDuplicateSets_elem.
Qed.

Lemma removeDuplicateSets_order sets : ∀ j k x y,
  (j < k)%nat →
  removeDuplicateSets sets !! j = Some x →
  removeDuplicateSets sets !! k = Some y →
  ∃ a b, (a < b)%nat
         ∧ sets !! a = Some x ∧ (x ∉ take a sets)
         ∧ sets !! b = Some y ∧ y ∉ take b sets.
Proof.
  induction sets as [|z l IH] using rev_ind; intros j k x y Hjk Hx Hy.
  { by destruct j. }
  assert (Hold : ∀ a u, l !! a = Some u → u ∉ take a l →
                   ((l ++ [z]) !! a = Some u) ∧ u ∉ take a (l ++ [z])).
  { intros a u Ha Hfirst. split; [by apply lookup_app_l_Some|].
    rewrite take_app_le; [done|]. apply lookup_lt_Some in Ha. lia. }
  rewrite removeDuplicateSets_snoc in Hx, Hy.
  destruct (decide (z ∈ l)) as [Hin|Hnin].
  - destruct (IH j k x y Hjk Hx Hy) as (a & b & Hab & Ha & Hfa & Hb & Hfb).
    exists a, b. destruct (Hold a x Ha Hfa), (Hold b y Hb Hfb). by split_and!.
  - apply lookup_app_Some in Hy as [Hy|[Hlen Hy]].
    + rewrite lookup_app_l in Hx by (apply lookup_lt_Some in Hy; lia).
      destruct (IH j k x y Hjk Hx Hy) as (a & b & Hab & Ha & Hfa & Hb & Hfb).
      exists a, b. destruct (Hold a x Ha Hfa), (Hold b y Hb Hfb).
      by split_and!.
    + assert (k = length (removeDuplicateSets l) ∧ y = z) as [-> ->].
      { destruct (k - length (removeDuplicateSets l))%nat eqn:Hk;
          simplify_eq/=. split; [lia|done]. }
      rewrite lookup_app_l in Hx by done.
      assert (Hxl : x ∈ l).
      { apply removeDuplicateSets_elem. by eapply list_elem_of_lookup_2. }
      destruct (first_occurrence l x Hxl) as (a & Ha & Hfa).
      exists a, (length l). destruct (Hold a x Ha Hfa).
      split_and!; try done.
      * by apply lookup_lt_Some in Ha.
      * by rewrite lookup_app_r, Nat.sub_diag.
      * by rewrite take_app_length.
Qed.

(** X4.  [removeDuplicateSets] keeps the first occurrence of every set, in the
    order of the input, and nothing else: a set at the end of the input is
    appended to the result if it has not occurred before and is dropped
    otherwise, so that the sets of the result stand in the order of their
    first occurrences in the input.  An input without duplicates is
    returned as it is. *)
Theorem removeDuplicateSets_first_occurrences sets :
  NoDup (removeDuplicateSets sets)
  ∧ removeDuplicateSets sets `sublist_of` sets
  ∧ (∀ x, x ∈ removeDuplicateSets sets ↔ x ∈ sets)
  ∧ (NoDup sets ↔ removeDuplicateSets sets = sets)
  ∧ (∀ x, removeDuplicateSets (sets ++ [x])
          = if decide (x ∈ sets) then removeDuplicateSets sets
            else removeDuplicateSets sets ++ [x])
  ∧ (∀ j k x y,
       (j < k)%nat →
       removeDuplicateSets sets !! j = Some x →
       removeDuplicateSets sets !! k = Some y →
       ∃ a b, (a < b)%nat
              ∧ sets !! a = Some x ∧ (x ∉ take a sets)
              ∧ sets !! b = Some y ∧ y ∉ take b sets).
Proof.
  split_and!.
  - unfold removeDuplicateSets.
    by destruct (removeDuplicateLoop_spec sets [] NoDup_nil_2)
      as (kept & -> & Hnd & _).
  - unfold removeDuplicateSets.
    by destruct (removeDuplicateLoop_spec sets [] NoDup_nil_2)
      as (kept & -> & _ & Hsub & _).
  - apply removeDuplicateSets_elem.
  - unfold removeDuplicateSets. split.
    + intros Hsets. by apply (removeDuplicateLoop_NoDup sets []).
    + intros <-.
      by destruct (removeDuplicateLoop_spec sets [] NoDup_nil_2)
        as (kept & -> & Hnd & _).
  - apply removeDuplicateSets_snoc.
  - apply removeDuplicateSets_order.
Qed.

(** *** Perturbations *)

Lemma clamp_bounds (lo hi v : Qc) : lo ≤ hi → lo ≤ jsMax lo (jsMin hi v) ≤ hi.
Proof.
  intros Hle. unfold jsMax, jsMin.
  destruct (decide (v < hi)) as [Hv|Hv];
    destruct (decide (lo < _)) as [Hlo|Hlo]; split;
    try apply Qcle_refl; try done;
    try (by apply Qclt_le_weak); by apply Qcnot_lt_le.
Qed.

Lemma perturb_bounds param c i :
  boundsOk param → isNumeric param = true →
  min param ≤ perturb param c i ≤ max param
  ∧ (type param = TInteger → isInteger (perturb param c i)).
Proof.
  unfold boundsOk, isNumeric, perturb. intros Hok Hnum.
  destruct (type param); try done.
  - destruct Hok as (Hle & [a Ha] & [b Hb]). rewrite decide_True by done.
    split; [|intros _; by eexists].
    rewrite Ha, Hb. apply jsRound_bounds. rewrite <-Ha, <-Hb.
    by apply clamp_bounds.
  - rewrite decide_False by done. split; [by apply clamp_bounds | done].
Qed.

Lemma variations_length param currentValue :
  (length (generateParameterVariations param currentValue) ≤ 4)%nat.
Proof.
  unfold generateParameterVariations.
  destruct (isNumeric param), currentValue as [c|]; try (simpl; lia).
  etrans; [apply length_filter|]. by rewrite length_map.
Qed.

Lemma variations_elem param currentValue v :
  boundsOk param → v ∈ generateParameterVariations param currentValue →
  ∃ c, currentValue = Some c ∧ variationOf param c v.
Proof.
  intros Hok. unfold generateParameterVariations.
  destruct (isNumeric param) eqn:Hnum; [|by intros ?%elem_of_nil].
  destruct currentValue as [c|]; [|by intros ?%elem_of_nil].
  intros [Hne (i & -> & Hi)%list_elem_of_fmap]%list_elem_of_filter.
  exists c. split; [done|].
  destruct (perturb_bounds param c i Hok Hnum) as [Hb Hint].
  split; [by exists i|]. split; [exact Hb|]. by split.
Qed.

(** X5.  [generateParameterVariations] returns at most four values; each is the
    current value moved by one or two steps, clamped to the bounds (and
    rounded for an integer parameter), and none is the current value.  A
    parameter that is not numeric has no variations. *)
Theorem generateParameterVariations_bounds param currentValue :
  boundsOk param →
  (length (generateParameterVariations param currentValue) ≤ 4)%nat
  ∧ (isNumeric param = false → generateParameterVariations param currentValue = [])
  ∧ ∀ v, v ∈ generateParameterVariations param currentValue →
         ∃ c, currentValue = Some c ∧ variationOf param c v.
Proof.
  intros Hok. unfold generateParameterVariations.
  destruct (isNumeric param) eqn:Hnum.
  2:{ split_and!; [simpl; lia | done | intros v Hv; by apply elem_of_nil in Hv]. }
  destruct currentValue as [c|].
  2:{ split_and!; [simpl; lia | done | intros v Hv; by apply elem_of_nil in Hv]. }
  split_and!; [|done|].
  - etrans; [apply length_filter|]. by rewrite length_map.
  - intros v [Hne (i & -> & Hi)%list_elem_of_fmap]%list_elem_of_filter.
    exists c. split; [done|].
    destruct (perturb_bounds param c i Hok Hnum) as [Hb Hint].
    split; [by exists i|]. split; [exact Hb|]. by split.
Qed.

Lemma generateParameterVariations_bounds_witness :
  (length (generateParameterVariations lengthParam (Some (Qc_of_Z 50))) ≤ 4)%nat
  ∧ (isNumeric lengthParam = false →
     generateParameterVariations lengthParam (Some (Qc_of_Z 50)) = [])
  ∧ ∀ v, v ∈ generateParameterVariations lengthParam (Some (Qc_of_Z 50)) →
         ∃ c, Some (Qc_of_Z 50) = Some c ∧ variationOf lengthParam c v.
Proof.
  apply (generateParameterVariations_bounds lengthParam (Some (Qc_of_Z 50))).
  unfold boundsOk. simpl. split_and!;
    [by vm_compute | by exists 5%Z | by exists 50%Z].
Defined.

(** X6.  [generateNeighbors] returns at most four sets; each is a copy of
    [parameters] in which the one parameter holds a variation of its value,
    every other key being as it was.  There is no neighbor along a
    parameter that is not numeric. *)
Theorem generateNeighbors_one_key parameters param :
  boundsOk param →
  (length (generateNeighbors parameters param) ≤ 4)%nat
  ∧ (isNumeric param = false → generateNeighbors parameters param = [])
  ∧ ∀ neighbor, neighbor ∈ generateNeighbors parameters param →
      ∃ c v, parameters !! name param = Some (VNum c)
             ∧ variationOf param c v
             ∧ neighbor = <[name param := VNum v]> parameters
             ∧ neighbor ≠ parameters
             ∧ ∀ k, k ≠ name param → neighbor !! k = parameters !! k.
Proof.
  intros Hok.
  pose proof (variations_length param (numberAt parameters param)) as Hlen.
  pose proof (λ v, variations_elem param (numberAt parameters param) v Hok)
    as Hvar.
  unfold generateNeighbors, generateParameterVariations in *.
  destruct (isNumeric param) eqn:Hnum.
  2:{ split_and!; [simpl; lia | done | intros v Hv; by apply elem_of_nil in Hv]. }
  destruct (numberAt parameters param) as [c|] eqn:Hc.
  2:{ split_and!; [simpl; lia | done | intros v Hv; by apply elem_of_nil in Hv]. }
  split_and!; [by rewrite length_fmap | done |].
  intros neighbor (v & -> & Hv)%list_elem_of_fmap.
  destruct (Hvar v Hv) as (c' & [= <-] & Hvo).
  assert (Hat : parameters !! name param = Some (VNum c)).
  { unfold numberAt in Hc. destruct (parameters !! name param) as [[]|]; congruence. }
  exists c, v. split_and!; try done.
  - intros Heq. apply (f_equal (λ m : ParameterSet, m !! name param)) in Heq.
    rewrite lookup_insert_eq, Hat in Heq.
    destruct Hvo as (_ & _ & Hne & _). congruence.
  - intros k Hk. by apply lookup_insert_ne.
Qed.

Lemma generateNeighbors_one_key_witness :
  let parameters : ParameterSet := {["length"%string := VNum (Qc_of_Z 14)]} in
  (length (generateNeighbors parameters lengthParam) ≤ 4)%nat
  ∧ (isNumeric lengthParam = false → generateNeighbors parameters lengthParam = [])
  ∧ ∀ neighbor, neighbor ∈ generateNeighbors parameters lengthParam →
      ∃ c v, parameters !! name lengthParam = Some (VNum c)
             ∧ variationOf lengthParam c v
             ∧ neighbor = <[name lengthParam := VNum v]> parameters
             ∧ neighbor ≠ parameters
             ∧ ∀ k, k ≠ name lengthParam → neighbor !! k = parameters !! k.
Proof.
  apply (generateNeighbors_one_key {["length"%string := VNum (Qc_of_Z 14)]}
           lengthParam).
  unfold boundsOk. simpl. split_and!;
    [by vm_compute | by exists 5%Z | by exists 50%Z].
Defined.

Lemma length_bind_le {A B} (f : A → list B) (l : list A) (n : nat) :
  (∀ x, x ∈ l → length (f x) ≤ n)%nat → (length (l ≫= f) ≤ length l * n)%nat.
Proof.
  induction l as [|x l IH]; intros Hf; csimpl; [lia|].
  rewrite length_app. specialize (Hf x) as Hx.
  etrans; [apply Nat.add_le_mono; [apply Hx; by left | apply IH]|lia].
  intros y Hy. apply Hf. by right.
Qed.

(** X7.  [generateFineParameterSets] returns sets without duplicates, four at
    most for each pair of a top result and a parameter; each is the
    parameter set of a top result with one numeric parameter moved to a
    variation of its value. *)
Theorem generateFineParameterSets_around_top topResults params :
  Forall boundsOk params →
  let fine := generateFineParameterSets topResults params in
  NoDup fine
  ∧ (length fine ≤ length topResults * (length params * 4))%nat
  ∧ ∀ set, set ∈ fine →
      ∃ result param c v,
        result ∈ topResults ∧ param ∈ params
        ∧ parameters result !! name param = Some (VNum c)
        ∧ variationOf param c v
        ∧ set = <[name param := VNum v]> (parameters result).
Proof.
  intros Hok fine. unfold fine, generateFineParameterSets.
  set (raw := topResults ≫= _).
  unfold removeDuplicateSets.
  destruct (removeDuplicateLoop_spec raw [] NoDup_nil_2)
    as (kept & -> & Hnd & Hsub & Hel).
  simpl in *. split_and!; [done| |].
  - etrans; [by apply sublist_length|]. unfold raw.
    apply length_bind_le. intros result _.
    apply length_bind_le. intros param Hp.
    etrans; [apply (length_bind_le _ _ 1); intros; simpl; lia|].
    rewrite Nat.mul_1_r. apply variations_length.
  - intros set Hset. apply Hel in Hset as [Hset|Hset];
      [by apply elem_of_nil in Hset|]. unfold raw in Hset.
    apply list_elem_of_bind in Hset as (result & Hset & Hr).
    apply list_elem_of_bind in Hset as (param & Hset & Hp).
    apply list_elem_of_bind in Hset as (v & Hset & Hv).
    apply list_elem_of_singleton in Hset as ->.
    destruct (variations_elem param (numberAt (parameters result) param) v)
      as (c & Hc & Hvo); [by apply (proj1 (Forall_forall _ _) Hok) | done |].
    exists result, param, c, v. split_and!; try done.
    unfold numberAt in Hc.
    destruct (parameters result !! name param) as [[]|]; congruence.
Qed.

Lemma generateFineParameterSets_around_top_witness :
  let fine := generateFineParameterSets [seedResult] [lengthParam] in
  NoDup fine
  ∧ (length fine ≤ length [seedResult] * (length [lengthParam] * 4))%nat
  ∧ ∀ set, set ∈ fine →
      ∃ result param c v,
        result ∈ [seedResult] ∧ param ∈ [lengthParam]
        ∧ parameters result !! name param = Some (VNum c)
        ∧ variationOf param c v
        ∧ set = <[name param := VNum v]> (parameters result).
Proof.
  apply (generateFineParameterSets_around_top [seedResult] [lengthParam]).
  apply Forall_singleton. unfold boundsOk. simpl. split_and!;
    [by vm_compute | by exists 5%Z | by exists 50%Z].
Defined.

(** *** Genetic operators *)

Lemma crossoverLoop_spec w parent1 parent2 params : ∀ offspring s,
  ∃ child,
    crossoverLoop w parent1 parent2 params offspring s
    = Done child (set_tick (tick s + length params) s)
    ∧ (∀ k, k ∉ name <$> params → child !! k = offspring !! k)
    ∧ ∀ i param, params !! i = Some param →
        name param ∉ name <$> drop (S i) params →
        child !! name param
        = genes (donor w parent1 parent2 (tick s + i)) !! name param.
Proof.
  induction params as [|param rest IH]; intros offspring s.
  { exists offspring. simpl. rewrite Nat.add_0_r, set_tick_same.
    split_and!; [done..|]. intros i param Hi. by rewrite lookup_nil in Hi. }
  simpl. unfold random. run_monad.
  match goal with
  | |- context [crossoverLoop w parent1 parent2 rest ?o ?st] =>
      destruct (IH o st) as (child & Hrun & Hout & Hin)
  end.
  simpl in Hrun, Hin. exists child. rewrite Hrun, set_tick_twice.
  split_and!.
  - f_equal. f_equal. lia.
  - intros k Hk. rewrite Hout.
    + apply lookup_partial_alter_ne. intros <-. apply Hk. by left.
    + intros Hr. apply Hk. by right.
  - intros [|i] p Hi Hlast; simpl in Hi, Hlast.
    + injection Hi as <-. rewrite drop_0 in Hlast. rewrite (Hout _ Hlast).
      rewrite lookup_partial_alter_eq. unfold donor.
      by rewrite Nat.add_0_r.
    + rewrite (Hin i p Hi Hlast).
      by replace (tick s + S i)%nat with (S (tick s) + i)%nat by lia.
Qed.

(** X8.  [crossover] makes one draw for each parameter and returns an offspring
    with genes for the declared parameters only; the gene of a parameter is
    the gene of the first parent if the draw made for it is below 1/2, and
    of the second parent otherwise (for a name declared more than once, the
    last declaration decides). *)
Theorem crossover_inherits w parent1 parent2 params s :
  ∃ offspring,
    crossover w parent1 parent2 params s
    = Done offspring (set_tick (tick s + length params) s)
    ∧ (∀ k, k ∉ name <$> params → offspring !! k = None)
    ∧ (∀ i param, params !! i = Some param →
         name param ∉ name <$> drop (S i) params →
         offspring !! name param
         = genes (donor w parent1 parent2 (tick s + i)) !! name param)
    ∧ ∀ k, genes parent1 !! k = genes parent2 !! k → k ∈ name <$> params →
           offspring !! k = genes parent1 !! k.
Proof.
  unfold crossover.
  destruct (crossoverLoop_spec w parent1 parent2 params ∅ s)
    as (child & Hrun & Hout & Hin).
  exists child. split_and!; [done| |done|].
  - intros k Hk. by rewrite (Hout k Hk).
  - intros k Hsame Hk.
    assert (Hlast : ∃ i param, params !! i = Some param ∧ name param = k
                      ∧ k ∉ name <$> drop (S i) params).
    { clear -Hk. induction params as [|p rest IH]; [by apply elem_of_nil in Hk|].
      destruct (decide (k ∈ name <$> rest)) as [Hr|Hr].
      - destruct (IH Hr) as (i & q & Hi & Hq & Hl). by exists (S i), q.
      - exists 0%nat, p. simpl. rewrite drop_0. split_and!; try done.
        simpl in Hk. apply elem_of_cons in Hk as [->|Hk]; done. }
    destruct Hlast as (i & param & Hi & <- & Hl).
    rewrite (Hin i param Hi Hl). unfold donor. by destruct (decide _).
Qed.

Lemma pick_unfold w population s :
  population ≠ [] →
  ∃ x, population !! drawnIndex w (length population) (tick s) = Some x
       ∧ pick w population s = Done x (set_tick (S (tick s)) s).
Proof.
  intros Hne. unfold pick, random, element. run_monad.
  destruct (lookup_lt_is_Some_2 population
              (drawnIndex w (length population) (tick s))) as [x Hx].
  { apply random_index. destruct population; [done|simpl; lia]. }
  exists x. split; [done|]. unfold drawnIndex in Hx. by rewrite Hx.
Qed.

Lemma selectParent_spec w population s :
  population ≠ [] →
  ∃ a b c winner,
    population !! drawnIndex w (length population) (tick s) = Some a
    ∧ population !! drawnIndex w (length population) (tick s + 1) = Some b
    ∧ population !! drawnIndex w (length population) (tick s + 2) = Some c
    ∧ selectParent w population s = Done winner (set_tick (tick s + 3) s)
    ∧ (fitnessOr0 a ≤ fitnessOr0 winner ∧ fitnessOr0 b ≤ fitnessOr0 winner
       ∧ fitnessOr0 c ≤ fitnessOr0 winner)
    ∧ (winner = a
       ∨ (winner = b ∧ fitnessOr0 a < fitnessOr0 b)
       ∨ (winner = c ∧ fitnessOr0 a < fitnessOr0 c
          ∧ fitnessOr0 b < fitnessOr0 c)).
Proof.
  intros Hne. unfold selectParent.
  destruct (pick_unfold w population s Hne) as (a & Ha & Hpa).
  destruct (pick_unfold w population (set_tick (S (tick s)) s) Hne)
    as (b & Hb & Hpb).
  destruct (pick_unfold w population (set_tick (S (S (tick s))) s) Hne)
    as (c & Hc & Hpc).
  simpl in Hb, Hc, Hpb, Hpc.
  replace (tick s + 1)%nat with (S (tick s)) by lia.
  replace (tick s + 2)%nat with (S (S (tick s))) by lia.
  replace (tick s + 3)%nat with (S (S (S (tick s)))) by lia.
  rewrite set_tick_twice in Hpb, Hpc.
  set (best := if decide (fitnessOr0 a < fitnessOr0 b) then b else a).
  assert (Hrun : selectParent w population s
                 = Done (if decide (fitnessOr0 best < fitnessOr0 c)
                         then c else best)
                     (set_tick (S (S (S (tick s)))) s)).
  { unfold selectParent. rewrite bind_unfold, Hpa, bind_unfold, Hpb.
    run_monad. by rewrite Hpc. }
  unfold selectParent in Hrun. rewrite Hrun. unfold best. clear Hrun best.
  exists a, b, c. eexists. split_and!; [done..| | | |].
  - destruct (decide (fitnessOr0 a < fitnessOr0 b)) as [Hab|Hab];
      destruct (decide (_ < fitnessOr0 c)) as [Hc'|Hc']; try done.
    + apply Qclt_le_weak. by trans (fitnessOr0 b).
    + by apply Qclt_le_weak.
    + by apply Qclt_le_weak.
  - destruct (decide (fitnessOr0 a < fitnessOr0 b)) as [Hab|Hab];
      destruct (decide (_ < fitnessOr0 c)) as [Hc'|Hc']; try done.
    + by apply Qclt_le_weak.
    + apply Qcnot_lt_le in Hab. apply Qclt_le_weak.
      by apply Qcle_lt_trans with (fitnessOr0 a).
    + by apply Qcnot_lt_le.
  - destruct (decide (fitnessOr0 a < fitnessOr0 b)) as [Hab|Hab];
      destruct (decide (_ < fitnessOr0 c)) as [Hc'|Hc']; try done;
      by apply Qcnot_lt_le.
  - destruct (decide (fitnessOr0 a < fitnessOr0 b)) as [Hab|Hab];
      destruct (decide (_ < fitnessOr0 c)) as [Hc'|Hc']; auto.
    + right. right. split_and!; [done| |done]. by trans (fitnessOr0 b).
    + right. right. split_and!; [done..|]. apply Qcnot_lt_le in Hab.
      by apply Qcle_lt_trans with (fitnessOr0 a).
Qed.

(** X9.  [selectParent] is a tournament of three draws with replacement: it
    returns the drawn individual of the highest fitness (a missing fitness
    counts as 0), the earliest drawn among equals. *)
Theorem selectParent_tournament w population s :
  population ≠ [] →
  ∃ a b c winner,
    population !! drawnIndex w (length population) (tick s) = Some a
    ∧ population !! drawnIndex w (length population) (tick s + 1) = Some b
    ∧ population !! drawnIndex w (length population) (tick s + 2) = Some c
    ∧ selectParent w population s = Done winner (set_tick (tick s + 3) s)
    ∧ winner ∈ population
    ∧ (fitnessOr0 a ≤ fitnessOr0 winner ∧ fitnessOr0 b ≤ fitnessOr0 winner
       ∧ fitnessOr0 c ≤ fitnessOr0 winner)
    ∧ (winner = a
       ∨ (winner = b ∧ fitnessOr0 a < fitnessOr0 b)
       ∨ (winner = c ∧ fitnessOr0 a < fitnessOr0 c
          ∧ fitnessOr0 b < fitnessOr0 c)).
Proof.
  intros Hne.
  destruct (selectParent_spec w population s Hne)
    as (a & b & c & winner & Ha & Hb & Hc & Hrun & Hmax & Hwho).
  exists a, b, c, winner. split_and!; try done; try apply Hmax.
  destruct Hwho as [->|[[-> _]|[-> _]]]; by eapply list_elem_of_lookup_2.
Qed.

Lemma selectParent_tournament_witness :
  ∃ a b c winner,
    [fourteen] !! drawnIndex demoWorld (length [fourteen]) (tick newOptimizer)
    = Some a
    ∧ [fourteen] !! drawnIndex demoWorld (length [fourteen])
                      (tick newOptimizer + 1) = Some b
    ∧ [fourteen] !! drawnIndex demoWorld (length [fourteen])
                      (tick newOptimizer + 2) = Some c
    ∧ selectParent demoWorld [fourteen] newOptimizer
      = Done winner (set_tick (tick newOptimizer + 3) newOptimizer)
    ∧ winner ∈ [fourteen]
    ∧ (fitnessOr0 a ≤ fitnessOr0 winner ∧ fitnessOr0 b ≤ fitnessOr0 winner
       ∧ fitnessOr0 c ≤ fitnessOr0 winner)
    ∧ (winner = a
       ∨ (winner = b ∧ fitnessOr0 a < fitnessOr0 b)
       ∨ (winner = c ∧ fitnessOr0 a < fitnessOr0 c
          ∧ fitnessOr0 b < fitnessOr0 c)).
Proof.
  apply (selectParent_tournament demoWorld [fourteen] newOptimizer).
  discriminate.
Defined.

Lemma mutate_outside w params : ∀ individual s,
  ∃ result n,
    mutate w individual params s = Done result (set_tick n s)
    ∧ ∀ k, k ∉ name <$> params → result !! k = individual !! k.
Proof.
  induction params as [|param rest IH]; intros individual s.
  { exists individual, (tick s). simpl. by rewrite set_tick_same. }
  simpl. unfold random. run_monad.
  destruct (decide (rndQ (w_random w (tick s)) < mutationRate)) as [Hlt|Hge].
  - destruct (generateRandomValue_unfold w param (set_tick (S (tick s)) s))
      as (n1 & _ & Hv). rewrite Hv, set_tick_twice.
    match goal with
    | |- context [mutate w ?i rest ?st] =>
        destruct (IH i st) as (result & n & Hrun & Hout)
    end.
    exists result, n. rewrite Hrun, set_tick_twice. split; [done|].
    intros k Hk. rewrite Hout.
    + apply lookup_insert_ne. intros <-. apply Hk. by left.
    + intros Hin. apply Hk. by right.
  - destruct (IH individual (set_tick (S (tick s)) s))
      as (result & n & Hrun & Hout).
    exists result, n. rewrite Hrun, set_tick_twice. split; [done|].
    intros k Hk. apply Hout. intros Hin. apply Hk. by right.
Qed.

Lemma breed_newcomer w population params s :
  population ≠ [] →
  ∃ child n,
    breed w population params s = Done child (set_tick n s)
    ∧ newcomer params child.
Proof.
  intros Hne. unfold breed.
  destruct (selectParent_spec w population s Hne)
    as (_ & _ & _ & parent1 & _ & _ & _ & Hp1 & _).
  rewrite bind_unfold, Hp1.
  destruct (selectParent_spec w population (set_tick (tick s + 3) s) Hne)
    as (_ & _ & _ & parent2 & _ & _ & _ & Hp2 & _).
  rewrite bind_unfold, Hp2, set_tick_twice. unfold crossover.
  match goal with
  | |- context [set_tick ?t s] =>
      destruct (crossoverLoop_spec w parent1 parent2 params ∅ (set_tick t s))
        as (offspring & Hc & Hout & _)
  end.
  rewrite bind_unfold, Hc, set_tick_twice. unfold random. run_monad.
  destruct (decide _) as [Hlt|Hge].
  - match goal with
    | |- context [mutate w offspring params ?st] =>
        destruct (mutate_outside w params offspring st)
          as (result & n & Hm & Hkeep)
    end.
    rewrite Hm, set_tick_twice. eexists _, _. split; [done|].
    split; [done|]. simpl. intros k Hk. by rewrite (Hkeep k Hk), (Hout k Hk).
  - eexists _, _. split; [done|]. split; [done|]. simpl.
    intros k Hk. by rewrite (Hout k Hk).
Qed.

Lemma offspringLoop_spec w population params n :
  population ≠ [] → ∀ newPopulation s,
  ∃ children t,
    offspringLoop w population params n newPopulation s
    = Done (newPopulation ++ children) (set_tick t s)
    ∧ length children = n
    ∧ Forall (newcomer params) children.
Proof.
  intros Hne. induction n as [|n IH]; intros newPopulation s; simpl.
  { exists [], (tick s). by rewrite app_nil_r, set_tick_same. }
  destruct (breed_newcomer w population params s Hne) as (child & t & Hb & Hf).
  rewrite bind_unfold, Hb.
  destruct (IH (newPopulation ++ [child]) (set_tick t s))
    as (children & t' & Hrun & Hlen & Hall).
  exists (child :: children), t'.
  rewrite Hrun, set_tick_twice, <-(assoc_L (++)). simpl.
  split_and!; [done | by rewrite Hlen | by constructor].
Qed.

Lemma eliteCount_le population : (5 * eliteCount population ≤ length population)%nat.
Proof.
  unfold eliteCount. set (n := length population).
  assert (H : (5 * jsFloor (Qc_of_nat n * Q2Qc (2 # 10)) ≤ Z.of_nat n)%Z).
  { apply Qc_of_Z_le. 
    assert (Hq : Qc_of_Z (5 * jsFloor (Qc_of_nat n * Q2Qc (2 # 10)))
                 = Qc_of_Z 5 * Qc_of_Z (jsFloor (Qc_of_nat n * Q2Qc (2 # 10)))).
    { apply Qc_is_canon. unfold Qc_of_Z. simpl.
      rewrite !Qred_correct. by rewrite inject_Z_mult. }
    rewrite Hq.
    apply Qcle_trans with (Qc_of_Z 5 * (Qc_of_nat n * Q2Qc (2 # 10))).
    - rewrite !(Qcmult_comm (Qc_of_Z 5)). apply Qcmult_le_compat_r;
        [apply jsFloor_le | by vm_compute].
    - rewrite (Qcmult_comm (Qc_of_nat n)), Qcmult_assoc.
      assert (Hfrac : Qc_of_Z 5 * Q2Qc (2 # 10) ≤ 1) by (by vm_compute).
      etrans; [apply Qcmult_le_compat_r; [exact Hfrac|]|].
      + rewrite <-Qc_of_nat_0. apply Qc_of_nat_le. lia.
      + rewrite Qcmult_1_l. apply Qcle_refl. }
  lia.
Qed.

(** X10.  [evolvePopulation] keeps the size of the population.  The first
    [floor(0.2 * size)] places, a fifth of it at most, hold the individuals
    of the highest fitness in descending order, as they are; every other
    place holds an offspring, which has no fitness and has genes for the
    declared parameters only. *)
Theorem evolvePopulation_elitism w population params s :
  ∃ newPopulation t,
    evolvePopulation w population params s
    = Done newPopulation (set_tick t s)
    ∧ length newPopulation = length population
    ∧ (5 * eliteCount population ≤ length population)%nat
    ∧ take (eliteCount population) newPopulation
      = take (eliteCount population) (sortDesc fitnessOr0 population)
    ∧ (∀ elite other,
         elite ∈ take (eliteCount population) newPopulation →
         other ∈ drop (eliteCount population) (sortDesc fitnessOr0 population) →
         fitnessOr0 other ≤ fitnessOr0 elite)
    ∧ ∀ child, child ∈ drop (eliteCount population) newPopulation →
               newcomer params child.
Proof.
  pose proof (eliteCount_le population) as Hfifth.
  pose proof (sortDesc_sorted fitnessOr0 population) as Hsorted.
  pose proof (sortDesc_length fitnessOr0 population) as Hlen.
  unfold evolvePopulation. rewrite Hlen. fold (eliteCount population).
  set (sorted := sortDesc fitnessOr0 population) in *.
  set (e := eliteCount population) in *.
  assert (Helite : length (take e sorted) = e)
    by (rewrite length_take; lia).
  destruct (decide (population = [])) as [->|Hne].
  { exists [], (tick s). unfold sorted. simpl. rewrite set_tick_same.
    split_and!; try done.
    - intros ? ? Hin. by apply elem_of_nil in Hin.
    - intros ? Hin. by apply elem_of_nil in Hin. }
  assert (Hne' : sorted ≠ []).
  { intros Hnil. apply Hne. apply length_zero_iff_nil.
    by rewrite <-Hlen, Hnil. }
  destruct (offspringLoop_spec w sorted params
              (length population - length (take e sorted)) Hne'
              (take e sorted) s) as (children & t & Hrun & Hn & Hfresh).
  exists (take e sorted ++ children), t. rewrite Hrun.
  split_and!; try done.
  - rewrite length_app, Hn, Helite. lia.
  - by rewrite take_app_length'.
  - rewrite take_app_length' by done. intros elite other He Ho.
    rewrite <-(take_drop e sorted) in Hsorted.
    by apply (StronglySorted_app_1_elem_of _ _ _ elite other Hsorted).
  - rewrite drop_app_length' by done. intros child Hc.
    by apply (proj1 (Forall_forall _ _) Hfresh).
Qed.

Lemma randomGenes_spec w params :
  Forall boundsOk params → ∀ individual s,
  ∃ g t,
    randomGenes w params individual s = Done g (set_tick t s)
    ∧ (∀ k, k ∉ name <$> params → g !! k = individual !! k)
    ∧ ∀ k, k ∈ name <$> params →
        ∃ param v, param ∈ params ∧ name param = k
                   ∧ g !! k = Some v ∧ withinBounds param v.
Proof.
  induction params as [|param rest IH]; intros Hok individual s.
  { exists individual, (tick s). simpl. rewrite set_tick_same.
    split_and!; [done..|]. intros k Hk. by apply elem_of_nil in Hk. }
  apply Forall_cons in Hok as [Hp Hok]. simpl.
  destruct (generateRandomValue_unfold w param s) as (n1 & _ & Hv).
  rewrite bind_unfold, Hv.
  match goal with
  | |- context [randomGenes w rest ?i ?st] =>
      destruct (IH Hok i st) as (g & t & Hrun & Hout & Hin)
  end.
  exists g, t. rewrite Hrun, set_tick_twice. split_and!; [done| |].
  - intros k Hk. rewrite Hout.
    + apply lookup_insert_ne. intros <-. apply Hk. by left.
    + intros Hr. apply Hk. by right.
  - intros k Hk. destruct (decide (k ∈ name <$> rest)) as [Hr|Hr].
    + destruct (Hin k Hr) as (q & v & Hq & Hn & Hg & Hb).
      exists q, v. split_and!; try done. by right.
    + apply elem_of_cons in Hk as [->|Hk]; [|done].
      exists param, (drawnValue param (w_random w (tick s))).
      split_and!; [by left | done | | by apply drawnValue_withinBounds].
      rewrite (Hout _ Hr). apply lookup_insert_eq.
Qed.

Lemma fillPopulation_spec w params n :
  Forall boundsOk params → ∀ population s,
  ∃ drawn t,
    fillPopulation w params n population s
    = Done (population ++ drawn) (set_tick t s)
    ∧ length drawn = n
    ∧ Forall (λ individual, newcomer params individual
                            ∧ genesInBounds params individual) drawn.
Proof.
  intros Hok. induction n as [|n IH]; intros population s; simpl.
  { exists [], (tick s). by rewrite app_nil_r, set_tick_same. }
  destruct (randomGenes_spec w params Hok ∅ s) as (g & t & Hg & Hout & Hin).
  rewrite bind_unfold, Hg.
  destruct (IH (population ++ [mkIndividual g None]) (set_tick t s))
    as (drawn & t' & Hrun & Hlen & Hall).
  exists (mkIndividual g None :: drawn), t'.
  rewrite Hrun, set_tick_twice, <-(assoc_L (++)). simpl.
  split_and!; [done | by rewrite Hlen |]. constructor; [|done].
  split; [split; [done|]|done]. simpl. intros k Hk. by rewrite (Hout k Hk).
Qed.

(** X11.  [initializePopulation] sorts the log and returns a population that
    begins with seeds, the results [getTopResults(Math.min(5, size))]
    returns (the five best on record at most; for a negative [size], all
    but the last [-size] of the sorted log), with their scores for fitness.
    It goes on with individuals drawn at random until there are [size] in
    all: they have no fitness and, for each declared parameter, a gene
    within its bounds. *)
Theorem initializePopulation_seeds_then_draws w params size s :
  Forall boundsOk params →
  let seeds := sliceTo (sortDesc score (results s)) (Z.min 5 size) in
  ∃ population t,
    initializePopulation w params size s
    = Done population
        (set_tick t (set_results (sortDesc score (results s)) s))
    ∧ length population = Nat.max (Z.to_nat size) (length seeds)
    ∧ ((0 ≤ size)%Z →
       length population = Z.to_nat size
       ∧ seeds = take (Z.to_nat (Z.min 5 size)) (sortDesc score (results s)))
    ∧ ((size < 0)%Z →
       seeds = take (length (results s) - Z.to_nat (- size))
                 (sortDesc score (results s)))
    ∧ take (length seeds) population = seed <$> seeds
    ∧ ∀ individual, individual ∈ drop (length seeds) population →
        newcomer params individual ∧ genesInBounds params individual.
Proof.
  intros Hok seeds. unfold initializePopulation, getTopResultsUpTo. run_monad.
  fold seeds. fold (seed <$> seeds).
  match goal with
  | |- context [fillPopulation w params ?n ?p ?st] =>
      destruct (fillPopulation_spec w params n Hok p st)
        as (drawn & t & Hrun & Hlen & Hall)
  end.
  exists (fmap seed seeds ++ drawn), t.
  assert (Hseeds : length (seed <$> seeds) = length seeds)
    by apply length_fmap.
  assert (Hmany : (0 ≤ size)%Z → (length seeds ≤ Z.to_nat size)%nat).
  { intros Hsize.
    pose proof (sliceTo_length (sortDesc score (results s)) (Z.min 5 size)).
    unfold seeds. lia. }
  rewrite !length_fmap in Hlen.
  split_and!.
  - exact Hrun.
  - rewrite length_app, Hlen, Hseeds.
    destruct (decide (0 ≤ size)%Z) as [Hsize|Hsize];
      [specialize (Hmany Hsize)|]; lia.
  - intros Hsize. specialize (Hmany Hsize). split.
    + rewrite length_app, Hlen, Hseeds. lia.
    + unfold seeds, sliceTo. by rewrite decide_True by lia.
  - intros Hsize. unfold seeds, sliceTo. rewrite decide_False by lia.
    rewrite sortDesc_length. by rewrite Z.min_r by lia.
  - by rewrite <-Hseeds, take_app_length.
  - rewrite <-Hseeds, drop_app_length. intros individual Hin.
    by apply (proj1 (Forall_forall _ _) Hall).
Qed.

Lemma initializePopulation_seeds_then_draws_witness :
  let seeds := sliceTo (sortDesc score (results midRun)) (Z.min 5 10) in
  ∃ population t,
    initializePopulation demoWorld [lengthParam] 10 midRun
    = Done population
        (set_tick t (set_results (sortDesc score (results midRun)) midRun))
    ∧ length population = Nat.max (Z.to_nat 10) (length seeds)
    ∧ ((0 ≤ 10)%Z →
       length population = Z.to_nat 10
       ∧ seeds = take (Z.to_nat (Z.min 5 10))
                   (sortDesc score (results midRun)))
    ∧ ((10 < 0)%Z →
       seeds = take (length (results midRun) - Z.to_nat (- 10))
                 (sortDesc score (results midRun)))
    ∧ take (length seeds) population = seed <$> seeds
    ∧ ∀ individual, individual ∈ drop (length seeds) population →
        newcomer [lengthParam] individual
        ∧ genesInBounds [lengthParam] individual.
Proof.
  apply (initializePopulation_seeds_then_draws demoWorld [lengthParam] 10
           midRun).
  apply Forall_singleton. unfold boundsOk. simpl. split_and!;
    [by vm_compute | by exists 5%Z | by exists 50%Z].
Defined.

(** Seeding at work: on a log of three results, a population of four begins
    with the three results in descending order of score, and a population
    of size -1 consists of the two best of them. *)
Lemma initializePopulation_seeds_examples :
  match initializePopulation demoWorld [lengthParam] 4 threeResults with
  | Done population _ =>
      fitness <$> population
      = [Some (Qc_of_Z 80); Some (Qc_of_Z 65); Some (Qc_of_Z 50); None]
  | _ => False
  end
  ∧ match initializePopulation demoWorld [lengthParam] (-1) threeResults with
    | Done population _ =>
        fitness <$> population = [Some (Qc_of_Z 80); Some (Qc_of_Z 65)]
    | _ => False
    end.
Proof. split; by vm_compute. Qed.

(** X12.  With a budget under ten evaluations [geneticOptimization] runs no
    generation: it builds a population, which sorts the log and draws
    random numbers, and returns without having evaluated or reported
    anything. *)
Theorem geneticOptimization_needs_ten w params iterations s :
  (iterations < 10)%Z →
  ∃ t, geneticOptimization w params iterations s
       = Done tt (set_tick t (set_results (sortDesc score (results s)) s)).
Proof.
  intros Hsmall. unfold geneticOptimization.
  assert (Z.min 20 (Z.max 10 (iterations / 5)) = 10%Z) as ->.
  { assert (iterations / 5 < 2)%Z by (apply Z.div_lt_upper_bound; lia). lia. }
  assert (Z.to_nat (iterations / 10) = 0%nat) as ->.
  { assert (iterations / 10 < 1)%Z by (apply Z.div_lt_upper_bound; lia). lia. }
  unfold initializePopulation, getTopResultsUpTo. run_monad.
  match goal with
  | |- context [fillPopulation w params ?n ?p ?st] =>
      destruct (ticks_fillPopulation w params n p st) as (population & t & Hrun & _)
  end.
  rewrite Hrun. by exists t.
Qed.

Lemma geneticOptimization_needs_ten_witness :
  ∃ t, geneticOptimization demoWorld [lengthParam] 9 newOptimizer
       = Done tt
           (set_tick t
              (set_results (sortDesc score (results newOptimizer))
                 newOptimizer)).
Proof.
  apply (geneticOptimization_needs_ten demoWorld [lengthParam] 9 newOptimizer).
  lia.
Defined.

(** *** The busy flag *)

(** X13.  [optimize] refuses a call made while a run is in progress and leaves
    the object as it is.  A call on an idle optimizer ends with the flag
    lowered, by a return or by an exception alike, with the callback still
    registered and the description of the run in place: the optimizer is
    ready for another run. *)
Theorem optimize_flag_protocol w params settings s :
  if isOptimizing s
  then optimize w params settings s
       = Thrown "Optimization already in progress" s
  else ∃ s', finalState (optimize w params settings s) = Some s'
             ∧ isOptimizing s' = false
             ∧ progressCallback s' = progressCallback s
             ∧ currentOptimization s'
               = Some (runConfig w params settings s).
Proof.
  destruct (isOptimizing s) eqn:Hflag.
  { unfold optimize. run_monad. by rewrite Hflag. }
  pose proof (optimize_run w params settings s Hflag) as Hrun. simpl in Hrun.
  destruct (optimize w params settings s) as [c s'|e s'|]; [| |done].
  - destruct Hrun as (s1 & [Hsteps _] & _ & _ & ->).
    eexists. split; [done|]. simpl.
    by rewrite (steps_callback _ _ Hsteps), (steps_run _ _ Hsteps).
  - destruct Hrun as (s1 & s2 & [Hsteps _] & _ & (cb & p & _ & _ & _ & _ & ->) & ->).
    eexists. split; [done|]. simpl.
    by rewrite (steps_callback _ _ Hsteps), (steps_run _ _ Hsteps).
Qed.

(** *** The budgets of the search phases *)

Lemma spec_run {A} (m : M A) s n (Q : A → Optimizer → Prop) :
  Inv s → spec m s n Q →
  match m s with
  | Done _ s' =>
      Inv s' ∧ (length (results s') ≤ length (results s) + n)%nat
  | Thrown e s' => ∃ s0, Inv s0 ∧ throwsAt e s0 s'
  | OutOfFuel => False
  end.
Proof.
  intros HI Hspec. unfold spec, wp in Hspec. destruct (m s) as [a s'|e s'|].
  - destruct Hspec as [[Hsteps Hlen] _]. split; [|done].
    by eapply Inv_steps.
  - destruct Hspec as (s0 & [Hsteps _] & Hthrow). exists s0.
    split; [by eapply Inv_steps | done].
  - done.
Qed.

(** X14.  [geneticOptimization] ends, whatever the draws and the scores, having
    added at most [iterations] results to the log (the generations times
    the size of the population do not exceed the budget); the log and the
    best pointer stay consistent.  The one exception it can end by is the
    exception of the progress callback. *)
Theorem geneticOptimization_within_budget w params iterations s :
  Inv s →
  match geneticOptimization w params iterations s with
  | Done _ s' =>
      Inv s'
      ∧ (length (results s') ≤ length (results s) + Z.to_nat iterations)%nat
  | Thrown e s' => ∃ s0, Inv s0 ∧ throwsAt e s0 s'
  | OutOfFuel => False
  end.
Proof.
  intros HI. eapply spec_run; [done|].
  apply spec_geneticOptimization, (inv_run _ HI).
Qed.

Lemma geneticOptimization_within_budget_witness :
  match geneticOptimization demoWorld [lengthParam] 20 midRun with
  | Done _ s' =>
      Inv s'
      ∧ (length (results s') ≤ length (results midRun) + Z.to_nat 20)%nat
  | Thrown e s' => ∃ s0, Inv s0 ∧ throwsAt e s0 s'
  | OutOfFuel => False
  end.
Proof.
  apply (geneticOptimization_within_budget demoWorld [lengthParam] 20 midRun).
  apply Inv_evaluation; [apply Inv_start | reflexivity | reflexivity].
Defined.

(** X15.  [localSearchOptimization] ends: its [while] loop makes a new round only
    after a round that found a better neighbor, and every evaluation counts
    against [iterations], so that at most [iterations] results are added to
    the log; the log and the best pointer stay consistent. *)
Theorem localSearchOptimization_terminates w params iterations s :
  Inv s → is_Some (bestResult s) →
  match localSearchOptimization w params iterations s with
  | Done _ s' =>
      Inv s'
      ∧ (length (results s') ≤ length (results s) + Z.to_nat iterations)%nat
  | Thrown e s' => ∃ s0, Inv s0 ∧ throwsAt e s0 s'
  | OutOfFuel => False
  end.
Proof.
  intros HI Hbest. eapply spec_run; [done|].
  apply spec_localSearchOptimization; [done | apply (inv_run _ HI)].
Qed.

Lemma localSearchOptimization_terminates_witness :
  match localSearchOptimization demoWorld [lengthParam] 20 midRun with
  | Done _ s' =>
      Inv s'
      ∧ (length (results s') ≤ length (results midRun) + Z.to_nat 20)%nat
  | Thrown e s' => ∃ s0, Inv s0 ∧ throwsAt e s0 s'
  | OutOfFuel => False
  end.
Proof.
  apply (localSearchOptimization_terminates demoWorld [lengthParam] 20 midRun).
  - apply Inv_evaluation; [apply Inv_start | reflexivity | reflexivity].
  - by eexists.
Defined.

(** *** The total announced to the progress callback *)

Lemma jsMin_le_r (x y : Qc) : jsMin x y ≤ y.
Proof.
  unfold jsMin. destruct (decide (y < x)); [apply Qcle_refl|].
  by apply Qcnot_lt_le.
Qed.

Lemma jsMin_nonneg (x y : Qc) : 0 ≤ x → 0 ≤ y → 0 ≤ jsMin x y.
Proof. unfold jsMin. by destruct (decide _). Qed.

Lemma totalIterations_fold params : ∀ a,
  Forall gridCountable params → 0 ≤ a →
  ∃ q, foldl (λ total param,
                match type param with
                | TBoolean => jsnMul total (jsnOfZ 2)
                | TInteger | TFloat =>
                    jsnMul total
                      (jsnMin (jsnOfZ 10)
                         (jsDiv (max param - min param) (step param)))
                | TOther => total
                end) (Fin a) params = Fin q
       ∧ 0 ≤ q.
Proof.
  induction params as [|param rest IH]; intros a Hok Ha; cbn [foldl].
  { by exists a. }
  apply Forall_cons in Hok as [Hp Hok]. unfold gridCountable, isNumeric in Hp.
  assert (Hnum : type param = TInteger ∨ type param = TFloat →
            ∃ k, jsnMin (jsnOfZ 10)
                   (jsDiv (max param - min param) (step param)) = Fin k
                 ∧ 0 ≤ k).
  { intros Hty.
    destruct Hp as [Hle Hstep]; [by destruct Hty as [-> | ->]|].
    unfold jsDiv. rewrite decide_False.
    2:{ intros Hz. rewrite Hz in Hstep. by apply Qclt_not_eq in Hstep. }
    eexists. split; [reflexivity|]. apply jsMin_nonneg; [by vm_compute|].
    unfold Qcdiv. apply Qcmult_nonneg.
    - unfold Qcminus. rewrite <-(Qcplus_opp_r (min param)).
      by apply Qcplus_le_compat; [|apply Qcle_refl].
    - apply Qcinv_nonneg. by apply Qclt_le_weak. }
  destruct (type param) eqn:Hty.
  - cbn [jsnMul jsnOfZ]. apply IH; [done|].
    apply Qcmult_nonneg; [done | by vm_compute].
  - destruct Hnum as (k & -> & Hk); [by left|]. cbn [jsnMul].
    apply IH; [done|]. by apply Qcmult_nonneg.
  - destruct Hnum as (k & -> & Hk); [by right|]. cbn [jsnMul].
    apply IH; [done|]. by apply Qcmult_nonneg.
  - by apply IH.
Qed.

(** X16.  For parameters whose grids can be counted, [calculateTotalIterations]
    is a number between 0 and [maxIterations]: the product of the
    per-parameter counts (2 for a boolean, at most 10 for a numeric
    parameter), capped by the budget. *)
Theorem totalIterations_capped params config :
  Forall gridCountable params → (0 ≤ maxIterations config)%Z →
  ∃ q, calculateTotalIterations params config = Fin q
       ∧ 0 ≤ q ≤ Qc_of_Z (maxIterations config).
Proof.
  intros Hok Hbudget. unfold calculateTotalIterations.
  destruct (totalIterations_fold params (Qc_of_Z 1) Hok) as (q & Hq & Hq0).
  { by vm_compute. }
  cbv zeta. change (jsnOfZ 1) with (Fin (Qc_of_Z 1)). rewrite Hq.
  cbn [jsnMin jsnOfZ]. eexists. split; [reflexivity|].
  split; [|apply jsMin_le_r].
  apply jsMin_nonneg; [done|]. rewrite <-Qc_of_Z_0.
  by apply (proj1 (Qc_of_Z_le _ _)).
Qed.

Lemma totalIterations_capped_witness :
  ∃ q, calculateTotalIterations [lengthParam] (makeConfig basicSettings) = Fin q
       ∧ 0 ≤ q ≤ Qc_of_Z (maxIterations (makeConfig basicSettings)).
Proof.
  apply (totalIterations_capped [lengthParam] (makeConfig basicSettings)).
  - apply Forall_singleton. intros _. split; by vm_compute.
  - by vm_compute.
Defined.

(** *** The basic profile left to itself *)

Lemma gridLoop_quiet w sets total :
  quiet w → ∀ n i s,
  Inv s → isOptimizing s = true → progressCallback s = None →
  length (results s) = i → results s = completionLog (trace s) →
  (i + n ≤ length sets)%nat →
  ∃ s', gridLoop w sets total n i s = Done tt s'
        ∧ Inv s' ∧ isOptimizing s' = true ∧ progressCallback s' = None
        ∧ results s' = completionLog (trace s')
        ∧ parameters <$> results s'
          = (parameters <$> results s) ++ take n (drop i sets).
Proof.
  intros Hquiet. induction n as [|n IH]; intros i s HI Hopt Hcb Hi Hlog Hlen.
  { exists s. simpl. rewrite take_0, app_nil_r. by split_and!. }
  destruct (lookup_lt_is_Some_2 sets i) as [p Hp]; [lia|].
  destruct (evaluate_unfold w p i s) as (r & Hri & Hrp & Hev).
  rewrite (Hquiet (S (tick s))) in Hev.
  set (s1 := afterEvaluation r false (S (S (S (S (tick s))))) s) in *.
  assert (HI1 : Inv s1) by (apply Inv_evaluation; [done..|congruence]).
  assert (Hstep : gridLoop w sets total (S n) i s
                  = gridLoop w sets total n (S i)
                      (set_tick (S (tick s1)) s1)).
  { simpl. unfold mbind, M_bind, bind, get. rewrite Hopt.
    unfold element. rewrite Hp. unfold ret. simpl. rewrite Hev.
    rewrite updateProgress_no_callback by done.
    unfold delay, nextTick, mbind, M_bind, bind. fold s1.
    rewrite (Hquiet (tick s1)). reflexivity. }
  rewrite Hstep. clear Hstep.
  destruct (IH (S i) (set_tick (S (tick s1)) s1))
    as (s' & Hrun & HI' & Hopt' & Hcb' & Hlog' & Hpar); try done.
  - eapply Inv_quiet; [exact HI1|done..].
  - simpl. rewrite length_app. simpl. lia.
  - simpl. rewrite completionLog_app. simpl. by rewrite <-Hlog.
  - lia.
  - exists s'. split_and!; try done. rewrite Hpar. simpl.
    rewrite fmap_app, <-(assoc_L (++)). f_equal. simpl.
    rewrite Hrp. by rewrite (drop_S _ _ _ Hp).
Qed.

(** X17.  A run of the basic profile that nobody stops or observes evaluates the
    first [maxIterations] candidates of the shuffled grid, one after the
    other and each once: the whole grid when the budget allows. *)
Theorem basic_run_walks_the_grid w params settings s :
  quiet w → isOptimizing s = false → progressCallback s = None →
  optimizationDepth (makeConfig settings) = "basic"%string →
  match optimize w params settings s with
  | Done c s' =>
      ∃ shuffled,
        shuffled ≡ₚ enumerateSets params "basic"
        ∧ parameters <$> completionLog (trace s')
          = take (Z.to_nat (maxIterations (makeConfig settings))) shuffled
        ∧ totalTests c
          = Nat.min (length (enumerateSets params "basic"))
              (Z.to_nat (maxIterations (makeConfig settings)))
  | _ => False
  end.
Proof.
  intros Hquiet Hidle Hcb Hbasic. rewrite optimize_unfold by done.
  unfold profile. rewrite decide_True by done.
  set (start := startOfRun _ _ _). unfold basicOptimization.
  destruct (ticks_generateParameterSets w params "basic" start)
    as (shuffled & t & Hgen & Hperm).
  rewrite bind_unfold, Hgen.
  set (maxSets := Z.min _ _).
  destruct (gridLoop_quiet w shuffled (jsnOfZ maxSets) Hquiet
              (Z.to_nat maxSets) 0 (set_tick t start))
    as (s1 & Hgrid & HI1 & _ & _ & Hlog & Hpar); try done.
  { eapply Inv_quiet; [apply Inv_start|done..]. }
  { unfold maxSets. lia. }
  rewrite bind_unfold, Hgrid.
  destruct (compileResults_unfold w s1) as (c & Hc & _ & Ht & _);
    [apply (inv_run _ HI1) | by apply Inv_best_is_Some |].
  rewrite Hc. exists shuffled. split; [done|].
  assert (Htake : take (Z.to_nat maxSets) shuffled
                  = take (Z.to_nat (maxIterations (makeConfig settings)))
                      shuffled).
  { unfold maxSets.
    destruct (Z.le_ge_cases (Z.of_nat (length shuffled))
                (maxIterations (makeConfig settings))).
    - rewrite Z.min_l, Nat2Z.id by done. rewrite !take_ge; [done|lia..].
    - by rewrite Z.min_r. }
  simpl in Hpar. rewrite drop_0, Htake in Hpar. split.
  - simpl. rewrite completionLog_app. simpl. rewrite app_nil_r.
    by rewrite <-Hlog.
  - rewrite Ht, <-(length_fmap parameters), Hpar, length_take, Hperm. lia.
Qed.

Lemma basic_run_walks_the_grid_witness :
  match optimize demoWorld [lengthParam] basicSettings newOptimizer with
  | Done c s' =>
      ∃ shuffled,
        shuffled ≡ₚ enumerateSets [lengthParam] "basic"
        ∧ parameters <$> completionLog (trace s')
          = take (Z.to_nat (maxIterations (makeConfig basicSettings))) shuffled
        ∧ totalTests c
          = Nat.min (length (enumerateSets [lengthParam] "basic"))
              (Z.to_nat (maxIterations (makeConfig basicSettings)))
  | _ => False
  end.
Proof.
  apply (basic_run_walks_the_grid demoWorld [lengthParam] basicSettings
           newOptimizer); [intros t|..]; reflexivity.
Defined.

(** *** The report of a completed run *)

Lemma sorted_head_max (first : EvaluationResult) rest x :
  descending (first :: rest) → x ∈ first :: rest → score x ≤ score first.
Proof.
  intros Hs [->|Hx]%elem_of_cons; [apply Qcle_refl|].
  apply StronglySorted_inv in Hs as [_ Hall].
  by apply (proj1 (Forall_forall _ _) Hall).
Qed.

Lemma bestOf_max log best :
  bestOf log = Some best →
  best ∈ log ∧ ∀ x, x ∈ log → score x ≤ score best.
Proof.
  intros (j & Hj & Hmax & _)%bestOf_earliestMax. split.
  - by eapply list_elem_of_lookup_2.
  - intros x (i & Hi)%list_elem_of_lookup_1. by eapply Hmax.
Qed.

(** What a run that completed leaves behind, and what its report says. *)
Lemma completed_run w params settings s c s' :
  isOptimizing s = false →
  optimize w params settings s = Done c s' →
  ∃ s1, Inv s1
        ∧ results s' = sortDesc score (results s1)
        ∧ bestResult s' = bestResult s1
        ∧ success c = true
        ∧ totalTests c = length (results s1)
        ∧ cp_bestResult c = bestResult s1
        ∧ topResults c = take 10 (sortDesc score (results s1))
        ∧ sm_bestScore (summary c) = bestScoreOr0 s1
        ∧ averageScore (summary c)
          = jsDiv (sumScores (sortDesc score (results s1)))
              (Qc_of_nat (length (sortDesc score (results s1))))
        ∧ improvement (summary c)
          = improvementFrom (sortDesc score (results s1)) (bestResult s1)
        ∧ sm_parameters (summary c)
          = from_option parameters ∅ (bestResult s1).
Proof.
  intros Hidle Hdone.
  pose proof (optimize_run w params settings s Hidle) as Hrun. simpl in Hrun.
  rewrite Hdone in Hrun. destruct Hrun as (s1 & _ & HI & Hc & ->).
  destruct (compileResults_unfold w s1) as (c' & Hc' & Hfields);
    [apply (inv_run _ HI) | by apply Inv_best_is_Some |].
  assert (c' = c) as -> by congruence.
  destruct Hfields as (? & ? & ? & ? & ? & ? & ? & ?).
  exists s1. by split_and!.
Qed.

Lemma top_is_best s1 first rest :
  Inv s1 → sortDesc score (results s1) = first :: rest →
  ∃ best, bestResult s1 = Some best
          ∧ best ∈ first :: rest
          ∧ score best = score first.
Proof.
  intros HI Hsort.
  pose proof (sortDesc_sorted score (results s1)) as Hdesc.
  pose proof (sortDesc_perm score (results s1)) as Hperm.
  rewrite Hsort in Hdesc, Hperm.
  destruct (Inv_best_is_Some s1 HI) as [best Hbest].
  { intros Hnil. rewrite Hnil in Hperm. by apply Permutation_nil_r in Hperm. }
  exists best. split; [done|].
  rewrite (inv_best _ HI) in Hbest.
  apply bestOf_max in Hbest as [Hin Hmax].
  rewrite <-(inv_log _ HI), <-Hperm in Hin.
  split; [done|]. apply Qcle_antisym.
  - by apply (sorted_head_max first rest).
  - apply Hmax. rewrite <-(inv_log _ HI), <-Hperm. by left.
Qed.

(** X18.  When [optimize] returns, the log is left in descending order of score,
    and the report agrees with it: [totalTests] is its length, [topResults]
    its first ten places, [bestResult] the best pointer, which is in the log
    and scores as much as the head of the log, and [averageScore] the mean
    of its scores. *)
Theorem report_agrees_with_log w params settings s :
  isOptimizing s = false →
  match optimize w params settings s with
  | Done c s' =>
      success c = true
      ∧ descending (results s')
      ∧ totalTests c = length (results s')
      ∧ topResults c = take 10 (results s')
      ∧ cp_bestResult c = bestResult s'
      ∧ averageScore (summary c)
        = jsDiv (sumScores (results s')) (Qc_of_nat (length (results s')))
      ∧ match results s' with
        | [] => bestResult s' = None
                ∧ sm_bestScore (summary c) = 0
                ∧ sm_parameters (summary c) = ∅
        | first :: _ =>
            ∃ best, bestResult s' = Some best
                    ∧ best ∈ results s'
                    ∧ score best = score first
                    ∧ sm_bestScore (summary c) = score first
                    ∧ sm_parameters (summary c) = parameters best
        end
  | _ => True
  end.
Proof.
  intros Hidle.
  destruct (optimize w params settings s) as [c s'| |] eqn:Hdone; [|done..].
  destruct (completed_run w params settings s c s' Hidle Hdone)
    as (s1 & HI & Hres & Hbest & Hs & Ht & Hb & Htop & Hbs & Havg & _ & Hpar).
  rewrite Hres, Hbest, Hs, Ht, Hb, Htop, Havg, Hbs, Hpar.
  split_and!; try done.
  - apply sortDesc_sorted.
  - by rewrite sortDesc_length.
  - destruct (sortDesc score (results s1)) as [|first rest] eqn:Hsort.
    + assert (Hnil : results s1 = []).
      { apply Permutation_nil_r. by rewrite <-Hsort, sortDesc_perm. }
      assert (Hnone : bestResult s1 = None).
      { rewrite (inv_best _ HI).
        assert (completionLog (trace s1) = []) as ->; [|done].
        apply Permutation_nil_r. by rewrite <-Hnil, (inv_log _ HI). }
      unfold bestScoreOr0. by rewrite Hnone.
    + destruct (top_is_best s1 first rest HI Hsort) as (best & Hb' & Hin & Heq).
      exists best. unfold bestScoreOr0. rewrite Hb'. by split_and!.
Qed.

Lemma report_agrees_with_log_witness :
  match optimize demoWorld [lengthParam] basicSettings newOptimizer with
  | Done c s' =>
      success c = true
      ∧ descending (results s')
      ∧ totalTests c = length (results s')
      ∧ topResults c = take 10 (results s')
      ∧ cp_bestResult c = bestResult s'
      ∧ averageScore (summary c)
        = jsDiv (sumScores (results s')) (Qc_of_nat (length (results s')))
      ∧ match results s' with
        | [] => bestResult s' = None
                ∧ sm_bestScore (summary c) = 0
                ∧ sm_parameters (summary c) = ∅
        | first :: _ =>
            ∃ best, bestResult s' = Some best
                    ∧ best ∈ results s'
                    ∧ score best = score first
                    ∧ sm_bestScore (summary c) = score first
                    ∧ sm_parameters (summary c) = parameters best
        end
  | _ => True
  end.
Proof.
  apply (report_agrees_with_log demoWorld [lengthParam] basicSettings
           newOptimizer).
  reflexivity.
Defined.

(** X19.  The [improvement] of every report is 0, or [NaN] when the best score is
    0: [calculateImprovement] runs after [getTopResults] has sorted the
    log, so the "first" score it reads is the best one. *)
Theorem improvement_is_void w params settings s :
  isOptimizing s = false →
  match optimize w params settings s with
  | Done c s' =>
      improvement (summary c) = Fin 0
      ∨ (improvement (summary c) = NaN ∧ sm_bestScore (summary c) = 0
         ∧ (2 ≤ totalTests c)%nat)
  | _ => True
  end.
Proof.
  intros Hidle.
  destruct (optimize w params settings s) as [c s'| |] eqn:Hdone; [|done..].
  destruct (completed_run w params settings s c s' Hidle Hdone)
    as (s1 & HI & _ & _ & _ & Ht & _ & _ & Hbs & _ & Himp & _).
  rewrite Himp, Hbs, Ht, <-(sortDesc_length score (results s1)).
  destruct (sortDesc score (results s1)) as [|first rest] eqn:Hsort;
    [by left|].
  destruct (top_is_best s1 first rest HI Hsort) as (best & Hb & _ & Heq).
  unfold improvementFrom, bestScoreOr0. rewrite Hb.
  destruct rest as [|second rest]; [by left|].
  rewrite Heq. unfold jsDiv.
  assert (score first - score first = 0) as -> by ring.
  destruct (decide (score first = 0)) as [Hz|Hnz].
  - right. simpl. split_and!; [done..|lia].
  - left. simpl. f_equal; try (unfold Qcdiv; ring).
Qed.

Lemma improvement_is_void_witness :
  match optimize demoWorld [lengthParam] basicSettings newOptimizer with
  | Done c s' =>
      improvement (summary c) = Fin 0
      ∨ (improvement (summary c) = NaN ∧ sm_bestScore (summary c) = 0
         ∧ (2 ≤ totalTests c)%nat)
  | _ => True
  end.
Proof.
  apply (improvement_is_void demoWorld [lengthParam] basicSettings
           newOptimizer).
  reflexivity.
Defined.

(** *** The standard profile left to itself *)

Lemma fineLoop_quiet w sets config :
  quiet w → ∀ n i s,
  Inv s → isOptimizing s = true → progressCallback s = None →
  (i + n ≤ length sets)%nat →
  ∃ s' new,
    fineLoop w sets config n i s = Done tt s'
    ∧ Inv s' ∧ isOptimizing s' = true ∧ progressCallback s' = None
    ∧ completionLog (trace s') = completionLog (trace s) ++ new
    ∧ parameters <$> new = take n (drop i sets).
Proof.
  intros Hquiet. induction n as [|n IH]; intros i s HI Hopt Hcb Hlen.
  { exists s, []. simpl. rewrite take_0, app_nil_r. by split_and!. }
  destruct (lookup_lt_is_Some_2 sets i) as [p Hp]; [lia|].
  destruct (evaluate_unfold w p (length (results s)) s)
    as (r & Hri & Hrp & Hev).
  rewrite (Hquiet (S (tick s))) in Hev.
  set (s1 := afterEvaluation r false (S (S (S (S (tick s))))) s) in *.
  assert (HI1 : Inv s1) by (by apply Inv_evaluation).
  assert (Hstep : fineLoop w sets config (S n) i s
                  = fineLoop w sets config n (S i)
                      (set_tick (S (tick s1)) s1)).
  { simpl. unfold mbind, M_bind, bind, get. rewrite Hopt.
    unfold element. rewrite Hp. unfold ret. simpl. rewrite Hev.
    rewrite updateProgress_no_callback by done.
    unfold delay, nextTick, mbind, M_bind, bind. fold s1.
    rewrite (Hquiet (tick s1)). reflexivity. }
  rewrite Hstep. clear Hstep.
  destruct (IH (S i) (set_tick (S (tick s1)) s1))
    as (s' & new & Hrun & HI' & Hopt' & Hcb' & Hlog & Hpar); try done.
  - eapply Inv_quiet; [exact HI1|done..].
  - lia.
  - exists s', (r :: new). split_and!; try done.
    + rewrite Hlog. simpl. rewrite completionLog_app. simpl.
      by rewrite <-(assoc_L (++)).
    + by rewrite fmap_cons, Hpar, Hrp, (drop_S _ _ _ Hp).
Qed.

Lemma take_min_length {A} (l : list A) (budget : Z) :
  take (Z.to_nat (Z.min (Z.of_nat (length l)) budget)) l
  = take (Z.to_nat budget) l.
Proof.
  destruct (Z.le_ge_cases (Z.of_nat (length l)) budget).
  - rewrite Z.min_l, Nat2Z.id by done. rewrite !take_ge; [done|lia..].
  - by rewrite Z.min_r.
Qed.

(** X20.  A run of the standard profile that nobody stops or observes has two
    phases.  The first evaluates the first [floor(0.6 * maxIterations)]
    candidates of the shuffled coarse grid; the second evaluates, as far as
    the rest of the budget goes and in their order, the fine sets made of
    the five best results of the first phase. *)
Theorem standard_run_refines_the_top w params settings s :
  quiet w → isOptimizing s = false → progressCallback s = None →
  optimizationDepth (makeConfig settings) ≠ "basic"%string →
  optimizationDepth (makeConfig settings) ≠ "deep"%string →
  match optimize w params settings s with
  | Done c s' =>
      ∃ shuffled coarse refined,
        shuffled ≡ₚ enumerateSets params "coarse"
        ∧ completionLog (trace s') = coarse ++ refined
        ∧ parameters <$> coarse
          = take (Z.to_nat (budgetShare (makeConfig settings) (Q2Qc (6 # 10))))
              shuffled
        ∧ parameters <$> refined
          = take (Z.to_nat (maxIterations (makeConfig settings)
                            - Z.of_nat (length coarse)))
              (generateFineParameterSets (take 5 (sortDesc score coarse))
                 params)
        ∧ totalTests c = length (coarse ++ refined)
  | _ => False
  end.
Proof.
  intros Hquiet Hidle Hcb Hnb Hnd. rewrite optimize_unfold by done.
  unfold profile. rewrite !decide_False by done.
  set (config := makeConfig settings).
  set (start := startOfRun _ _ _). unfold standardOptimization.
  destruct (ticks_generateParameterSets w params "coarse" start)
    as (shuffled & t & Hgen & Hperm).
  rewrite bind_unfold, Hgen.
  set (maxSets := Z.min _ _).
  destruct (gridLoop_quiet w shuffled (jsnOfZ (maxIterations config)) Hquiet
              (Z.to_nat maxSets) 0 (set_tick t start))
    as (s1 & Hgrid & HI1 & Hopt1 & Hcb1 & Hlog1 & Hpar1); try done.
  { eapply Inv_quiet; [apply Inv_start|done..]. }
  { unfold maxSets. lia. }
  rewrite bind_unfold, Hgrid.
  simpl in Hpar1. rewrite drop_0 in Hpar1. unfold maxSets in Hpar1.
  rewrite take_min_length in Hpar1.
  rewrite bind_unfold. unfold get at 1. cbv beta iota. rewrite Hopt1.
  rewrite andb_true_l.
  destruct (bool_decide (0 < length (results s1))%nat) eqn:Hany.
  2:{ apply bool_decide_eq_false in Hany.
      assert (Hnil : results s1 = []) by (destruct (results s1); [done|simpl in Hany; lia]).
      rewrite bind_unfold. unfold ret at 1.
      destruct (compileResults_unfold w s1) as (c & Hc & _ & Ht & _);
        [apply (inv_run _ HI1) | by apply Inv_best_is_Some |].
      rewrite Hc. exists shuffled, [], []. simpl.
      rewrite completionLog_app, <-Hlog1, Hnil. simpl.
      rewrite Hnil in Hpar1. simpl in Hpar1.
      split_and!; try done.
      - change (generateFineParameterSets [] params) with (@nil ParameterSet).
        by rewrite take_nil.
      - by rewrite Ht, Hnil. }
  rewrite bind_unfold. unfold getTopResults at 1. run_monad.
  set (s2 := set_results (sortDesc score (results s1)) s1).
  set (fine := generateFineParameterSets _ params).
  assert (HI2 : Inv s2).
  { eapply Inv_quiet; [exact HI1|try done..]. apply sortDesc_perm. }
  match goal with
  | |- context [fineLoop w fine config ?n 0%nat s2] =>
      destruct (fineLoop_quiet w fine config Hquiet n 0%nat s2)
        as (s3 & new & Hfine & HI3 & _ & _ & Hlog3 & Hpar3); try done;
        [lia|]
  end.
  rewrite Hfine.
  destruct (compileResults_unfold w s3) as (c & Hc & _ & Ht & _);
    [apply (inv_run _ HI3) | by apply Inv_best_is_Some |].
  rewrite Hc. exists shuffled, (results s1), new.
  simpl in Hlog3. rewrite <-Hlog1 in Hlog3.
  rewrite drop_0, sortDesc_length, take_min_length in Hpar3.
  split_and!; try done.
  - simpl. rewrite completionLog_app. simpl. by rewrite app_nil_r.
  - rewrite Ht, <-Hlog3. apply Permutation_length, (inv_log _ HI3).
Qed.

Lemma standard_run_refines_the_top_witness :
  match optimize demoWorld [lengthParam] standardSettings newOptimizer with
  | Done c s' =>
      ∃ shuffled coarse refined,
        shuffled ≡ₚ enumerateSets [lengthParam] "coarse"
        ∧ completionLog (trace s') = coarse ++ refined
        ∧ parameters <$> coarse
          = take (Z.to_nat (budgetShare (makeConfig standardSettings)
                              (Q2Qc (6 # 10))))
              shuffled
        ∧ parameters <$> refined
          = take (Z.to_nat (maxIterations (makeConfig standardSettings)
                            - Z.of_nat (length coarse)))
              (generateFineParameterSets (take 5 (sortDesc score coarse))
                 [lengthParam])
        ∧ totalTests c = length (coarse ++ refined)
  | _ => False
  end.
Proof.
  apply (standard_run_refines_the_top demoWorld [lengthParam] standardSettings
           newOptimizer); [intros t; reflexivity | reflexivity | reflexivity
                          | discriminate | discriminate].
Defined.
